(** * i18n_merger: tree validation and deep merge of localisation files

    A shallow embedding of [BaseMerger._validate_tree], [_merge_nested] and
    the per-format [merge] loop of [i18n_merger.py], followed by the
    properties of the merged tree.

    Python values are a tagged union; a [dict] is an association list in
    insertion order (Python dicts are ordered and the merged document is
    written in that order); a [list] is a Rocq list indexed with stdpp's
    lookup and insert; exceptions are an explicit error result. *)

From Stdlib Require Import ZArith String Ascii List Lia DecimalString.
From stdpp Require Import base option list strings.

Open Scope string_scope.
Open Scope list_scope.

(** ** Python values *)

(** What [json.loads] / [yaml.safe_load] produce besides containers and
    strings. The payload of a number is never inspected by the merger. *)
Inductive scalar :=
| SInt (n : Z)
| SFloat (literal : string)
| SBool (b : bool)
| SNone.

Unset Elimination Schemes.
Inductive pyval :=
| VStr (s : string)
| VScalar (c : scalar)
| VList (items : list pyval)
| VDict (kvs : list (string * pyval)).
Set Elimination Schemes.

Abbreviation dict := (list (string * pyval)).

(** Induction over the nesting of lists and dicts. *)
Section pyval_nested_induction.
Variable P : pyval → Prop.
Hypothesis Hstr : ∀ s, P (VStr s).
Hypothesis Hscalar : ∀ c, P (VScalar c).
Hypothesis Hlist : ∀ items, Forall P items → P (VList items).
Hypothesis Hdict : ∀ kvs, Forall (λ kv, P (snd kv)) kvs → P (VDict kvs).

Fixpoint pyval_nested_ind (v : pyval) : P v :=
  match v with
  | VStr s => Hstr s
  | VScalar c => Hscalar c
  | VList items =>
      Hlist items
        ((fix go (l : list pyval) : Forall P l :=
            match l with
            | [] => List.Forall_nil P
            | x :: l' => List.Forall_cons P x l' (pyval_nested_ind x) (go l')
            end) items)
  | VDict kvs =>
      Hdict kvs
        ((fix go (l : dict) : Forall (λ kv, P (snd kv)) l :=
            match l with
            | [] => List.Forall_nil _
            | kv :: l' => List.Forall_cons _ kv l' (pyval_nested_ind (snd kv)) (go l')
            end) kvs)
  end.
End pyval_nested_induction.

(** [type(node).__name__] *)
Definition type_name (v : pyval) : string :=
  match v with
  | VStr _ => "str"
  | VScalar (SInt _) => "int"
  | VScalar (SFloat _) => "float"
  | VScalar (SBool _) => "bool"
  | VScalar SNone => "NoneType"
  | VList _ => "list"
  | VDict _ => "dict"
  end.

(** [isinstance(v, Mapping)], [isinstance(v, list)], [isinstance(v, str)] *)
Definition is_mapping (v : pyval) : bool :=
  match v with VDict _ => true | _ => false end.
Definition is_list (v : pyval) : bool :=
  match v with VList _ => true | _ => false end.
Definition is_str (v : pyval) : bool :=
  match v with VStr _ => true | _ => false end.

(** ** Exceptions *)

Inductive exn :=
| InvalidTranslationFile (msg : string)
| AttributeError (msg : string)
| KeyError (key : string)
| IndexError.

Inductive result (A : Type) :=
| Ok (a : A)
| Raise (e : exn).
Arguments Ok {A} a.
Arguments Raise {A} e.

Definition bind {A B} (r : result A) (k : A → result B) : result B :=
  match r with
  | Ok a => k a
  | Raise e => Raise e
  end.

Notation "'let?' x ':=' r 'in' k" := (bind r (λ x, k))
  (at level 10, x name, r at level 100, k at level 200).
Notation "'do?' r 'in' k" := (bind r (λ _, k))
  (at level 10, r at level 100, k at level 200).

(** [for x in xs: body(x)] where the body only checks. *)
Fixpoint for_each {A} (body : A → result unit) (xs : list A) : result unit :=
  match xs with
  | [] => Ok tt
  | x :: xs' => do? body x in for_each body xs'
  end.

(** [for x in xs: state = body(x, state)], the state being the object the
    body mutates. *)
Fixpoint for_fold {A S} (body : A → S → result S) (xs : list A) (st : S)
  : result S :=
  match xs with
  | [] => Ok st
  | x :: xs' => let? st' := body x st in for_fold body xs' st'
  end.

(** ** Dict operations *)

(** [d.get(key)]: [None] when the key is absent. *)
Fixpoint getitem (d : dict) (key : string) : option pyval :=
  match d with
  | [] => None
  | (k, v) :: d' => if decide (k = key) then Some v else getitem d' key
  end.

(** [d[key] = x]: an existing key keeps its position, a new key goes last. *)
Fixpoint setitem (d : dict) (key : string) (x : pyval) : dict :=
  match d with
  | [] => [(key, x)]
  | (k, v) :: d' =>
      if decide (k = key) then (k, x) :: d' else (k, v) :: setitem d' key x
  end.

(** [d.setdefault(key, x)], as the dict it leaves behind. *)
Definition setdefault (d : dict) (key : string) (x : pyval) : dict :=
  match getitem d key with
  | Some _ => d
  | None => setitem d key x
  end.

Definition keys (d : dict) : list string := map fst d.

(** ** Error messages, as the f-strings build them *)

Definition str_of_nat (i : nat) : string :=
  NilZero.string_of_uint (Nat.to_uint i).

Definition leaf_message (filename : string) (node : pyval) : string :=
  filename +:+ ": leaf values must be strings, got " +:+ type_name node.

Definition mismatch_message (key filename : string) : string :=
  "Structure mismatch at key '" +:+ key +:+
  "' between languages (file " +:+ filename +:+ ")".

Definition element_message (filename : string) (item : pyval)
    (key : string) (i : nat) : string :=
  filename +:+ ": unsupported array element type " +:+ type_name item +:+
  " at key '" +:+ key +:+ "[" +:+ str_of_nat i +:+ "]'".

Definition no_items_message (v : pyval) : string :=
  "'" +:+ type_name v +:+ "' object has no attribute 'items'".

(** ** [BaseMerger._validate_tree] *)

Fixpoint _validate_tree (node : pyval) (filename : string) : result unit :=
  match node with
  | VDict kvs =>
      for_each (λ kv : string * pyval, _validate_tree (snd kv) filename) kvs
  | VList items =>
      for_each (λ item, _validate_tree item filename) items
  | VStr _ => Ok tt
  | VScalar _ => Raise (InvalidTranslationFile (leaf_message filename node))
  end.

(** ** [_merge_nested] *)

Section merge.
Variables (lang filename : string).

Section body.
(** The recursive call [_merge_nested(·, ·, lang, filename)]. *)
Variable rec : dict → pyval → result dict.

(** [while len(dst_list) < len(value): dst_list.append({})] *)
Definition grow (dst_list : list pyval) (n : nat) : list pyval :=
  dst_list ++ replicate (n - length dst_list) (VDict []).

(** The body of [for i, item in enumerate(value)], on [dst_list]. *)
Definition merge_item (key : string) (i : nat) (item : pyval)
    (dst_list : list pyval) : result (list pyval) :=
  match dst_list !! i with
  | None => Raise IndexError
  | Some cell =>
      let dst_list :=
        if is_mapping cell then dst_list else <[i := VDict []]> dst_list in
      match dst_list !! i with
      | Some (VDict cell) =>
          match item with
          | VDict _ =>
              let? cell' := rec cell item in
              Ok (<[i := VDict cell']> dst_list)
          | VStr _ =>
              Ok (<[i := VDict (setitem cell lang item)]> dst_list)
          | _ =>
              Raise (InvalidTranslationFile
                       (element_message filename item key i))
          end
      | _ => Raise IndexError
      end
  end.

(** [enumerate(value)], from index [i] on. *)
Fixpoint merge_items (key : string) (i : nat) (value : list pyval)
    (dst_list : list pyval) : result (list pyval) :=
  match value with
  | [] => Ok dst_list
  | item :: rest =>
      let? dst_list := merge_item key i item dst_list in
      merge_items key (S i) rest dst_list
  end.

(** The body of [for key, value in incoming.items()], on [base]. *)
Definition merge_entry (kv : string * pyval) (base : dict) : result dict :=
  let '(key, value) := kv in
  match value with
  | VDict _ =>
      let base := setdefault base key (VDict []) in
      match getitem base key with
      | None => Raise (KeyError key)
      | Some (VDict sub) =>
          let? sub' := rec sub value in
          Ok (setitem base key (VDict sub'))
      | Some _ =>
          Raise (InvalidTranslationFile (mismatch_message key filename))
      end
  | VList items =>
      let base := setdefault base key (VList []) in
      match getitem base key with
      | None => Raise (KeyError key)
      | Some (VList dst_list) =>
          let dst_list := grow dst_list (length items) in
          let? dst_list := merge_items key 0 items dst_list in
          Ok (setitem base key (VList dst_list))
      | Some _ =>
          Raise (InvalidTranslationFile (mismatch_message key filename))
      end
  | _ =>
      let base := setdefault base key (VDict []) in
      match getitem base key with
      | None => Raise (KeyError key)
      | Some (VDict leaf) =>
          Ok (setitem base key (VDict (setitem leaf lang value)))
      | Some _ =>
          Raise (InvalidTranslationFile (mismatch_message key filename))
      end
  end.
End body.

Fixpoint _merge_nested (base : dict) (incoming : pyval) {struct incoming}
  : result dict :=
  match incoming with
  | VDict kvs => for_fold (merge_entry _merge_nested) kvs base
  | _ => Raise (AttributeError (no_items_message incoming))
  end.
End merge.

(** ** [JsonMerger.merge] *)

(** A [Path] as the merger uses it: [str(file)] and [file.stem]. *)
Record Path := { path_str : string; stem : string }.

(** The loop of [JsonMerger.merge] over the globbed files, each given with the
    payload [json.loads] returned for it. *)
Definition merge_file (entry : Path * pyval) (merged : dict) : result dict :=
  let '(file, payload) := entry in
  let lang := stem file in
  do? _validate_tree payload (path_str file) in
  _merge_nested lang (path_str file) merged payload.

Definition JsonMerger_merge (files : list (Path * pyval)) : result dict :=
  for_fold merge_file files [].

(** ** Vocabulary of the specification *)

Unset Elimination Schemes.
(** A Document Tree: maps, sequences and string leaves only. *)
Inductive doc_tree : pyval → Prop :=
| doc_str s : doc_tree (VStr s)
| doc_list items : Forall doc_tree items → doc_tree (VList items)
| doc_dict kvs : Forall (λ kv, doc_tree (snd kv)) kvs → doc_tree (VDict kvs).
Set Elimination Schemes.

(** [x] is a node of the tree [v]. *)
Inductive node_of (x : pyval) : pyval → Prop :=
| node_here : node_of x x
| node_item items y : In y items → node_of x y → node_of x (VList items)
| node_value kvs k y : In (k, y) kvs → node_of x y → node_of x (VDict kvs).

(** The message contains [needle]. *)
Fixpoint mentions (needle msg : string) : bool :=
  String.prefix needle msg ||
  match msg with
  | EmptyString => false
  | String _ msg' => mentions needle msg'
  end.

(** The error kinds of the specification are all raised as
    [InvalidTranslationFile]; they differ by their message. *)
Definition StructureMismatch (key filename : string) : exn :=
  InvalidTranslationFile (mismatch_message key filename).
Definition InvalidStructure (filename : string) (node : pyval) : exn :=
  InvalidTranslationFile (leaf_message filename node).
Definition UnsupportedElementType (filename : string) (item : pyval)
    (key : string) (i : nat) : exn :=
  InvalidTranslationFile (element_message filename item key i).

Definition declared_error (e : exn) : Prop :=
  ∃ msg, e = InvalidTranslationFile msg.

(** ** The end-to-end example *)

Definition en_json : pyval :=
  VDict [("greet", VStr "Hi"); ("items", VList [VStr "a"; VStr "b"])].
Definition ru_json : pyval :=
  VDict [("greet", VStr "Привет");
         ("items", VList [VStr "х"; VStr "у"; VStr "z"])].
Definition en_ru_merged : dict :=
  [("greet", VDict [("en", VStr "Hi"); ("ru", VStr "Привет")]);
   ("items", VList [VDict [("en", VStr "a"); ("ru", VStr "х")];
                    VDict [("en", VStr "b"); ("ru", VStr "у")];
                    VDict [("ru", VStr "z")]])].

Definition count_5 : pyval := VDict [("count", VScalar (SInt 5))].

(** ** One loop iteration, seen from the slot it writes *)

(** What an iteration of the [for key, value] loop leaves at [base[key]],
    given what was there ([None]: the key was absent). *)
Definition merge_slot (lang filename key : string) (value : pyval)
    (old : option pyval) : result pyval :=
  match value with
  | VDict _ =>
      match default (VDict []) old with
      | VDict sub =>
          let? sub' := _merge_nested lang filename sub value in
          Ok (VDict sub')
      | _ => Raise (StructureMismatch key filename)
      end
  | VList items =>
      match default (VList []) old with
      | VList dst_list =>
          let? dst_list :=
            merge_items lang filename (_merge_nested lang filename) key 0
              items (grow dst_list (length items)) in
          Ok (VList dst_list)
      | _ => Raise (StructureMismatch key filename)
      end
  | _ =>
      match default (VDict []) old with
      | VDict leaf => Ok (VDict (setitem leaf lang value))
      | _ => Raise (StructureMismatch key filename)
      end
  end.

(** What an iteration of the [for i, item] loop leaves at [dst_list[i]],
    given what was there. *)
Definition merge_cell (lang filename key : string) (i : nat) (item : pyval)
    (old : pyval) : result pyval :=
  let cell := match old with VDict cell => cell | _ => [] end in
  match item with
  | VDict _ =>
      let? cell' := _merge_nested lang filename cell item in
      Ok (VDict cell')
  | VStr _ => Ok (VDict (setitem cell lang item))
  | _ => Raise (UnsupportedElementType filename item key i)
  end.

(** ** Mismatch example: an object, then a string, at key 'title' *)

Definition title_object : pyval :=
  VDict [("title", VDict [("main", VStr "Hello")])].
Definition title_string : pyval := VDict [("title", VStr "Привет")].

(** ** Shape of the merged document *)

Definition is_lang (langs : list string) (k : string) : bool :=
  bool_decide (k ∈ langs).

(** What the merge maintains: the document is a map; a string only ever sits
    in a map, under the language tag of a merged file; sequence slots are
    maps; numbers, booleans and nulls do not occur. *)
Fixpoint merged_tree (langs : list string) (v : pyval) : bool :=
  match v with
  | VDict kvs =>
      forallb (λ kv : string * pyval,
                 match snd kv with
                 | VStr _ => is_lang langs (fst kv)
                 | VScalar _ => false
                 | VList items =>
                     forallb (λ item, is_mapping item && merged_tree langs item)
                       items
                 | VDict _ => merged_tree langs (snd kv)
                 end) kvs
  | _ => false
  end.

(** The condition [merged_tree] puts on one entry of a map. *)
Definition merged_entry (langs : list string) (kv : string * pyval) : bool :=
  match snd kv with
  | VStr _ => is_lang langs (fst kv)
  | VScalar _ => false
  | VList items =>
      forallb (λ item, is_mapping item && merged_tree langs item) items
  | VDict _ => merged_tree langs (snd kv)
  end.

Unset Elimination Schemes.
(** Python dicts have no duplicate keys. *)
Inductive unique_keys : pyval → Prop :=
| uk_str s : unique_keys (VStr s)
| uk_scalar c : unique_keys (VScalar c)
| uk_list items : Forall unique_keys items → unique_keys (VList items)
| uk_dict kvs :
    NoDup (keys kvs) → Forall (λ kv, unique_keys (snd kv)) kvs →
    unique_keys (VDict kvs).
Set Elimination Schemes.

(** A string in one file where the other has an object. *)
Definition mixed_en : pyval := VDict [("a", VStr "x")].
Definition mixed_ru : pyval := VDict [("a", VDict [("b", VStr "y")])].
Definition mixed_merged : dict :=
  [("a", VDict [("en", VStr "x"); ("b", VDict [("ru", VStr "y")])])].

Definition en_file : Path := {| path_str := "en.json"; stem := "en" |}.
Definition ru_file : Path := {| path_str := "ru.json"; stem := "ru" |}.

(** The language tags of a run, in processing order. *)
Definition run_langs (files : list (Path * pyval)) : list string :=
  map (λ entry : Path * pyval, stem (fst entry)) files.

Unset Elimination Schemes.
(** Two trees of the same shape: the same keys in the same order, sequences
    of the same length, strings where the other has strings. *)
Inductive same_shape : pyval → pyval → Prop :=
| ss_str s s' : same_shape (VStr s) (VStr s')
| ss_list items items' :
    Forall2 same_shape items items' → same_shape (VList items) (VList items')
| ss_dict kvs kvs' :
    Forall2 (λ kv kv' : string * pyval,
               fst kv = fst kv' ∧ same_shape (snd kv) (snd kv')) kvs kvs' →
    same_shape (VDict kvs) (VDict kvs').
Set Elimination Schemes.

(** Merging [t2] after [t1], under the same language tag, leaves what merging
    [t2] alone leaves. *)
Definition overwrites (lang file1 file2 : string) (t1 t2 : pyval) : Prop :=
  ∀ base acc1,
    _merge_nested lang file1 base t1 = Ok acc1 →
    ∃ acc2, _merge_nested lang file2 base t2 = Ok acc2 ∧
            _merge_nested lang file2 acc1 t2 = Ok acc2.

(** ** One file merged alone *)

(** The merged image of a single-language tree: every string leaf replaced by
    the map from the language tag to that string, the nesting preserved. *)
Fixpoint lift (lang : string) (v : pyval) : pyval :=
  match v with
  | VStr _ | VScalar _ => VDict [(lang, v)]
  | VList items => VList (map (lift lang) items)
  | VDict kvs =>
      VDict (map (λ kv : string * pyval, (fst kv, lift lang (snd kv))) kvs)
  end.

(** The trees [_merge_nested] accepts besides validation: a map at top level,
    and strings and maps only as elements of sequences. *)
Fixpoint mergeable (v : pyval) : bool :=
  match v with
  | VDict kvs =>
      forallb (λ kv : string * pyval,
                 match snd kv with
                 | VList items =>
                     forallb (λ item,
                                match item with
                                | VStr _ => true
                                | VDict _ => mergeable item
                                | _ => false
                                end) items
                 | VDict _ => mergeable (snd kv)
                 | _ => true
                 end) kvs
  | _ => false
  end.

(** Every map that holds a string is a leaf map with the single entry
    [{lang: s}]; sequence slots are maps. *)
Fixpoint single_lang (lang : string) (v : pyval) : bool :=
  match v with
  | VDict kvs =>
      match kvs with
      | [(k, VStr _)] => bool_decide (k = lang)
      | _ =>
          forallb (λ kv : string * pyval,
                     match snd kv with
                     | VDict _ => single_lang lang (snd kv)
                     | VList items =>
                         forallb (λ item,
                                    is_mapping item && single_lang lang item)
                           items
                     | _ => false
                     end) kvs
      end
  | _ => false
  end.

(** A validated tree the merge rejects: a sequence inside a sequence. *)
Definition nested_list : pyval := VDict [("k", VList [VList [VStr "a"]])].

(** ** Two languages, one key, sequences of different lengths *)

(** The file [{key: items}]. *)
Definition one_key (key : string) (items : list pyval) : pyval :=
  VDict [(key, VList items)].

(** Language [a] first, then language [b]. *)
Definition merge_two (a fa b fb : string) (ta tb : pyval) : result dict :=
  let? acc := _merge_nested a fa [] ta in _merge_nested b fb acc tb.

(** A slot that holds the contribution of [item] under [lang] and nothing
    else: [{lang: s}] for a string, the element merged alone into an empty
    map for a map. *)
Definition only_from (lang filename : string) (item slot : pyval) : Prop :=
  match item with
  | VStr _ => slot = VDict [(lang, item)]
  | VDict _ => ∃ d, _merge_nested lang filename [] item = Ok d ∧ slot = VDict d
  | _ => False
  end.

Definition two_strings : list pyval := [VStr "a1"; VStr "a2"].
Definition five_strings : list pyval :=
  [VStr "b1"; VStr "b2"; VStr "b3"; VStr "b4"; VStr "b5"].

(** ** Paths into a tree *)

Inductive step :=
| Key (k : string)
| Index (i : nat).

Abbreviation path := (list step).

(** [v[k]] or [v[i]], when [v] is a map with that key or a sequence with
    that index. *)
Definition child (v : pyval) (st : step) : option pyval :=
  match st, v with
  | Key k, VDict kvs => getitem kvs k
  | Index i, VList items => items !! i
  | _, _ => None
  end.

Fixpoint lookup_path (v : pyval) (p : path) : option pyval :=
  match p with
  | [] => Some v
  | st :: p' =>
      match child v st with
      | Some c => lookup_path c p'
      | None => None
      end
  end.

(** The same, from a value that may be absent. *)
Definition child_opt (o : option pyval) (st : step) : option pyval :=
  match o with Some v => child v st | None => None end.
Definition lookup_opt (o : option pyval) (p : path) : option pyval :=
  match o with Some v => lookup_path v p | None => None end.

(** The key set of the map at a position; empty where there is no map. *)
Definition keys_of (o : option pyval) : list string :=
  match o with Some (VDict kvs) => keys kvs | _ => [] end.

(** The key set of a file's tree at a path, as the specification takes it. *)
Definition file_keys (t : pyval) (p : path) : list string :=
  keys_of (lookup_path t p).

(** What a file puts into the map the merged tree has at a path: the keys of
    its own map there, or its language tag if it has a string there. *)
Definition contribution (lang : string) (t : pyval) (p : path) : list string :=
  match lookup_path t p with
  | Some (VDict kvs) => keys kvs
  | Some (VStr _) => [lang]
  | _ => []
  end.

(** The file has a map or a string at the path. *)
Definition contributes (t : pyval) (p : path) : bool :=
  match lookup_path t p with
  | Some (VDict _) | Some (VStr _) => true
  | _ => false
  end.

(** The path runs into a string of [v], at the path or above it. *)
Fixpoint blocked (p : path) (v : pyval) : Prop :=
  match p with
  | [] => is_str v = true
  | st :: p' =>
      is_str v = true ∨
      match child v st with
      | Some c => blocked p' c
      | None => False
      end
  end.

(** Every element of every sequence is a map. *)
Fixpoint slots_are_maps (v : pyval) : bool :=
  match v with
  | VList items =>
      forallb (λ item, is_mapping item && slots_are_maps item) items
  | VDict kvs => forallb (λ kv : string * pyval, slots_are_maps (snd kv)) kvs
  | _ => true
  end.

(** Some file of the run contributes [k] at [p]. *)
Definition union_at (files : list (Path * pyval)) (p : path) (k : string)
  : Prop :=
  ∃ file payload,
    In (file, payload) files ∧ In k (contribution (stem file) payload p).

(** ** Last writer wins *)

(** The keys of [incoming] that [base] does not have yet, in the order of
    [incoming]. *)
Definition new_keys (base incoming : dict) : list string :=
  List.filter (λ k, negb (bool_decide (k ∈ keys base))) (keys incoming).

(** en.json, revised: the same shape, other strings. *)
Definition en_json_v2 : pyval :=
  VDict [("greet", VStr "Hello"); ("items", VList [VStr "A"; VStr "B"])].

(** ** Leaf typing *)

(** The leaf typing of the specification: a map of the tree that holds a
    string is a Merged Leaf, a map from language tags to strings. *)
Definition leaf_typing (langs : list string) (v : pyval) : Prop :=
  ∀ p D k s,
    lookup_path v p = Some (VDict D) → getitem D k = Some (VStr s) →
    ∀ k' x, getitem D k' = Some x → is_str x = true ∧ k' ∈ langs.

(** No path holds a string in one file and a map in another. *)
Definition consistent (files : list (Path * pyval)) : Prop :=
  ∀ p fa ta fb tb s kvs,
    In (fa, ta) files → In (fb, tb) files →
    lookup_path ta p = Some (VStr s) → lookup_path tb p = Some (VDict kvs) →
    False.

Definition same_kind (a b : pyval) : Prop :=
  is_str a = is_str b ∧ is_mapping a = is_mapping b ∧ is_list a = is_list b.

(** Where a node [n] at path [q] of the merged tree can come from in the tree
    [t] of a file: a string from a string of [t] one step up, under the tag;
    a map from a map or a string of [t] at [q]; a sequence from a sequence. *)
Definition origin (lang : string) (t : pyval) (q : path) (n : pyval) : Prop :=
  match n with
  | VStr _ => ∃ p s, q = p ++ [Key lang] ∧ lookup_path t p = Some (VStr s)
  | VDict _ => contributes t q = true
  | VList _ => ∃ items, lookup_path t q = Some (VList items)
  | VScalar _ => False
  end.

(** * The rest of the module: further definitions *)

(** ** The merged document as a whole *)

(** The top-level keys of the files of a run, with repetitions. *)
Definition top_level_keys (files : list (Path * pyval)) : list string :=
  concat (map (λ entry : Path * pyval, file_keys (snd entry) []) files).

(** ** The errors of a run *)




(** ** What a merge keeps *)

(** [n] is what the node [o] has become: the same leaf, a sequence at least
    as long, a map with at least the same keys. *)
Definition grown (o n : pyval) : Prop :=
  match o with
  | VStr _ | VScalar _ => n = o
  | VList items =>
      ∃ items', n = VList items' ∧ (length items ≤ length items')%nat
  | VDict kvs =>
      ∃ kvs', n = VDict kvs' ∧ ∀ k, In k (keys kvs) → In k (keys kvs')
  end.

(** The path goes through none of the keys [langs]. *)
Definition avoids (langs : list string) (p : path) : Prop :=
  ∀ l, l ∈ langs → Key l ∉ p.

(** No map of the tree has one of [langs] as a key. *)
Fixpoint keys_avoid (langs : list string) (v : pyval) : bool :=
  match v with
  | VDict kvs =>
      forallb (λ kv : string * pyval,
                 negb (is_lang langs (fst kv)) && keys_avoid langs (snd kv))
        kvs
  | VList items => forallb (keys_avoid langs) items
  | _ => true
  end.

(** The string the merged document has at a path, as a predicate on runs. *)
Definition string_at (v : pyval) (p : path) (s : string) : Prop :=
  lookup_path v p = Some (VStr s).

#[global] Instance step_eq_dec : EqDecision step.
Proof. solve_decision. Defined.

(** [avoids], by evaluation. *)
Definition avoidsb (langs : list string) (p : path) : bool :=
  forallb (λ l, bool_decide (Key l ∉ p)) langs.

(** The example files, merged in the other order. *)
Definition ru_en_merged : dict :=
  Eval vm_compute in
    match JsonMerger_merge [(ru_file, ru_json); (en_file, en_json)] with
    | Ok merged => merged
    | Raise _ => []
    end.

(** ** [YamlMerger.merge] *)

Section yaml.
(** Whether a float literal denotes zero; floats are kept as literals. *)
Variable float_is_zero : string → bool.

(** Python's truth value of a loaded document: [None], [False], zero, the
    empty string, the empty sequence and the empty map are false. *)
Definition truthy (v : pyval) : bool :=
  match v with
  | VStr s => negb (String.eqb s EmptyString)
  | VScalar (SInt n) => negb (n =? 0)%Z
  | VScalar (SFloat literal) => negb (float_is_zero literal)
  | VScalar (SBool b) => b
  | VScalar SNone => false
  | VList items => match items with [] => false | _ :: _ => true end
  | VDict kvs => match kvs with [] => false | _ :: _ => true end
  end.

(** [loaded or {}] *)
Definition or_empty (loaded : pyval) : pyval :=
  if truthy loaded then loaded else VDict [].

(** The loop of [YamlMerger.merge] over the globbed files, each given with
    what [yaml.safe_load] returned for it (documents of maps with string
    keys, sequences, strings, numbers, booleans and nulls). *)
Definition yaml_merge_file (entry : Path * pyval) (merged : dict)
  : result dict :=
  let '(file, loaded) := entry in
  let lang := stem file in
  let payload := or_empty loaded in
  do? _validate_tree payload (path_str file) in
  _merge_nested lang (path_str file) merged payload.

Definition YamlMerger_merge (files : list (Path * pyval)) : result dict :=
  for_fold yaml_merge_file files [].
End yaml.

(** ** [JsMerger._strip_template_literals] *)

(** Source text is taken as the bytes of its UTF-8 encoding: the pattern
    and the escapes of [json.dumps] single out ASCII characters only, which
    never occur inside the encoding of another character. *)
Definition backtick : ascii := "096"%char.
Definition backslash : ascii := "092"%char.
Definition dquote : ascii := "034"%char.

(** The character class of [_re_backtick]: any character but the backtick
    and the backslash. *)
Definition plain (c : ascii) : bool :=
  negb (Ascii.eqb c backtick) && negb (Ascii.eqb c backslash).

(** The class, starred: a run of such characters. *)
Inductive plain_run : string → Prop :=
| run_nil : plain_run EmptyString
| run_cons c s : plain c = true → plain_run s → plain_run (String c s).

(** The starred group of [_re_backtick]: any number of times a backslash,
    any character (the dot, under [re.S]) and a run. *)
Inductive escapes : string → Prop :=
| esc_nil : escapes EmptyString
| esc_cons d run rest :
    plain_run run → escapes rest →
    escapes (String backslash (String d (run +:+ rest))).

(** What [_re_backtick] has between its two backticks, [m.group(1)]: a run,
    then the starred group. *)
Definition body_pattern (body : string) : Prop :=
  ∃ run rest, body = run +:+ rest ∧ plain_run run ∧ escapes rest.

(** An attempt to match [_re_backtick] right after an opening backtick: the
    body is read character by character, a backslash taking the next
    character with it, up to the first backtick that is not taken by a
    backslash. The result is [m.group(1)] and the text after the match; there
    is no match if the text ends first. *)
Fixpoint match_body (s : string) : option (string * string) :=
  match s with
  | EmptyString => None
  | String c rest =>
      if Ascii.eqb c backtick then Some (EmptyString, rest)
      else if Ascii.eqb c backslash then
        match rest with
        | EmptyString => None
        | String d rest' =>
            match match_body rest' with
            | Some (body, after) => Some (String c (String d body), after)
            | None => None
            end
        end
      else
        match match_body rest with
        | Some (body, after) => Some (String c body, after)
        | None => None
        end
  end.

(** The text has no closing backtick for a literal opened just before it. *)
Definition unclosed (rest : string) : Prop :=
  ∀ body after, body_pattern body → rest ≠ body +:+ String backtick after.

Definition hex_digit (n : nat) : ascii :=
  nth n ["0"; "1"; "2"; "3"; "4"; "5"; "6"; "7"; "8"; "9";
         "a"; "b"; "c"; "d"; "e"; "f"]%char "0"%char.

(** What [json.dumps(..., ensure_ascii=False)] writes for one character of a
    string: the quote, the backslash and the control characters are
    escaped. *)
Definition escape_char (c : ascii) : string :=
  let n := nat_of_ascii c in
  if Ascii.eqb c dquote then String backslash (String dquote EmptyString)
  else if Ascii.eqb c backslash then
    String backslash (String backslash EmptyString)
  else if Nat.eqb n 8 then String backslash "b"
  else if Nat.eqb n 12 then String backslash "f"
  else if Nat.eqb n 10 then String backslash "n"
  else if Nat.eqb n 13 then String backslash "r"
  else if Nat.eqb n 9 then String backslash "t"
  else if Nat.ltb n 32 then
    String backslash
      ("u00" +:+ String (hex_digit (n / 16))
                   (String (hex_digit (n mod 16)) EmptyString))
  else String c EmptyString.

Fixpoint escape (s : string) : string :=
  match s with
  | EmptyString => EmptyString
  | String c s' => escape_char c +:+ escape s'
  end.

(** [json.dumps(body, ensure_ascii=False)] for a string. *)
Definition json_dumps_str (body : string) : string :=
  String dquote (escape body +:+ String dquote EmptyString).

(** [repl]: [m.group(0)] if the body has an interpolation, the body as a
    double-quoted string otherwise. *)
Definition repl (body : string) : string :=
  if mentions "${" body then String backtick (body +:+ String backtick EmptyString)
  else json_dumps_str body.

(** [_re_backtick.sub(repl, src)]: the matches are looked for from left to
    right, each attempt starting at a backtick; after a match the search
    goes on behind it, after a failed attempt at the next character. Every
    step takes at least one character, so [fuel] as long as the text
    suffices. *)
Fixpoint sub_backtick (fuel : nat) (src : string) : string :=
  match fuel, src with
  | _, EmptyString => EmptyString
  | O, _ => src
  | S fuel, String c rest =>
      if Ascii.eqb c backtick then
        match match_body rest with
        | Some (body, after) => repl body +:+ sub_backtick fuel after
        | None => String c (sub_backtick fuel rest)
        end
      else String c (sub_backtick fuel rest)
  end.

Definition _strip_template_literals (src : string) : string :=
  sub_backtick (String.length src) src.

(** No backtick in the text. *)
Fixpoint no_backtick (s : string) : bool :=
  match s with
  | EmptyString => true
  | String c s' => negb (Ascii.eqb c backtick) && no_backtick s'
  end.

(** Characters [json.dumps] writes as they are, backticks apart. *)
Definition ordinary (c : ascii) : bool :=
  plain c && negb (Ascii.eqb c dquote) && negb (Nat.ltb (nat_of_ascii c) 32).

Fixpoint all_ordinary (s : string) : bool :=
  match s with
  | EmptyString => true
  | String c s' => ordinary c && all_ordinary s'
  end.

(** ** When a run merges *)

(** Two trees clash: at some path one has a sequence and the other has
    something else. *)
Definition clash (t u : pyval) : Prop :=
  ∃ p x y,
    lookup_path t p = Some x ∧ lookup_path u p = Some y ∧
    is_list x ≠ is_list y.

(** What is in a slot fits the incoming value: wherever both have a node, a
    sequence meets a sequence and anything else meets a map. *)
Definition fits (old : option pyval) (v : pyval) : Prop :=
  ∀ p o y,
    lookup_opt old p = Some o → lookup_path v p = Some y →
    is_list o = is_list y ∧ is_mapping o = negb (is_list y).

(** * Properties *)

(** ** The end-to-end example *)

(** C1: both example files validate, and merging en.json and then ru.json into
    an empty accumulator yields exactly the expected document, through
    [_merge_nested] and through the [merge] loop alike. *)
Theorem C1_end_to_end :
  _validate_tree en_json "en.json" = Ok tt ∧
  _validate_tree ru_json "ru.json" = Ok tt ∧
  (let? acc := _merge_nested "en" "en.json" [] en_json in
   _merge_nested "ru" "ru.json" acc ru_json) = Ok en_ru_merged ∧
  JsonMerger_merge [(en_file, en_json); (ru_file, ru_json)] = Ok en_ru_merged.
Proof. repeat split; vm_compute; reflexivity. Qed.

(** ** Validation *)

Lemma bind_Ok {A B} (r : result A) (k : A → result B) (b : B) :
  bind r k = Ok b ↔ ∃ a, r = Ok a ∧ k a = Ok b.
Proof.
  destruct r as [a|e]; simpl; split.
  - intros H. exists a. auto.
  - intros (a' & Ha & Hk). injection Ha as ->. exact Hk.
  - discriminate.
  - intros (a' & Ha & _). discriminate.
Qed.

Lemma for_each_Ok {A} (body : A → result unit) (xs : list A) :
  for_each body xs = Ok tt ↔ Forall (λ x, body x = Ok tt) xs.
Proof.
  induction xs as [|x xs IH]; simpl.
  - split; auto.
  - rewrite bind_Ok, Forall_cons, <- IH. split.
    + intros ([] & Hx & Hxs). auto.
    + intros [Hx Hxs]. exists tt. auto.
Qed.

(** The outcome of a checking loop: all bodies pass, or the first failure is
    the failure of the loop. *)
Lemma for_each_outcome {A} (body : A → result unit) (xs : list A) :
  for_each body xs = Ok tt ∨
  ∃ x e, In x xs ∧ body x = Raise e ∧ for_each body xs = Raise e.
Proof.
  induction xs as [|x xs IH]; simpl; [by left|].
  destruct (body x) as [[]|e] eqn:Hx; simpl.
  - destruct IH as [IH | (y & e & Hy & Hbody & Hloop)]; [by left|].
    right. exists y, e. auto.
  - right. exists x, e. auto.
Qed.

Lemma validate_tree_Ok (node : pyval) (filename : string) :
  _validate_tree node filename = Ok tt ↔ doc_tree node.
Proof.
  induction node as [s|c|items IH|kvs IH] using pyval_nested_ind; simpl.
  - split; auto using doc_str.
  - split; [discriminate | inversion 1].
  - rewrite for_each_Ok. split.
    + intros H. constructor. rewrite Forall_forall in *. intros x Hx.
      apply IH; auto.
    + inversion 1; subst. rewrite Forall_forall in *. intros x Hx.
      apply IH; auto.
  - rewrite for_each_Ok. split.
    + intros H. constructor. rewrite Forall_forall in *. intros x Hx.
      apply IH; auto.
    + inversion 1; subst. rewrite Forall_forall in *. intros x Hx.
      apply IH; auto.
Qed.

Lemma validate_tree_Raise (node : pyval) (filename : string) (e : exn) :
  _validate_tree node filename = Raise e →
  ∃ c, node_of (VScalar c) node ∧ e = InvalidStructure filename (VScalar c).
Proof.
  revert e. induction node as [s|c|items IH|kvs IH] using pyval_nested_ind; simpl; intros e He.
  - discriminate.
  - exists c. split; [apply node_here | unfold InvalidStructure; congruence].
  - destruct (for_each_outcome (λ item, _validate_tree item filename) items)
      as [Hok | (x & e' & Hx & Hbody & Hloop)]; [congruence|].
    rewrite List.Forall_forall in IH.
    destruct (IH x Hx e' Hbody) as (c & Hc & ->).
    exists c. split; [eapply node_item; eauto | congruence].
  - destruct (for_each_outcome
                (λ kv : string * pyval, _validate_tree (snd kv) filename) kvs)
      as [Hok | ([k x] & e' & Hx & Hbody & Hloop)]; [congruence|].
    rewrite List.Forall_forall in IH.
    destruct (IH (k, x) Hx e' Hbody) as (c & Hc & ->).
    exists c. split; [eapply node_value; eauto | congruence].
Qed.

(** C6: [_validate_tree] returns normally exactly on Document Trees (maps,
    sequences and string leaves; the empty map, the empty sequence and the
    empty string among them); on every other input it raises, and the error
    is the InvalidStructure failure of a non-string leaf of the tree, whose
    message starts with the file and ends with the type of that leaf. There is
    no third outcome. *)
Theorem C6_validate_tree_exact (node : pyval) (filename : string) :
  (_validate_tree node filename = Ok tt ↔ doc_tree node) ∧
  (_validate_tree node filename = Ok tt ∨
   ∃ c, node_of (VScalar c) node ∧
        _validate_tree node filename =
          Raise (InvalidTranslationFile
                   (filename +:+ ": leaf values must be strings, got " +:+
                    type_name (VScalar c)))) ∧
  _validate_tree (VDict []) filename = Ok tt ∧
  _validate_tree (VList []) filename = Ok tt ∧
  _validate_tree (VStr "") filename = Ok tt.
Proof.
  split; [apply validate_tree_Ok|]. split; [|by repeat split].
  destruct (_validate_tree node filename) as [[]|e] eqn:Hv; [by left|].
  right. destruct (validate_tree_Raise _ _ _ Hv) as (c & Hc & ->).
  exists c. split; [exact Hc | reflexivity].
Qed.

(** C7, as stated, fails: the message raised for {"count": 5} in en.json names
    the file but not the key. *)
Lemma C7_counterexample :
  ¬ ∃ msg, _validate_tree count_5 "en.json" =
             Raise (InvalidTranslationFile msg) ∧
           mentions "count" msg = true ∧ mentions "en.json" msg = true.
Proof.
  intros (msg & Hmsg & Hkey & _). vm_compute in Hmsg.
  injection Hmsg as <-. vm_compute in Hkey. discriminate.
Qed.

(** C7, amended: validating a tree with the non-string leaf 5 under any key
    fails with the InvalidStructure error whose message is the file followed by
    ": leaf values must be strings, got int"; the key is not part of it. *)
Theorem C7_invalid_leaf (key filename : string) (n : Z) :
  _validate_tree (VDict [(key, VScalar (SInt n))]) filename =
    Raise (InvalidTranslationFile
             (filename +:+ ": leaf values must be strings, got int")) ∧
  _validate_tree count_5 "en.json" =
    Raise (InvalidTranslationFile
             "en.json: leaf values must be strings, got int").
Proof. split; reflexivity. Qed.

(** ** Dicts as ordered association lists *)

Lemma getitem_setitem_eq (d : dict) (k : string) (x : pyval) :
  getitem (setitem d k x) k = Some x.
Proof.
  induction d as [|[k' v] d IH]; simpl.
  - by rewrite decide_True.
  - destruct (decide (k' = k)) as [->|Hne]; simpl.
    + by rewrite decide_True.
    + by rewrite decide_False.
Qed.

Lemma getitem_setitem_ne (d : dict) (k k' : string) (x : pyval) :
  k ≠ k' → getitem (setitem d k x) k' = getitem d k'.
Proof.
  intros Hne. induction d as [|[k0 v] d IH]; simpl.
  - by rewrite decide_False.
  - destruct (decide (k0 = k)) as [->|Hk0]; simpl.
    + by rewrite !decide_False.
    + by rewrite IH.
Qed.

Lemma getitem_setitem (d : dict) (k k' : string) (x : pyval) :
  getitem (setitem d k x) k' =
    if decide (k = k') then Some x else getitem d k'.
Proof.
  destruct (decide (k = k')) as [->|Hne].
  - apply getitem_setitem_eq.
  - by apply getitem_setitem_ne.
Qed.

Lemma getitem_None (d : dict) (k : string) :
  getitem d k = None ↔ ¬ In k (keys d).
Proof.
  induction d as [|[k' v] d IH]; simpl.
  - tauto.
  - destruct (decide (k' = k)) as [->|Hne].
    + split; [discriminate | tauto].
    + rewrite IH. tauto.
Qed.

Lemma getitem_Some_In (d : dict) (k : string) (x : pyval) :
  getitem d k = Some x → In (k, x) d.
Proof.
  induction d as [|[k' v] d IH]; simpl; [discriminate|].
  destruct (decide (k' = k)) as [->|Hne].
  - intros [= ->]. by left.
  - auto.
Qed.

Lemma getitem_is_Some (d : dict) (k : string) :
  is_Some (getitem d k) ↔ In k (keys d).
Proof.
  induction d as [|[k' v] d IH]; simpl.
  - split; [intros [? [=]] | tauto].
  - destruct (decide (k' = k)) as [->|Hne].
    + split; [by left | by eexists].
    + rewrite IH. tauto.
Qed.

Lemma setitem_setitem (d : dict) (k : string) (x y : pyval) :
  setitem (setitem d k x) k y = setitem d k y.
Proof.
  induction d as [|[k' v] d IH]; simpl.
  - by rewrite decide_True.
  - destruct (decide (k' = k)) as [->|Hne]; simpl.
    + by rewrite decide_True.
    + by rewrite decide_False, IH.
Qed.

(** Two writes commute as soon as one of the keys is already there: its
    position is then fixed. *)
Lemma setitem_comm (d : dict) (k k' : string) (x y : pyval) :
  k ≠ k' → is_Some (getitem d k) →
  setitem (setitem d k' y) k x = setitem (setitem d k x) k' y.
Proof.
  intros Hne. induction d as [|[k0 v] d IH]; simpl; intros Hd.
  - by destruct Hd.
  - repeat (case_decide; simplify_eq; simpl in * ); try done.
    by rewrite IH.
Qed.

Lemma keys_setitem (d : dict) (k : string) (x : pyval) :
  keys (setitem d k x) =
    match getitem d k with Some _ => keys d | None => keys d ++ [k] end.
Proof.
  induction d as [|[k' v] d IH]; simpl; [done|].
  destruct (decide (k' = k)) as [->|Hne]; simpl; [done|].
  rewrite IH. by destruct (getitem d k).
Qed.

Lemma getitem_setdefault (d : dict) (k : string) (x : pyval) :
  getitem (setdefault d k x) k = Some (default x (getitem d k)).
Proof.
  unfold setdefault. destruct (getitem d k) eqn:Hk; simpl; [done|].
  apply getitem_setitem_eq.
Qed.

Lemma setitem_setdefault (d : dict) (k : string) (x y : pyval) :
  setitem (setdefault d k x) k y = setitem d k y.
Proof.
  unfold setdefault. destruct (getitem d k); [done|]. apply setitem_setitem.
Qed.

(** ** The loop bodies through the slot they write *)

Section merge_facts.
Context (lang filename : string).

Local Abbreviation merge := (_merge_nested lang filename).
Local Abbreviation entry := (merge_entry lang filename merge).
Local Abbreviation items_loop := (merge_items lang filename merge).
Local Abbreviation slot := (merge_slot lang filename).
Local Abbreviation cell := (merge_cell lang filename).

Lemma merge_dict (base kvs : dict) :
  merge base (VDict kvs) = for_fold entry kvs base.
Proof. reflexivity. Qed.

Lemma merge_entry_slot (key : string) (value : pyval) (base : dict) :
  entry (key, value) base =
    let? x := slot key value (getitem base key) in
    Ok (setitem base key x).
Proof.
  unfold merge_entry, merge_slot.
  destruct value as [s|c|items|kvs];
    rewrite getitem_setdefault; destruct (getitem base key) as [[]|];
    simpl; try reflexivity;
    try (match goal with
         | |- context [bind ?r _] => destruct r; simpl
         end);
    by rewrite ?setitem_setdefault.
Qed.

Lemma merge_item_cell (key : string) (i : nat) (item : pyval)
    (dst_list : list pyval) :
  merge_item lang filename merge key i item dst_list =
    match dst_list !! i with
    | None => Raise IndexError
    | Some old =>
        let? x := cell key i item old in Ok (<[i := x]> dst_list)
    end.
Proof.
  unfold merge_item, merge_cell.
  destruct (dst_list !! i) as [old|] eqn:Hi; [|done].
  assert (i < length dst_list) as Hlt by (by eapply lookup_lt_Some).
  destruct (is_mapping old) eqn:Hold.
  - destruct old; try discriminate. rewrite Hi.
    destruct item; simpl; try reflexivity.
    match goal with
    | |- context [bind ?r _] => by destruct r
    end.
  - rewrite list_lookup_insert_eq by done.
    destruct item; destruct old; try discriminate; simpl;
      try reflexivity;
      try (match goal with
           | |- context [bind ?r _] => destruct r; simpl
           end);
      by rewrite ?list_insert_insert_eq.
Qed.
End merge_facts.

(** ** Induction along the recursion of the merge *)

(** [_merge_nested] descends into the values of a map and, below a sequence
    value, into the elements of that sequence. *)
Lemma pyval_merge_ind (Q : pyval → Prop) :
  (∀ s, Q (VStr s)) →
  (∀ c, Q (VScalar c)) →
  (∀ items, (∀ item, In item items → Q item) → Q (VList items)) →
  (∀ kvs,
     (∀ k v, In (k, v) kvs → Q v) →
     (∀ k items item, In (k, VList items) kvs → In item items → Q item) →
     Q (VDict kvs)) →
  ∀ v, Q v.
Proof.
  intros Hstr Hscalar Hlist Hdict v.
  enough (Q v ∧ match v with
                | VList items => ∀ item, In item items → Q item
                | _ => True
                end) as [H _] by exact H.
  induction v as [s|c|items IH|kvs IH] using pyval_nested_ind.
  - auto.
  - auto.
  - rewrite List.Forall_forall in IH.
    assert (∀ item, In item items → Q item) as H by (intros; by apply IH).
    auto.
  - rewrite List.Forall_forall in IH. split; [|done]. apply Hdict.
    + intros k v Hin. by apply (IH _ Hin).
    + intros k items item Hin Hitem.
      destruct (IH _ Hin) as [_ H]. by apply H.
Qed.

(** ** Which exceptions the merge can raise *)

Lemma for_fold_Raise {A S} (body : A → S → result S) (xs : list A) (st : S)
    (e : exn) :
  for_fold body xs st = Raise e → ∃ x st', In x xs ∧ body x st' = Raise e.
Proof.
  revert st. induction xs as [|x xs IH]; simpl; intros st; [discriminate|].
  destruct (body x st) as [st'|e'] eqn:Hx; simpl.
  - intros H. destruct (IH _ H) as (y & st'' & Hy & Hbody). eauto.
  - intros [= ->]. eauto.
Qed.

Section merge_errors.
Context (lang filename : string).

Local Abbreviation merge := (_merge_nested lang filename).
Local Abbreviation items_loop := (merge_items lang filename merge).
Local Abbreviation cell := (merge_cell lang filename).

Lemma merge_item_length key i item dst dst' :
  merge_item lang filename merge key i item dst = Ok dst' →
  length dst' = length dst.
Proof.
  rewrite merge_item_cell. destruct (dst !! i); [|discriminate].
  destruct (cell key i item p); simpl; [|discriminate].
  intros [= <-]. apply length_insert.
Qed.

Lemma merge_items_length key items : ∀ i dst dst',
  items_loop key i items dst = Ok dst' → length dst' = length dst.
Proof.
  induction items as [|item items IH]; simpl; intros i dst dst'.
  - by intros [= ->].
  - intros (d & Hd & Hrest)%bind_Ok.
    rewrite (IH _ _ _ Hrest). by eapply merge_item_length.
Qed.

(** Inside the grown list, a failure of the element loop is the failure of
    one of its cells. *)
Lemma merge_items_Raise key (items : list pyval) : ∀ i dst e,
  (i + length items ≤ length dst)%nat →
  items_loop key i items dst = Raise e →
  ∃ j item old, In item items ∧ cell key j item old = Raise e.
Proof.
  induction items as [|item items IH]; simpl; intros i dst e Hlen;
    [discriminate|].
  rewrite merge_item_cell.
  destruct (dst !! i) as [old|] eqn:Hi.
  - destruct (cell key i item old) as [x|e'] eqn:Hc; simpl.
    + intros H. apply IH in H as (j & it & old' & Hin & Hj).
      * exists j, it, old'. auto.
      * rewrite length_insert. lia.
    + intros [= ->]. exists i, item, old. auto.
  - apply lookup_ge_None in Hi. lia.
Qed.

Lemma length_grow (dst : list pyval) (n : nat) :
  length (grow dst n) = Nat.max (length dst) n.
Proof. unfold grow. rewrite length_app, length_replicate. lia. Qed.

(** Merging a map raises nothing but [InvalidTranslationFile]; anything
    else has no [.items()]. *)
Lemma merge_nested_Raise (incoming : pyval) : ∀ base e,
  merge base incoming = Raise e →
  if is_mapping incoming then declared_error e
  else e = AttributeError (no_items_message incoming).
Proof.
  induction incoming as [s|c|items IH|kvs IH IHitems] using pyval_merge_ind;
    intros base e; try (simpl; congruence).
  rewrite merge_dict. simpl is_mapping.
  intros ([key value] & st & Hin & Hbody)%for_fold_Raise.
  rewrite merge_entry_slot in Hbody.
  destruct (merge_slot lang filename key value (getitem st key))
    as [x|e'] eqn:Hslot; simpl in Hbody; [discriminate|].
  injection Hbody as ->. unfold merge_slot in Hslot.
  destruct value as [s|c|items|kvs'].
  - destruct (default (VDict []) (getitem st key)); try discriminate;
      injection Hslot as <-; by eexists.
  - destruct (default (VDict []) (getitem st key)); try discriminate;
      injection Hslot as <-; by eexists.
  - destruct (default (VList []) (getitem st key)) as [| |dst|];
      try (injection Hslot as <-; by eexists).
    destruct (items_loop key 0 items (grow dst (length items)))
      as [d|e'] eqn:Hloop; simpl in Hslot; [discriminate|].
    injection Hslot as ->.
    apply merge_items_Raise in Hloop as (j & item & old & Hitem & Hcell).
    2:{ rewrite length_grow. lia. }
    unfold merge_cell in Hcell.
    destruct item as [s|c|its|kvs']; try (injection Hcell as <-; by eexists).
    + discriminate.
    + destruct (merge _ (VDict kvs')) as [d|e'] eqn:Hrec; simpl in Hcell;
        [discriminate|]. injection Hcell as ->.
      by apply (IHitems _ _ _ Hin Hitem) in Hrec.
  - destruct (default (VDict []) (getitem st key)) as [| | |sub];
      try (injection Hslot as <-; by eexists).
    destruct (merge sub (VDict kvs')) as [d|e'] eqn:Hrec; simpl in Hslot;
      [discriminate|]. injection Hslot as ->.
    by apply (IH _ _ Hin) in Hrec.
Qed.
End merge_errors.

(** ** Frame: an iteration touches only its own key *)

Lemma for_fold_app {A S} (body : A → S → result S) (xs ys : list A) (st : S) :
  for_fold body (xs ++ ys) st =
    let? st' := for_fold body xs st in for_fold body ys st'.
Proof.
  revert st. induction xs as [|x xs IH]; simpl; intros st; [done|].
  destruct (body x st); simpl; [apply IH | done].
Qed.

Section merge_frame.
Context (lang filename : string).

Local Abbreviation merge := (_merge_nested lang filename).
Local Abbreviation entry := (merge_entry lang filename merge).
Local Abbreviation slot := (merge_slot lang filename).

Lemma merge_entry_Ok key value base base' :
  entry (key, value) base = Ok base' ↔
  ∃ x, slot key value (getitem base key) = Ok x ∧
       base' = setitem base key x.
Proof.
  rewrite merge_entry_slot, bind_Ok. split.
  - intros (x & Hx & [= <-]). eauto.
  - intros (x & Hx & ->). eauto.
Qed.

Lemma for_fold_entry_notin kvs : ∀ base base' k,
  for_fold entry kvs base = Ok base' → ¬ In k (keys kvs) →
  getitem base' k = getitem base k.
Proof.
  induction kvs as [|[key value] kvs IH]; simpl; intros base base' k.
  - by intros [= ->].
  - intros (b & (x & _ & ->)%merge_entry_Ok & Hrest)%bind_Ok Hk.
    rewrite (IH _ _ _ Hrest) by tauto.
    apply getitem_setitem_ne. tauto.
Qed.

(** The accumulator after a successful merge, key by key. *)
Lemma merge_getitem kvs : ∀ base base' k,
  NoDup (keys kvs) → merge base (VDict kvs) = Ok base' →
  match getitem kvs k with
  | None => getitem base' k = getitem base k
  | Some v => ∃ x, slot k v (getitem base k) = Ok x ∧
                   getitem base' k = Some x
  end.
Proof.
  intros base base' k Hnd. rewrite merge_dict. revert base base' k Hnd.
  induction kvs as [|[key value] kvs IH]; simpl; intros base base' k Hnd.
  - by intros [= ->].
  - apply NoDup_cons in Hnd as [Hkey Hnd]. rewrite list_elem_of_In in Hkey.
    intros (b & (x & Hx & ->)%merge_entry_Ok & Hrest)%bind_Ok.
    destruct (decide (key = k)) as [->|Hne].
    + exists x. split; [done|].
      rewrite (for_fold_entry_notin _ _ _ _ Hrest Hkey).
      apply getitem_setitem_eq.
    + specialize (IH _ _ k Hnd Hrest).
      by rewrite getitem_setitem_ne in IH.
Qed.

(** Keys are only ever added, in the order the incoming map lists them. *)
Lemma merge_keys kvs : ∀ base base',
  merge base (VDict kvs) = Ok base' →
  ∀ k, In k (keys base') ↔ In k (keys base) ∨ In k (keys kvs).
Proof.
  intros base base'. rewrite merge_dict. revert base base'.
  induction kvs as [|[key value] kvs IH]; simpl; intros base base'.
  - intros [= ->]. tauto.
  - intros (b & (x & Hx & ->)%merge_entry_Ok & Hrest)%bind_Ok k.
    rewrite (IH _ _ Hrest), keys_setitem.
    destruct (getitem base key) eqn:Hkey.
    + assert (In key (keys base)) by (apply getitem_is_Some; eauto).
      intuition congruence.
    + rewrite in_app_iff. simpl. tauto.
Qed.
End merge_frame.

(** ** Structure mismatch *)

(** C2, as stated, fails: after a file with an object at 'title', a file with
    a string at 'title' merges without error; the string lands in the object
    under the language tag. *)
Lemma C2_counterexample :
  (let? acc := _merge_nested "en" "en.json" [] title_object in
   _merge_nested "ru" "ru.json" acc title_string) =
    Ok [("title", VDict [("main", VDict [("en", VStr "Hello")]);
                         ("ru", VStr "Привет")])] ∧
  (let? acc := _merge_nested "en" "en.json" [] title_object in
   _merge_nested "ru" "ru.json" acc title_string) ≠
    Raise (StructureMismatch "title" "ru.json").
Proof. split; [vm_compute; reflexivity | vm_compute; discriminate]. Qed.

(** C2, amended: when the incoming map has a string at [key] and the keys
    before it merge, the merge fails with the StructureMismatch error naming
    [key] and the file if the accumulator holds a non-map (a sequence) at
    [key]; if it holds a map there, the string is stored in that map under
    the language tag and the iteration raises nothing. *)
Theorem C2_string_over_non_map (lang filename key s : string)
    (pre post base acc : dict) (old : pyval) :
  ¬ In key (keys pre) →
  _merge_nested lang filename base (VDict pre) = Ok acc →
  getitem base key = Some old →
  (is_mapping old = false →
   _merge_nested lang filename base (VDict (pre ++ (key, VStr s) :: post)) =
     Raise (InvalidTranslationFile
              ("Structure mismatch at key '" +:+ key +:+
               "' between languages (file " +:+ filename +:+ ")"))) ∧
  (∀ sub, old = VDict sub →
     _merge_nested lang filename base (VDict (pre ++ [(key, VStr s)])) =
       Ok (setitem acc key (VDict (setitem sub lang (VStr s))))).
Proof.
  intros Hkey Hpre Hold. rewrite !merge_dict in *. rewrite !for_fold_app, Hpre.
  pose proof (for_fold_entry_notin _ _ _ _ _ _ Hpre Hkey) as Hacc.
  rewrite Hold in Hacc. cbn [bind for_fold].
  rewrite !merge_entry_slot, Hacc. split.
  - intros Hmap. by destruct old.
  - by intros sub ->.
Qed.

Lemma C2_string_over_non_map_witness :
  _merge_nested "ru" "ru.json" [("title", VList [VDict [("en", VStr "a")]])]
    (VDict ([] ++ [("title", VStr "Привет")])) =
    Raise (InvalidTranslationFile
             "Structure mismatch at key 'title' between languages (file ru.json)").
Proof.
  refine (proj1 (C2_string_over_non_map "ru" "ru.json" "title" "Привет"
                   [] [] [("title", VList [VDict [("en", VStr "a")]])]
                   [("title", VList [VDict [("en", VStr "a")]])]
                   (VList [VDict [("en", VStr "a")]]) _ _ _) _);
    [simpl; tauto | reflexivity | reflexivity | reflexivity].
Defined.

(** ** Top level *)

(** C10: a bare string or a bare sequence of valid trees passes
    [_validate_tree], and [_merge_nested] then raises [AttributeError] (no
    [.items()]), which is none of the declared error kinds; with a map as
    the incoming tree the merge raises declared errors only. *)
Theorem C10_top_level_must_be_map (lang filename : string) (base : dict)
    (incoming : pyval) :
  doc_tree incoming → is_mapping incoming = false →
  _validate_tree incoming filename = Ok tt ∧
  (type_name incoming = "str" ∨ type_name incoming = "list") ∧
  _merge_nested lang filename base incoming =
    Raise (AttributeError
             ("'" +:+ type_name incoming +:+
              "' object has no attribute 'items'")) ∧
  (∀ msg, ¬ declared_error (AttributeError msg)) ∧
  (∀ kvs e, _merge_nested lang filename base (VDict kvs) = Raise e →
            declared_error e).
Proof.
  intros Htree Hmap. split; [by apply validate_tree_Ok|].
  split; [|split; [|split]].
  - destruct Htree; auto. discriminate.
  - by destruct incoming.
  - intros msg [m [=]].
  - intros kvs e He. by apply merge_nested_Raise in He.
Qed.

Lemma C10_top_level_must_be_map_witness :
  _validate_tree (VList [VStr "a"; VStr "b"]) "en.json" = Ok tt ∧
  _merge_nested "en" "en.json" [] (VList [VStr "a"; VStr "b"]) =
    Raise (AttributeError "'list' object has no attribute 'items'").
Proof.
  assert (doc_tree (VList [VStr "a"; VStr "b"])) as Htree
    by (repeat constructor).
  destruct (C10_top_level_must_be_map "en" "en.json" []
              (VList [VStr "a"; VStr "b"]) Htree eq_refl)
    as (Hv & _ & Hm & _).
  split; [exact Hv | exact Hm].
Defined.

(** ** The element loop, slot by slot *)

Section merge_lists.
Context (lang filename : string).

Local Abbreviation merge := (_merge_nested lang filename).
Local Abbreviation items_loop := (merge_items lang filename merge).
Local Abbreviation slot := (merge_slot lang filename).
Local Abbreviation cell := (merge_cell lang filename).

Lemma merge_items_lookup key (items : list pyval) : ∀ i dst dst',
  items_loop key i items dst = Ok dst' →
  (∀ j, (j < i ∨ i + length items ≤ j)%nat → dst' !! j = dst !! j) ∧
  (∀ j item, items !! j = Some item →
     ∃ old x, dst !! (i + j)%nat = Some old ∧
              cell key (i + j) item old = Ok x ∧
              dst' !! (i + j)%nat = Some x).
Proof.
  induction items as [|item items IH]; simpl; intros i dst dst'.
  - intros [= ->]. split; [done|]. intros j it. by rewrite lookup_nil.
  - rewrite merge_item_cell.
    destruct (dst !! i) as [old|] eqn:Hi; [|discriminate].
    intros (d & (x & Hx & [= <-])%bind_Ok & Hrest)%bind_Ok.
    destruct (IH _ _ _ Hrest) as [Hout Hin]. split.
    + intros j Hj. rewrite Hout by lia.
      apply list_lookup_insert_ne. lia.
    + intros [|j] it Hit; simpl in Hit.
      * injection Hit as <-. rewrite Nat.add_0_r.
        exists old, x. split; [done|]. split; [done|].
        rewrite Hout by lia. apply list_lookup_insert_eq.
        by eapply lookup_lt_Some.
      * destruct (Hin j it Hit) as (old' & x' & Hold' & Hc & Hx').
        replace (i + S j)%nat with (S i + j)%nat by lia.
        exists old', x'. split; [|done].
        rewrite list_lookup_insert_ne in Hold' by lia. done.
Qed.

(** Conversely the loop succeeds as soon as every cell does. *)
Lemma merge_items_Ok key (items : list pyval) : ∀ i dst,
  (i + length items ≤ length dst)%nat →
  (∀ j item old, items !! j = Some item → dst !! (i + j)%nat = Some old →
     ∃ x, cell key (i + j) item old = Ok x) →
  ∃ dst', items_loop key i items dst = Ok dst'.
Proof.
  induction items as [|item items IH]; simpl; intros i dst Hlen Hcells.
  - eauto.
  - rewrite merge_item_cell.
    destruct (lookup_lt_is_Some_2 dst i) as [old Hold]; [lia|].
    rewrite Hold.
    destruct (Hcells 0%nat item old) as [x Hx];
      [done | by rewrite Nat.add_0_r |].
    rewrite Nat.add_0_r in Hx. rewrite Hx. simpl.
    apply IH.
    + rewrite length_insert. lia.
    + intros j it old' Hit Hold'.
      rewrite list_lookup_insert_ne in Hold' by lia.
      replace (S i + j)%nat with (i + S j)%nat in * by lia.
      by apply (Hcells (S j)).
Qed.

Lemma lookup_grow (dst : list pyval) (n j : nat) :
  grow dst n !! j =
    if decide (j < length dst)%nat then dst !! j
    else if decide (j < n)%nat then Some (VDict []) else None.
Proof.
  unfold grow. case_decide.
  - by rewrite lookup_app_l.
  - rewrite lookup_app_r by lia. case_decide.
    + apply lookup_replicate_2. lia.
    + apply lookup_ge_None. rewrite length_replicate. lia.
Qed.

(** A sequence value written over [dst]: the result has the longer length,
    slots beyond the incoming sequence are untouched, and every other slot
    is the cell merge of the incoming element into what was there, an empty
    map where nothing was. *)
Lemma merge_grown_lookup key (items dst dst' : list pyval) :
  items_loop key 0 items (grow dst (length items)) = Ok dst' →
  length dst' = Nat.max (length dst) (length items) ∧
  (∀ j, (length items ≤ j)%nat → dst' !! j = dst !! j) ∧
  (∀ j item, items !! j = Some item →
     ∃ x, cell key j item (default (VDict []) (dst !! j)) = Ok x ∧
          dst' !! j = Some x).
Proof.
  intros Hloop. split; [|split].
  - rewrite (merge_items_length _ _ _ _ _ _ _ Hloop). apply length_grow.
  - intros j Hj.
    rewrite (proj1 (merge_items_lookup _ _ _ _ _ Hloop)) by (simpl; lia).
    rewrite lookup_grow. repeat case_decide; try lia; try done.
    symmetry. apply lookup_ge_None. lia.
  - intros j item Hitem.
    destruct (proj2 (merge_items_lookup _ _ _ _ _ Hloop) j item Hitem)
      as (old & x & Hold & Hx & Hj).
    simpl in *. exists x. split; [|done].
    rewrite lookup_grow in Hold.
    apply lookup_lt_Some in Hitem. repeat case_decide; try lia.
    + by rewrite Hold.
    + injection Hold as <-.
      replace (dst !! j) with (@None pyval); [done|].
      symmetry. apply lookup_ge_None. lia.
Qed.
End merge_lists.

(** ** The shape of the accumulator is preserved *)

Lemma forallb_lookup {A} (f : A → bool) (l : list A) :
  forallb f l = true ↔ ∀ i x, l !! i = Some x → f x = true.
Proof.
  rewrite forallb_forall. split.
  - intros H i x Hi. apply H, list_elem_of_In. by eapply list_elem_of_lookup_2.
  - intros H x [i Hi]%list_elem_of_In%list_elem_of_lookup_1. eauto.
Qed.

Lemma forallb_setitem (f : string * pyval → bool) (d : dict) k x :
  forallb f d = true → f (k, x) = true → forallb f (setitem d k x) = true.
Proof.
  intros Hd Hx. induction d as [|[k' v] d IH]; simpl in *.
  - by rewrite Hx.
  - apply andb_true_iff in Hd as [Hv Hd].
    case_decide; subst; simpl; rewrite ?Hx, ?Hv, ?Hd; auto.
Qed.

Lemma forallb_getitem (f : string * pyval → bool) (d : dict) k x :
  forallb f d = true → getitem d k = Some x → f (k, x) = true.
Proof.
  rewrite forallb_forall. intros H Hk. by apply H, getitem_Some_In.
Qed.

Lemma merged_tree_dict langs kvs :
  merged_tree langs (VDict kvs) = forallb (merged_entry langs) kvs.
Proof. reflexivity. Qed.

Lemma doc_tree_value kvs k v : doc_tree (VDict kvs) → In (k, v) kvs → doc_tree v.
Proof.
  inversion 1 as [| |kvs' H']; subst. rewrite List.Forall_forall in H'.
  intros Hin. by apply (H' _ Hin).
Qed.

Lemma doc_tree_item items item :
  doc_tree (VList items) → In item items → doc_tree item.
Proof.
  inversion 1 as [|items' H'|]; subst. rewrite List.Forall_forall in H'. auto.
Qed.

Section merge_shape.
Context (lang filename : string) (langs : list string).
Hypothesis Hlang : lang ∈ langs.

Local Abbreviation merge := (_merge_nested lang filename).
Local Abbreviation entry := (merge_entry lang filename merge).
Local Abbreviation slot := (merge_slot lang filename).
Local Abbreviation cell := (merge_cell lang filename).

Lemma merged_tree_set_lang leaf s :
  merged_tree langs (VDict leaf) = true →
  merged_tree langs (VDict (setitem leaf lang (VStr s))) = true.
Proof.
  rewrite !merged_tree_dict. intros H. apply forallb_setitem; [done|].
  by apply bool_decide_eq_true.
Qed.

(** One cell keeps the shape, given that the recursive merge does. *)
Lemma merge_cell_shape key i item old x :
  (∀ base base', doc_tree item → merged_tree langs (VDict base) = true →
     merge base item = Ok base' → merged_tree langs (VDict base') = true) →
  doc_tree item →
  is_mapping old && merged_tree langs old = true →
  cell key i item old = Ok x →
  is_mapping x && merged_tree langs x = true.
Proof.
  intros IH Htree [Hmap Hold]%andb_true_iff. unfold merge_cell.
  destruct old as [| | |c]; try discriminate.
  destruct item as [s| |its|kvs]; try discriminate.
  - intros [= <-]. simpl is_mapping. by rewrite merged_tree_set_lang.
  - intros (c' & Hc' & [= <-])%bind_Ok. simpl is_mapping.
    by rewrite (IH _ _ Htree Hold Hc').
Qed.

Lemma merge_list_shape key items dst dst' :
  (∀ item, In item items →
     ∀ base base', doc_tree item → merged_tree langs (VDict base) = true →
     merge base item = Ok base' → merged_tree langs (VDict base') = true) →
  doc_tree (VList items) →
  forallb (λ item, is_mapping item && merged_tree langs item) dst = true →
  merge_items lang filename merge key 0 items (grow dst (length items))
    = Ok dst' →
  forallb (λ item, is_mapping item && merged_tree langs item) dst' = true.
Proof.
  intros IH Htree Hdst (Hlen & Hout & Hin)%merge_grown_lookup.
  rewrite forallb_lookup in *. intros j x Hj.
  destruct (items !! j) as [item|] eqn:Hitem.
  - destruct (Hin _ _ Hitem) as (x' & Hcell & Hx'). simplify_eq.
    assert (In item items) as Hitem'
      by (by eapply list_elem_of_In, list_elem_of_lookup_2).
    eapply merge_cell_shape;
      [by apply IH | by eapply doc_tree_item | | exact Hcell].
    destruct (dst !! j) as [o|] eqn:Ho; simpl; [by eapply Hdst | done].
  - apply lookup_ge_None in Hitem. rewrite Hout in Hj by done. eauto.
Qed.

Lemma merge_slot_shape key value old x :
  (∀ base base', doc_tree value → merged_tree langs (VDict base) = true →
     merge base value = Ok base' → merged_tree langs (VDict base') = true) →
  (∀ item, In item match value with VList items => items | _ => [] end →
     ∀ base base', doc_tree item → merged_tree langs (VDict base) = true →
     merge base item = Ok base' → merged_tree langs (VDict base') = true) →
  doc_tree value →
  (∀ o, old = Some o → merged_entry langs (key, o) = true) →
  slot key value old = Ok x →
  merged_entry langs (key, x) = true.
Proof.
  intros IH IHitems Htree Hold. unfold merge_slot.
  destruct value as [s|c|items|kvs].
  - destruct old as [[| | |leaf]|]; simpl; try discriminate; intros [= <-].
    + apply merged_tree_set_lang. by apply (Hold _ eq_refl).
    + by apply (merged_tree_set_lang []).
  - inversion Htree.
  - destruct old as [[| |dst|]|]; simpl default; try discriminate;
      intros (dst' & Hloop & [= <-])%bind_Ok;
      (eapply merge_list_shape; [done | done | | exact Hloop]);
      [by apply (Hold _ eq_refl) | done].
  - destruct old as [[| | |sub]|]; simpl default; try discriminate;
      intros (sub' & Hsub & [= <-])%bind_Ok;
      (eapply IH; [done | | exact Hsub]);
      [by apply (Hold _ eq_refl) | done].
Qed.

(** [_merge_nested] keeps the accumulator a merged tree. *)
Lemma merge_nested_shape (incoming : pyval) : ∀ base base',
  doc_tree incoming → merged_tree langs (VDict base) = true →
  merge base incoming = Ok base' → merged_tree langs (VDict base') = true.
Proof.
  induction incoming as [s|c|items IH|kvs IH IHitems] using pyval_merge_ind;
    intros base base' Htree; try discriminate.
  rewrite merge_dict. revert base base'.
  induction kvs as [|[key value] kvs IHkvs]; simpl; intros base base' Hbase.
  - by intros [= <-].
  - intros (b & (x & Hx & ->)%merge_entry_Ok & Hrest)%bind_Ok.
    assert (In (key, value) ((key, value) :: kvs)) as Hhead by (by left).
    eapply IHkvs; [..|exact Hrest].
    + intros k v Hin. apply (IH k). by right.
    + intros k its it Hin. apply (IHitems k its). by right.
    + inversion Htree as [| |? H']; subst. apply Forall_cons in H' as [_ H'].
      by constructor.
    + rewrite merged_tree_dict in *. apply forallb_setitem; [done|].
      eapply merge_slot_shape; [by apply (IH key)| |
                               by eapply doc_tree_value| |exact Hx].
      * destruct value; try (intros ? []). intros item Hitem.
        by apply (IHitems key items).
      * intros o Ho. by eapply forallb_getitem.
Qed.
End merge_shape.

Lemma merged_tree_mono langs langs' :
  (∀ k, k ∈ langs → k ∈ langs') →
  ∀ v, merged_tree langs v = true → merged_tree langs' v = true.
Proof.
  intros Hsub v.
  induction v as [s|c|items IH|kvs IH IHitems] using pyval_merge_ind;
    try done.
  rewrite !merged_tree_dict, !forallb_forall. intros H [k v] Hin.
  specialize (H _ Hin). unfold merged_entry in *. simpl in *.
  destruct v as [s|c|items|kvs'].
  - unfold is_lang in *. apply bool_decide_eq_true.
    apply bool_decide_eq_true in H. auto.
  - done.
  - rewrite forallb_forall in *. intros item Hitem.
    specialize (H _ Hitem). apply andb_true_iff in H as [-> H]. simpl.
    by apply (IHitems k items).
  - by apply (IH k).
Qed.

(** ** The shape of the accumulator across a run *)

Lemma merge_file_Ok file payload merged merged' :
  merge_file (file, payload) merged = Ok merged' ↔
  doc_tree payload ∧
  _merge_nested (stem file) (path_str file) merged payload = Ok merged'.
Proof.
  unfold merge_file. rewrite bind_Ok, <- validate_tree_Ok. split.
  - intros ([] & Hv & Hm). eauto.
  - intros [Hv Hm]. by exists tt.
Qed.

Lemma merge_files_shape files : ∀ langs acc0 acc,
  merged_tree langs (VDict acc0) = true →
  for_fold merge_file files acc0 = Ok acc →
  merged_tree (langs ++ run_langs files) (VDict acc) = true.
Proof.
  induction files as [|[file payload] files IH]; simpl; intros langs acc0 acc.
  - intros H [= <-]. by rewrite app_nil_r.
  - intros Hacc0 (acc1 & [Htree Hm]%merge_file_Ok & Hrest)%bind_Ok.
    rewrite cons_middle, (assoc_L (++) langs [stem file] (run_langs files)).
    eapply IH; [|exact Hrest].
    eapply (merge_nested_shape (stem file)); [..|exact Hm]; try done.
    + apply elem_of_app. right. by apply list_elem_of_singleton.
    + eapply merged_tree_mono; [|exact Hacc0].
      intros k Hk. apply elem_of_app. by left.
Qed.

(** In a merged tree every string is reached through a language tag. *)
Lemma merged_tree_strings langs p : ∀ s,
  (∀ v, merged_tree langs v = true → lookup_path v p = Some (VStr s) →
        ∃ q lang, p = q ++ [Key lang] ∧ lang ∈ langs) ∧
  (∀ items,
     forallb (λ item, is_mapping item && merged_tree langs item) items = true →
     lookup_path (VList items) p = Some (VStr s) →
     ∃ q lang, p = q ++ [Key lang] ∧ lang ∈ langs).
Proof.
  induction p as [|st p IH]; intros s; split; simpl.
  - by intros [] ? [= <-].
  - discriminate.
  - intros v Hshape.
    destruct (child v st) as [c|] eqn:Hc; [|discriminate]. intros Hp.
    destruct v as [| | |kvs]; try discriminate.
    destruct st as [k|i]; [|discriminate]. simpl in Hc.
    rewrite merged_tree_dict in Hshape.
    pose proof (forallb_getitem _ _ _ _ Hshape Hc) as Hentry.
    unfold merged_entry in Hentry. simpl in Hentry.
    destruct c as [s'| |items|kvs'].
    + destruct p as [|[] p]; try discriminate.
      exists [], k. split; [done|]. by apply bool_decide_eq_true in Hentry.
    + discriminate.
    + destruct (proj2 (IH s) _ Hentry Hp) as (q & lang & -> & Hlang).
      by exists (Key k :: q), lang.
    + destruct (proj1 (IH s) _ Hentry Hp) as (q & lang & -> & Hlang).
      by exists (Key k :: q), lang.
  - intros items Hitems. destruct st as [k|i]; [discriminate|]. simpl.
    destruct (items !! i) as [item|] eqn:Hi; [|discriminate]. intros Hp.
    rewrite forallb_lookup in Hitems.
    destruct (andb_prop _ _ (Hitems _ _ Hi)) as [_ Hitem].
    destruct (proj1 (IH s) _ Hitem Hp) as (q & lang & -> & Hlang).
    by exists (Index i :: q), lang.
Qed.

(** ** Writes at other places commute with the loops *)

Section merge_commute.
Context (lang filename : string).

Local Abbreviation merge := (_merge_nested lang filename).
Local Abbreviation entry := (merge_entry lang filename merge).
Local Abbreviation items_loop := (merge_items lang filename merge).

Lemma for_fold_entry_frame kvs : ∀ base k x,
  ¬ In k (keys kvs) → is_Some (getitem base k) →
  for_fold entry kvs (setitem base k x) =
    let? b := for_fold entry kvs base in Ok (setitem b k x).
Proof.
  induction kvs as [|[key value] kvs IH]; cbn [for_fold keys map fst];
    intros base k x Hk Hbase; [done|].
  assert (k ≠ key ∧ ¬ In k (keys kvs)) as [Hne Hk'].
  { simpl in Hk. split; [intros ->|]; tauto. }
  rewrite !merge_entry_slot, getitem_setitem_ne by done.
  destruct (merge_slot lang filename key value (getitem base key)) as [y|e];
    simpl; [|done].
  rewrite <- (setitem_comm base k key x y) by done.
  apply IH; [done|].
  rewrite getitem_setitem. case_decide; [by eexists | done].
Qed.

Lemma merge_items_frame key items : ∀ j i dst x,
  (i < j)%nat →
  items_loop key j items (<[i := x]> dst) =
    let? d := items_loop key j items dst in Ok (<[i := x]> d).
Proof.
  induction items as [|item items IH]; cbn [merge_items];
    intros j i dst x Hij; [done|].
  rewrite !merge_item_cell, list_lookup_insert_ne by lia.
  destruct (dst !! j) as [old|]; [|done].
  destruct (merge_cell lang filename key j item old) as [c|e]; simpl; [|done].
  rewrite list_insert_insert_ne by lia. apply IH. lia.
Qed.
End merge_commute.

(** ** A later merge of the same shape replaces an earlier one *)

Lemma unique_keys_value kvs k v :
  unique_keys (VDict kvs) → In (k, v) kvs → unique_keys v.
Proof.
  inversion 1 as [| | |? _ H']; subst. rewrite List.Forall_forall in H'.
  intros Hin. by apply (H' _ Hin).
Qed.

Lemma unique_keys_item items item :
  unique_keys (VList items) → In item items → unique_keys item.
Proof.
  inversion 1 as [| |? H'|]; subst. rewrite List.Forall_forall in H'. auto.
Qed.

Lemma NoDup_by_decide (l : list string) : bool_decide (NoDup l) = true → NoDup l.
Proof. apply bool_decide_eq_true_1. Qed.

(** Distinct keys of a concrete tree, by evaluation. *)
Ltac solve_unique_keys :=
  repeat first
    [ apply uk_dict | apply uk_list | apply uk_str | apply uk_scalar
    | apply List.Forall_cons | apply List.Forall_nil
    | apply NoDup_by_decide; vm_compute; reflexivity ].

Lemma unique_keys_NoDup kvs : unique_keys (VDict kvs) → NoDup (keys kvs).
Proof. by inversion 1. Qed.

Section overwrite.
Context (lang file1 file2 : string).

Local Abbreviation merge1 := (_merge_nested lang file1).
Local Abbreviation merge2 := (_merge_nested lang file2).

Local Abbreviation overwrites := (overwrites lang file1 file2).

Lemma overwrite_cell key i item1 item2 old c1 :
  same_shape item1 item2 → overwrites item1 item2 →
  merge_cell lang file1 key i item1 old = Ok c1 →
  ∃ c2, merge_cell lang file2 key i item2 old = Ok c2 ∧
        merge_cell lang file2 key i item2 c1 = Ok c2.
Proof.
  intros Hshape IH. unfold merge_cell.
  destruct Hshape as [s s'|items items' _|kvs kvs' _]; [|discriminate|].
  - intros [= <-]. eexists. split; [done|]. by rewrite setitem_setitem.
  - intros (c & Hc & [= <-])%bind_Ok.
    destruct (IH _ _ Hc) as (c2 & H2 & H2').
    exists (VDict c2). by rewrite H2, H2'.
Qed.

Lemma overwrite_items key items1 items2 :
  Forall2 (λ item1 item2, same_shape item1 item2 ∧ overwrites item1 item2)
    items1 items2 →
  ∀ i dst dst1,
    merge_items lang file1 merge1 key i items1 dst = Ok dst1 →
    ∃ dst2, merge_items lang file2 merge2 key i items2 dst = Ok dst2 ∧
            merge_items lang file2 merge2 key i items2 dst1 = Ok dst2.
Proof.
  induction 1 as [|a1 a2 r1 r2 [Hshape Hover] _ IH]; cbn [merge_items];
    intros i dst dst1.
  - intros [= <-]. eauto.
  - rewrite !merge_item_cell.
    destruct (dst !! i) as [old|] eqn:Hi; [|discriminate].
    assert (i < length dst)%nat as Hlt by (by eapply lookup_lt_Some).
    intros (d & (c1 & Hc1 & [= <-])%bind_Ok & Hrest)%bind_Ok.
    rewrite merge_items_frame in Hrest by lia.
    apply bind_Ok in Hrest as (d1 & Hd1 & [= <-]).
    destruct (IH _ _ _ Hd1) as (d2 & Hd2 & Hd2').
    destruct (overwrite_cell key i _ _ _ _ Hshape Hover Hc1)
      as (c2 & Hc2 & Hc2').
    exists (<[i := c2]> d2).
    rewrite Hc2. simpl. rewrite merge_items_frame, Hd2 by lia.
    split; [done|].
    rewrite list_lookup_insert_eq
      by (by rewrite (merge_items_length _ _ _ _ _ _ _ Hd1)).
    rewrite Hc2'. simpl.
    by rewrite list_insert_insert_eq, merge_items_frame, Hd2' by lia.
Qed.

Lemma grow_id (dst : list pyval) (n : nat) :
  (n ≤ length dst)%nat → grow dst n = dst.
Proof.
  intros Hn. unfold grow. replace (n - length dst)%nat with 0%nat by lia.
  apply app_nil_r.
Qed.

Lemma overwrite_slot key v1 v2 old x1 :
  same_shape v1 v2 → overwrites v1 v2 →
  (∀ items1 items2, v1 = VList items1 → v2 = VList items2 →
     Forall2 (λ item1 item2, same_shape item1 item2 ∧ overwrites item1 item2)
       items1 items2) →
  merge_slot lang file1 key v1 old = Ok x1 →
  ∃ x2, merge_slot lang file2 key v2 old = Ok x2 ∧
        merge_slot lang file2 key v2 (Some x1) = Ok x2.
Proof.
  intros Hshape IH IHitems. unfold merge_slot.
  destruct Hshape as [s s'|items items' Hitems|kvs kvs' _].
  - destruct (default (VDict []) old) as [| | |leaf]; try discriminate.
    intros [= <-]. eexists. split; [done|]. simpl.
    by rewrite setitem_setitem.
  - destruct (default (VList []) old) as [| |dst|]; try discriminate.
    intros (dst1 & Hdst1 & [= <-])%bind_Ok. simpl default.
    rewrite <- (Forall2_length _ _ _ Hitems).
    rewrite (Forall2_length _ _ _ Hitems) in Hdst1.
    destruct (overwrite_items key _ _ (IHitems _ _ eq_refl eq_refl) _ _ _ Hdst1)
      as (dst2 & Hdst2 & Hdst2').
    exists (VList dst2).
    rewrite <- (Forall2_length _ _ _ Hitems) in *. rewrite Hdst2.
    split; [done|].
    rewrite grow_id, Hdst2'; [done|].
    rewrite (merge_items_length _ _ _ _ _ _ _ Hdst1), length_grow. lia.
  - destruct (default (VDict []) old) as [| | |sub]; try discriminate.
    intros (sub1 & Hsub1 & [= <-])%bind_Ok. simpl default.
    destruct (IH _ _ Hsub1) as (sub2 & H2 & H2').
    exists (VDict sub2). by rewrite H2, H2'.
Qed.

Lemma overwrite_entries kvs1 kvs2 :
  Forall2 (λ kv1 kv2 : string * pyval,
             fst kv1 = fst kv2 ∧
             ∀ old x1,
               merge_slot lang file1 (fst kv1) (snd kv1) old = Ok x1 →
               ∃ x2, merge_slot lang file2 (fst kv2) (snd kv2) old = Ok x2 ∧
                     merge_slot lang file2 (fst kv2) (snd kv2) (Some x1)
                       = Ok x2) kvs1 kvs2 →
  NoDup (keys kvs1) →
  ∀ base acc1,
    for_fold (merge_entry lang file1 merge1) kvs1 base = Ok acc1 →
    ∃ acc2, for_fold (merge_entry lang file2 merge2) kvs2 base = Ok acc2 ∧
            for_fold (merge_entry lang file2 merge2) kvs2 acc1 = Ok acc2.
Proof.
  induction 1 as [|[k v1] [k' v2] r1 r2 [Hk Hslot] Hrest IH];
    cbn [for_fold keys map fst]; intros Hnd base acc1.
  - intros [= <-]. eauto.
  - simpl in Hk, Hslot. subst k'.
    apply NoDup_cons in Hnd as [Hk1 Hnd]. rewrite list_elem_of_In in Hk1.
    assert (keys r1 = keys r2) as Hkeys.
    { clear -Hrest. induction Hrest as [|[] [] ? ? [H _]]; simpl in *;
        [done | by f_equal]. }
    intros (b1 & (x1 & Hx1 & ->)%merge_entry_Ok & Hfold)%bind_Ok.
    destruct (Hslot _ _ Hx1) as (x2 & Hx2 & Hx2').
    destruct (IH Hnd _ _ Hfold) as (accz & Hz & Hz').
    pose proof (for_fold_entry_notin _ _ _ _ _ _ Hfold Hk1) as Hacc1.
    rewrite getitem_setitem_eq in Hacc1.
    exists (setitem accz k x2).
    rewrite !merge_entry_slot, Hx2, Hacc1, Hx2'. cbn [bind].
    rewrite <- (setitem_setitem base k x1 x2).
    split.
    + rewrite (for_fold_entry_frame lang file2 r2 (setitem base k x1) k x2),
        Hz; [done | by rewrite <- Hkeys | by rewrite getitem_setitem_eq].
    + rewrite (for_fold_entry_frame lang file2 r2 acc1 k x2), Hz';
        [done | by rewrite <- Hkeys | by rewrite Hacc1].
Qed.

Lemma Forall2_In_impl {A B} (P Q : A → B → Prop) (l : list A) (k : list B) :
  Forall2 P l k → (∀ x y, In x l → P x y → Q x y) → Forall2 Q l k.
Proof.
  induction 1 as [|x y l k Hxy _ IH]; intros HPQ; constructor.
  - apply HPQ; [by left | done].
  - apply IH. intros x' y' Hin. apply HPQ. by right.
Qed.

(** A later tree of the same shape, merged under the same language tag,
    replaces the contribution of the earlier one. *)
Lemma overwrite_nested (t1 : pyval) : ∀ t2,
  same_shape t1 t2 → unique_keys t1 → overwrites t1 t2.
Proof.
  induction t1 as [s|c|items IH|kvs IH IHitems] using pyval_merge_ind;
    intros t2 Hshape Huniq base acc1; try discriminate.
  inversion Hshape as [| |? kvs2 Hkvs]; subst. rewrite !merge_dict.
  apply overwrite_entries; [|by apply unique_keys_NoDup].
  eapply Forall2_In_impl; [exact Hkvs|].
  intros [k v1] [k' v2] Hin [Hk Hv]. simpl in *. subst k'. split; [done|].
  intros old x1. apply overwrite_slot; [done | |].
  - apply (IH k); [done | done | by eapply unique_keys_value].
  - intros items1 items2 -> ->. inversion Hv as [|? ? Hitems|]; subst.
    eapply Forall2_In_impl; [exact Hitems|].
    intros item1 item2 Hitem Hs. split; [done|].
    apply (IHitems k items1); [done | done | done |].
    eapply unique_keys_item; [|exact Hitem]. by eapply unique_keys_value.
Qed.
End overwrite.

Lemma same_shape_refl (t : pyval) : doc_tree t → same_shape t t.
Proof.
  induction t as [s|c|items IH|kvs IH] using pyval_nested_ind;
    inversion 1 as [|? Hitems|? Hkvs]; subst; constructor.
  - induction items as [|item items IHl]; constructor.
    + apply Forall_cons in IH as [IH _]. apply Forall_cons in Hitems as [? _].
      auto.
    + apply Forall_cons in IH as [_ IH]. apply Forall_cons in Hitems as [_ ?].
      apply IHl; auto. by constructor.
  - induction kvs as [|kv kvs IHl]; constructor.
    + apply Forall_cons in IH as [IH _]. apply Forall_cons in Hkvs as [? _].
      auto.
    + apply Forall_cons in IH as [_ IH]. apply Forall_cons in Hkvs as [_ ?].
      apply IHl; auto. by constructor.
Qed.

(** Merging a file a second time, under the same tag, changes nothing,
    whatever the accumulator was. *)
Lemma merge_nested_idempotent lang file (t : pyval) (base acc : dict) :
  doc_tree t → unique_keys t →
  _merge_nested lang file base t = Ok acc →
  _merge_nested lang file acc t = Ok acc.
Proof.
  intros Htree Huniq Hm.
  destruct (overwrite_nested lang file file t t (same_shape_refl t Htree)
              Huniq base acc Hm) as (acc2 & H2 & H2').
  congruence.
Qed.

(** ** One file merged into the empty accumulator *)

Lemma setitem_absent (d : dict) k x :
  getitem d k = None → setitem d k x = d ++ [(k, x)].
Proof.
  induction d as [|[k' v] d IH]; simpl; [done|].
  case_decide; [discriminate|]. intros Hd. by rewrite IH.
Qed.

Lemma getitem_app (d1 d2 : dict) k :
  getitem (d1 ++ d2) k =
    match getitem d1 k with Some x => Some x | None => getitem d2 k end.
Proof.
  induction d1 as [|[k' v] d1 IH]; simpl; [done|]. by case_decide.
Qed.

Section merge_alone.
Context (lang filename : string).

Local Abbreviation merge := (_merge_nested lang filename).
Local Abbreviation entry := (merge_entry lang filename merge).
Local Abbreviation items_loop := (merge_items lang filename merge).
Local Abbreviation slot := (merge_slot lang filename).
Local Abbreviation cell := (merge_cell lang filename).

Lemma merge_fresh_entries kvs : ∀ base,
  NoDup (keys kvs) →
  (∀ k, In k (keys kvs) → getitem base k = None) →
  (∀ k v, In (k, v) kvs → slot k v None = Ok (lift lang v)) →
  for_fold entry kvs base =
    Ok (base ++ map (λ kv : string * pyval, (fst kv, lift lang (snd kv))) kvs).
Proof.
  induction kvs as [|[key value] kvs IH]; cbn [for_fold map keys fst snd];
    intros base Hnd Hfresh Hslot.
  - by rewrite app_nil_r.
  - apply NoDup_cons in Hnd as [Hkey Hnd]. rewrite list_elem_of_In in Hkey.
    rewrite merge_entry_slot, (Hfresh key) by (by left).
    rewrite (Hslot key value) by (by left). cbn [bind].
    rewrite setitem_absent by (apply Hfresh; by left).
    rewrite IH; [by rewrite <- app_assoc | done | |].
    + intros k Hk. rewrite getitem_app, (Hfresh k) by (by right). simpl.
      case_decide; [by subst|done].
    + intros k v Hin. apply Hslot. by right.
Qed.

Lemma merge_fresh_items key items : ∀ pre,
  (∀ item i, In item items → cell key i item (VDict []) = Ok (lift lang item)) →
  items_loop key (length pre) items
    (pre ++ replicate (length items) (VDict [])) =
    Ok (pre ++ map (lift lang) items).
Proof.
  induction items as [|item items IH]; cbn [merge_items map length replicate];
    intros pre Hcell.
  - done.
  - rewrite merge_item_cell, list_lookup_middle by done.
    rewrite Hcell by (by left). cbn [bind].
    rewrite insert_app_r_alt, Nat.sub_diag by done. cbn [insert list_insert].
    rewrite cons_middle, (assoc_L (++) pre).
    replace (S (length pre)) with (length (pre ++ [lift lang item]))
      by (rewrite length_app; simpl; lia).
    rewrite IH; [by rewrite <- app_assoc|].
    intros it i Hit. apply Hcell. by right.
Qed.

(** A mergeable tree merged into the empty accumulator gives its image
    under [lift]. *)
Lemma merge_alone (t : pyval) :
  mergeable t = true → unique_keys t →
  ∃ acc, lift lang t = VDict acc ∧ merge [] t = Ok acc.
Proof.
  induction t as [s|c|items IH|kvs IH IHitems] using pyval_merge_ind;
    try discriminate.
  intros Hm Huniq. eexists. split; [reflexivity|].
  rewrite merge_dict.
  rewrite (merge_fresh_entries kvs []); [done | by apply unique_keys_NoDup |
                                         done |].
  intros k v Hin. simpl in Hm. rewrite forallb_forall in Hm.
  specialize (Hm _ Hin); simpl in Hm.
  pose proof (unique_keys_value _ _ _ Huniq Hin) as Hv.
  destruct v as [s|c|items|kvs']; try done.
  - assert (items_loop k 0 items (grow [] (length items)) =
              Ok (map (lift lang) items)) as Hloop.
    { unfold grow. cbn [length app]. rewrite Nat.sub_0_r.
      apply (merge_fresh_items k items []).
      intros item i Hitem. rewrite forallb_forall in Hm.
      specialize (Hm _ Hitem).
      destruct item as [s|c|its|kvs']; try done.
      destruct (IHitems _ _ _ Hin Hitem Hm) as (acc & Hacc & Hmerge).
      { by eapply unique_keys_item. }
      unfold merge_cell. rewrite Hmerge. cbn [bind]. by rewrite Hacc. }
    unfold merge_slot. cbn -[grow merge_items lift]. by rewrite Hloop.
  - destruct (IH _ _ Hin Hm Hv) as (acc & Hacc & Hmerge).
    unfold merge_slot. cbn -[_merge_nested lift]. rewrite Hmerge. cbn [bind].
    by rewrite Hacc.
Qed.
End merge_alone.

Lemma single_lang_lift lang (t : pyval) :
  mergeable t = true → doc_tree t → single_lang lang (lift lang t) = true.
Proof.
  induction t as [s|c|items IH|kvs IH IHitems] using pyval_merge_ind;
    try discriminate.
  intros Hm Htree.
  assert (forallb (λ kv : string * pyval,
                     match snd kv with
                     | VDict _ => single_lang lang (snd kv)
                     | VList items =>
                         forallb (λ item,
                                    is_mapping item && single_lang lang item)
                           items
                     | _ => false
                     end)
            (map (λ kv : string * pyval, (fst kv, lift lang (snd kv))) kvs)
          = true) as Hall.
  { rewrite forallb_forall. intros [k x] ([k' v] & [= -> <-] & Hin)%in_map_iff.
    simpl in Hm. rewrite forallb_forall in Hm. specialize (Hm _ Hin).
    pose proof (doc_tree_value _ _ _ Htree Hin) as Hv. simpl in *.
    destruct v as [s|c|items|kvs'].
    - simpl. by rewrite bool_decide_eq_true_2.
    - inversion Hv.
    - cbn [lift]. rewrite forallb_forall in *.
      intros y (item & <- & Hitem)%in_map_iff. specialize (Hm _ Hitem).
      pose proof (doc_tree_item _ _ Hv Hitem) as Hit.
      destruct item as [s|c|its|kvs']; try done.
      + simpl. by rewrite bool_decide_eq_true_2.
      + by rewrite (IHitems _ _ _ Hin Hitem Hm Hit).
    - change (single_lang lang (lift lang (VDict kvs')) = true).
      by apply (IH k). }
  cbn [lift]. revert Hall.
  generalize (map (λ kv : string * pyval, (fst kv, lift lang (snd kv))) kvs).
  intros [|[k v] [|kv l]]; try done; destruct v; simpl; done.
Qed.

(** ** Sequence growth *)

Section sequence_growth.
Context (lang filename : string).

Local Abbreviation merge := (_merge_nested lang filename).
Local Abbreviation items_loop := (merge_items lang filename merge).
Local Abbreviation slot := (merge_slot lang filename).
Local Abbreviation cell := (merge_cell lang filename).

Lemma merge_slot_list key items old x :
  slot key (VList items) old = Ok x →
  ∃ dst dst', default (VList []) old = VList dst ∧ x = VList dst' ∧
              items_loop key 0 items (grow dst (length items)) = Ok dst'.
Proof.
  unfold merge_slot.
  destruct (default (VList []) old) as [| |dst|]; try discriminate.
  intros (dst' & Hloop & [= <-])%bind_Ok. eauto.
Qed.

Lemma merge_one_key key items base base' :
  merge base (one_key key items) = Ok base' →
  ∃ dst dst', default (VList []) (getitem base key) = VList dst ∧
              base' = setitem base key (VList dst') ∧
              items_loop key 0 items (grow dst (length items)) = Ok dst'.
Proof.
  unfold one_key. rewrite merge_dict. cbn [for_fold].
  intros (b & (x & Hx & ->)%merge_entry_Ok & [= <-])%bind_Ok.
  apply merge_slot_list in Hx as (dst & dst' & Hdst & -> & Hloop). eauto.
Qed.

Lemma merge_cell_empty key i item c :
  cell key i item (VDict []) = Ok c → only_from lang filename item c.
Proof.
  unfold merge_cell, only_from. destruct item as [s|sc|its|kvs];
    try discriminate.
  - by intros [= <-].
  - intros (d & Hd & [= <-])%bind_Ok. eauto.
Qed.

(** A sequence of strings merges over an absent key and over a sequence. *)
Lemma merge_strings_Ok key items base dst :
  Forall (λ item, is_str item = true) items →
  default (VList []) (getitem base key) = VList dst →
  ∃ dst', merge base (one_key key items) = Ok (setitem base key (VList dst')).
Proof.
  intros Hstr Hdst.
  destruct (merge_items_Ok lang filename key items 0
              (grow dst (length items))) as [dst' Hloop].
  - rewrite length_grow. lia.
  - intros j item old Hitem _.
    rewrite Forall_lookup in Hstr. specialize (Hstr _ _ Hitem).
    destruct item; try discriminate. unfold merge_cell. eauto.
  - exists dst'. unfold one_key. rewrite merge_dict. cbn [for_fold].
    rewrite merge_entry_slot. unfold merge_slot. rewrite Hdst, Hloop. done.
Qed.
End sequence_growth.

Lemma merge_two_Ok a fa b fb ta tb merged :
  merge_two a fa b fb ta tb = Ok merged ↔
  ∃ acc, _merge_nested a fa [] ta = Ok acc ∧
         _merge_nested b fb acc tb = Ok merged.
Proof. unfold merge_two. apply bind_Ok. Qed.

(** C4: two languages contribute sequences at the same key, [a] the shorter
    (length 2 in the claim) and [b] the longer (length 5). In whichever order
    the two files are merged, the merged sequence has the length of the longer
    one, and every slot from the length of the shorter one on holds the
    contribution of [b] alone. With sequences of strings both orders do
    merge. *)
Theorem C4_sequence_growth (key a fa b fb : string) (xs ys : list pyval) :
  (length xs ≤ length ys)%nat →
  (∀ merged,
     merge_two a fa b fb (one_key key xs) (one_key key ys) = Ok merged ∨
     merge_two b fb a fa (one_key key ys) (one_key key xs) = Ok merged →
     ∃ slots,
       merged = [(key, VList slots)] ∧
       length slots = Nat.max (length xs) (length ys) ∧
       length slots = length ys ∧
       ∀ i item, (length xs ≤ i)%nat → ys !! i = Some item →
         ∃ slot, slots !! i = Some slot ∧ only_from b fb item slot) ∧
  (Forall (λ item, is_str item = true) xs →
   Forall (λ item, is_str item = true) ys →
   (∃ merged,
      merge_two a fa b fb (one_key key xs) (one_key key ys) = Ok merged) ∧
   (∃ merged,
      merge_two b fb a fa (one_key key ys) (one_key key xs) = Ok merged)).
Proof.
  intros Hlen. split.
  - intros merged [Hab|Hba].
    + apply merge_two_Ok in Hab as (acc & Ha & Hb).
      apply merge_one_key in Ha as (d0 & da & [= <-] & -> & Hla).
      apply merge_one_key in Hb as (d1 & slots & Hd1 & -> & Hlb).
      simpl in Hd1. rewrite decide_True in Hd1 by done. simpl in Hd1.
      injection Hd1 as <-.
      apply merge_grown_lookup in Hla as (Hlena & _ & _).
      apply merge_grown_lookup in Hlb as (Hlenb & _ & Hin).
      simpl in Hlena. exists slots. simpl. rewrite decide_True by done.
      split; [done|]. split; [lia|]. split; [lia|].
      intros i item Hi Hitem. destruct (Hin _ _ Hitem) as (c & Hc & Hslot).
      exists c. split; [done|].
      rewrite (lookup_ge_None_2 da i) in Hc by lia.
      by apply merge_cell_empty in Hc.
    + apply merge_two_Ok in Hba as (acc & Hb & Ha).
      apply merge_one_key in Hb as (d0 & db & [= <-] & -> & Hlb).
      apply merge_one_key in Ha as (d1 & slots & Hd1 & -> & Hla).
      simpl in Hd1. rewrite decide_True in Hd1 by done. simpl in Hd1.
      injection Hd1 as <-.
      apply merge_grown_lookup in Hlb as (Hlenb & _ & Hin).
      apply merge_grown_lookup in Hla as (Hlena & Hout & _).
      simpl in Hlenb. exists slots. simpl. rewrite decide_True by done.
      split; [done|]. split; [lia|]. split; [lia|].
      intros i item Hi Hitem. destruct (Hin _ _ Hitem) as (c & Hc & Hslot).
      exists c. rewrite Hout by done. split; [done|].
      rewrite lookup_nil in Hc. by apply merge_cell_empty in Hc.
  - intros Hxs Hys. split.
    + destruct (merge_strings_Ok a fa key xs [] [] Hxs eq_refl) as [da Ha].
      destruct (merge_strings_Ok b fb key ys (setitem [] key (VList da)) da
                  Hys) as [dab Hab].
      { by rewrite getitem_setitem_eq. }
      eexists. apply merge_two_Ok. eauto.
    + destruct (merge_strings_Ok b fb key ys [] [] Hys eq_refl) as [db Hb].
      destruct (merge_strings_Ok a fa key xs (setitem [] key (VList db)) db
                  Hxs) as [dba Hba].
      { by rewrite getitem_setitem_eq. }
      eexists. apply merge_two_Ok. eauto.
Qed.

Lemma C4_sequence_growth_witness :
  ∃ slots,
    merge_two "en" "en.json" "ru" "ru.json"
      (one_key "k" two_strings) (one_key "k" five_strings)
      = Ok [("k", VList slots)] ∧
    length slots = 5%nat ∧
    slots !! 2%nat = Some (VDict [("ru", VStr "b3")]) ∧
    slots !! 3%nat = Some (VDict [("ru", VStr "b4")]) ∧
    slots !! 4%nat = Some (VDict [("ru", VStr "b5")]).
Proof.
  assert (length two_strings ≤ length five_strings)%nat as Hlen
    by (simpl; lia).
  destruct (C4_sequence_growth "k" "en" "en.json" "ru" "ru.json"
              two_strings five_strings Hlen) as [Hshape _].
  destruct (Hshape _ (or_introl eq_refl))
    as (slots & Hmerged & _ & Hlength & Hslots).
  exists slots. split; [by rewrite <- Hmerged|]. split; [exact Hlength|].
  destruct (Hslots 2%nat (VStr "b3") ltac:(simpl; lia) eq_refl)
    as (s2 & -> & ->).
  destruct (Hslots 3%nat (VStr "b4") ltac:(simpl; lia) eq_refl)
    as (s3 & -> & ->).
  destruct (Hslots 4%nat (VStr "b5") ltac:(simpl; lia) eq_refl)
    as (s4 & -> & ->).
  done.
Defined.

(** ** Idempotence of re-merge *)

Lemma for_fold_Ok_each {A S} (body : A → S → result S) (xs : list A) :
  ∀ st st', for_fold body xs st = Ok st' →
  ∀ x, In x xs → ∃ s s', body x s = Ok s'.
Proof.
  induction xs as [|y xs IH]; simpl; intros st st' Hfold x; [done|].
  apply bind_Ok in Hfold as (s1 & Hy & Hrest).
  intros [->|Hin]; [eauto | by eapply IH].
Qed.

(** Only mergeable trees merge, into whatever accumulator. *)
Lemma merge_Ok_mergeable lang filename (t : pyval) : ∀ base acc,
  _merge_nested lang filename base t = Ok acc → mergeable t = true.
Proof.
  induction t as [s|c|items IH|kvs IH IHitems] using pyval_merge_ind;
    intros base acc; try discriminate.
  rewrite merge_dict. intros Hfold. simpl. rewrite forallb_forall.
  intros [k v] Hin.
  destruct (for_fold_Ok_each _ _ _ _ Hfold _ Hin) as (b & b' & Hentry).
  apply merge_entry_Ok in Hentry as (x & Hx & _). simpl.
  destruct v as [s|c|items|kvs']; try done.
  - apply merge_slot_list in Hx as (dst & dst' & _ & _ & Hloop).
    apply merge_items_lookup in Hloop as [_ Hcells].
    rewrite forallb_lookup. intros j item Hitem.
    destruct (Hcells _ _ Hitem) as (old & c & _ & Hcell & _).
    unfold merge_cell in Hcell.
    destruct item as [s|c'|its|kvs']; try done.
    apply bind_Ok in Hcell as (d & Hd & _).
    eapply (IHitems k items); [done| |exact Hd].
    by eapply list_elem_of_In, list_elem_of_lookup_2.
  - unfold merge_slot in Hx.
    destruct (default (VDict []) (getitem b k)) as [| | |sub];
      try discriminate.
    apply bind_Ok in Hx as (d & Hd & _). by eapply (IH k).
Qed.

(** C8, as stated, fails: a sequence inside a sequence passes validation, but
    merging it raises, so no merged tree results. *)
Lemma C8_counterexample :
  _validate_tree nested_list "en.json" = Ok tt ∧
  ¬ ∃ once, _merge_nested "en" "en.json" [] nested_list = Ok once.
Proof.
  split; [reflexivity|]. intros [once Honce]. vm_compute in Honce.
  discriminate.
Qed.

(** C8, amended: take a validated single-language tree (its maps having
    distinct keys, as any Python dict has). Merging it into a fresh
    accumulator succeeds exactly if the merge accepts its shape (a map at top
    level, sequences holding strings and maps only); when it does, merging
    the tree again under the same tag changes nothing, and in the result
    every leaf map has exactly the one entry [{lang: s}]: it is the tree
    with every string replaced by that map. *)
Theorem C8_remerge_idempotent (lang filename : string) (t : pyval) :
  doc_tree t → unique_keys t →
  ((∃ once, _merge_nested lang filename [] t = Ok once) ↔
   mergeable t = true) ∧
  (∀ once,
     _merge_nested lang filename [] t = Ok once →
     _merge_nested lang filename once t = Ok once ∧
     single_lang lang (VDict once) = true ∧
     VDict once = lift lang t).
Proof.
  intros Htree Huniq. split.
  - split.
    + intros [once Honce]. by eapply merge_Ok_mergeable.
    + intros Hm.
      destruct (merge_alone lang filename t Hm Huniq) as (once & _ & Honce).
      eauto.
  - intros once Honce.
    pose proof (merge_Ok_mergeable _ _ _ _ _ Honce) as Hm.
    destruct (merge_alone lang filename t Hm Huniq) as (once' & Hlift & Honce').
    assert (once' = once) as -> by congruence.
    split; [|split].
    + by apply (merge_nested_idempotent lang filename t []).
    + rewrite <- Hlift. by apply single_lang_lift.
    + done.
Qed.

Lemma C8_remerge_idempotent_witness :
  _merge_nested "en" "en.json"
    [("greet", VDict [("en", VStr "Hi")]);
     ("items", VList [VDict [("en", VStr "a")]; VDict [("en", VStr "b")]])]
    en_json
  = Ok [("greet", VDict [("en", VStr "Hi")]);
        ("items", VList [VDict [("en", VStr "a")]; VDict [("en", VStr "b")]])].
Proof.
  assert (doc_tree en_json) as Htree by (repeat constructor).
  assert (unique_keys en_json) as Huniq by solve_unique_keys.
  destruct (C8_remerge_idempotent "en" "en.json" en_json Htree Huniq)
    as [_ Hremerge].
  exact (proj1 (Hremerge _ eq_refl)).
Defined.

(** ** One slot, one step down *)

Lemma doc_tree_child v st c : doc_tree v → child v st = Some c → doc_tree c.
Proof.
  intros Hv. destruct st as [k|i], v as [| |items|kvs]; simpl; try discriminate.
  - intros Hc%getitem_Some_In. by eapply doc_tree_value.
  - intros Hc%list_elem_of_lookup_2%list_elem_of_In. by eapply doc_tree_item.
Qed.

Lemma unique_keys_child v st c :
  unique_keys v → child v st = Some c → unique_keys c.
Proof.
  intros Hv. destruct st as [k|i], v as [| |items|kvs]; simpl; try discriminate.
  - intros Hc%getitem_Some_In. by eapply unique_keys_value.
  - intros Hc%list_elem_of_lookup_2%list_elem_of_In.
    by eapply unique_keys_item.
Qed.

Lemma slots_are_maps_child v st c :
  slots_are_maps v = true → child v st = Some c →
  slots_are_maps c = true ∧ (is_list v = true → is_mapping c = true).
Proof.
  destruct st as [k|i], v as [| |items|kvs]; simpl; try discriminate.
  - intros Hv Hc. split; [|discriminate].
    by apply (forallb_getitem _ _ _ _ Hv Hc).
  - rewrite forallb_lookup. intros Hv Hc.
    specialize (Hv _ _ Hc). apply andb_true_iff in Hv as [? ?]. auto.
Qed.

Lemma merged_tree_slots langs v :
  merged_tree langs v = true → slots_are_maps v = true.
Proof.
  induction v as [s|c|items IH|kvs IH IHitems] using pyval_merge_ind;
    try done.
  rewrite merged_tree_dict. simpl. rewrite !forallb_forall.
  intros H [k v] Hin. specialize (H _ Hin). unfold merged_entry in H.
  simpl in *. destruct v as [s|c|items|kvs']; try done.
  - simpl. rewrite forallb_forall in *. intros item Hitem.
    specialize (H _ Hitem). apply andb_true_iff in H as [-> H]. simpl.
    by apply (IHitems k items).
  - by apply (IH k).
Qed.

Section slot_steps.
Context (lang filename : string).

Local Abbreviation merge := (_merge_nested lang filename).
Local Abbreviation slot := (merge_slot lang filename).
Local Abbreviation cell := (merge_cell lang filename).

(** Over a map, or over nothing, the cell merge is the slot merge. *)
Lemma merge_cell_slot key i item old c :
  match old with Some o => is_mapping o = true | None => True end →
  cell key i item (default (VDict []) old) = Ok c →
  slot key item old = Ok c.
Proof.
  unfold merge_cell, merge_slot.
  destruct old as [[| | |c0]|]; try discriminate; intros _;
    destruct item; try discriminate; done.
Qed.

(** The kinds of what a slot held and holds, and the keys of a map slot. *)
Lemma merge_slot_top key v old x :
  doc_tree v → slot key v old = Ok x →
  (∀ o, old = Some o →
        is_mapping o = is_mapping x ∧ is_list o = is_list x ∧
        is_str o = false) ∧
  is_list x = is_list v ∧ is_mapping x = negb (is_list v) ∧
  (∀ D, x = VDict D →
        ∀ k, In k (keys D) ↔
             In k (keys_of old) ∨
             In k match v with
                  | VDict kvs => keys kvs
                  | VStr _ => [lang]
                  | _ => []
                  end).
Proof.
  intros Hv. unfold merge_slot.
  destruct Hv as [s|items _|kvs _].
  - destruct old as [[| | |leaf]|]; simpl; try discriminate;
      intros [= <-]; (split; [by intros o [= <-]|]);
      (split; [done|]); (split; [done|]); intros D [= <-] k.
    + rewrite keys_setitem. destruct (getitem leaf lang) eqn:Hl.
      * assert (In lang (keys leaf)) by (apply getitem_is_Some; eauto).
        simpl. intuition congruence.
      * rewrite in_app_iff. simpl. tauto.
    + simpl. tauto.
  - destruct old as [[| |dst|]|]; simpl default; try discriminate;
      intros (dst' & _ & [= <-])%bind_Ok;
      (split; [by intros o [= <-]|]); by repeat split.
  - destruct old as [[| | |sub]|]; simpl default; try discriminate;
      intros (sub' & Hsub & [= <-])%bind_Ok;
      (split; [by intros o [= <-]|]);
      (split; [done|]); (split; [done|]); intros D [= <-] k;
      by rewrite (merge_keys _ _ _ _ _ Hsub).
Qed.

(** One step below a written slot. *)
Lemma merge_slot_child key v old x st :
  doc_tree v → unique_keys v →
  match old with Some o => slots_are_maps o = true | None => True end →
  slot key v old = Ok x →
  match child v st with
  | Some v' =>
      ∃ key' x', child x st = Some x' ∧
                 slot key' v' (child_opt old st) = Ok x'
  | None =>
      (is_str v = true ∧ st = Key lang ∧ child x st = Some v) ∨
      (¬ (is_str v = true ∧ st = Key lang) ∧
       child x st = child_opt old st)
  end.
Proof.
  intros Hv Huniq Hold Hslot.
  destruct Hv as [s|items _|kvs _].
  - unfold merge_slot in Hslot. simpl child.
    assert (∃ leaf, x = VDict (setitem leaf lang (VStr s)) ∧
                    ∀ k, getitem leaf k = child_opt old (Key k))
      as (leaf & -> & Hleaf).
    { destruct old as [[| | |leaf]|]; simpl in Hslot; try discriminate;
        injection Hslot as <-; [by exists leaf | by exists []]. }
    destruct st as [k|i]; simpl.
    + destruct (decide (lang = k)) as [->|Hne].
      * left. by rewrite getitem_setitem_eq.
      * right. rewrite getitem_setitem_ne by done. split; [|done].
        intros (_ & [= ->]). done.
    + right. split; [by intros (_ & [=])|].
      by destruct old as [[]|].
  - apply merge_slot_list in Hslot as (dst & dst' & Hdst & -> & Hloop).
    apply merge_grown_lookup in Hloop as (_ & Hout & Hin).
    assert (∀ i, dst !! i = child_opt old (Index i)) as Hdsti.
    { intros i. destruct old as [[]|]; simpl in *; try discriminate;
        try congruence. injection Hdst as <-. apply lookup_nil. }
    destruct st as [k|i]; simpl.
    + right. split; [by intros [[=] _]|]. by destruct old as [[]|].
    + destruct (items !! i) as [item|] eqn:Hitem.
      * destruct (Hin _ _ Hitem) as (c & Hc & Hi).
        exists key, c. split; [done|]. rewrite <- Hdsti.
        apply (merge_cell_slot _ i); [|done].
        destruct (dst !! i) as [o|] eqn:Ho; [|done].
        destruct old as [o'|]; [|by rewrite Hdsti in Ho].
        rewrite Hdsti in Ho.
        destruct (slots_are_maps_child _ _ _ Hold Ho) as [_ Hmap].
        apply Hmap. destruct o'; simpl in Hdst; try discriminate; done.
      * right. split; [by intros [[=] _]|].
        rewrite <- Hdsti. apply Hout. by apply lookup_ge_None.
  - unfold merge_slot in Hslot.
    assert (∃ sub sub', x = VDict sub' ∧ merge sub (VDict kvs) = Ok sub' ∧
                        ∀ k, getitem sub k = child_opt old (Key k))
      as (sub & sub' & -> & Hsub & Hsubk).
    { destruct old as [[| | |sub]|]; simpl default in Hslot;
        try discriminate;
        apply bind_Ok in Hslot as (sub' & Hsub & [= <-]);
        [by exists sub, sub' | by exists [], sub']. }
    destruct st as [k|i]; simpl.
    + pose proof (merge_getitem _ _ _ _ _ k (unique_keys_NoDup _ Huniq) Hsub)
        as Hk.
      destruct (getitem kvs k) as [v'|].
      * destruct Hk as (x' & Hx' & Hk). exists k, x'.
        by rewrite <- Hsubk.
      * right. split; [by intros [[=] _]|]. by rewrite <- Hsubk.
    + right. split; [by intros [[=] _]|]. by destruct old as [[]|].
Qed.
End slot_steps.

(** ** One slot, along a path *)

Lemma lookup_opt_cons o st p :
  lookup_opt o (st :: p) = lookup_opt (child_opt o st) p.
Proof. destruct o as [v|]; simpl; [|done]. by destruct (child v st). Qed.

Lemma blocked_str p v : is_str v = true → blocked p v.
Proof. destruct p; simpl; auto. Qed.

Lemma blocked_not_map p : ∀ v D, blocked p v → lookup_path v p ≠ Some (VDict D).
Proof.
  induction p as [|st p IH]; simpl; intros v D.
  - by destruct v.
  - intros [Hstr|Hc].
    + by destruct v, st.
    + destruct (child v st) as [c|]; [by apply IH | done].
Qed.

Lemma slots_are_maps_child_opt old st :
  match old with Some o => slots_are_maps o = true | None => True end →
  match child_opt old st with
  | Some o => slots_are_maps o = true
  | None => True
  end.
Proof.
  destruct old as [o|]; simpl; [|done]. intros Ho.
  destruct (child o st) as [c|] eqn:Hc; [|done].
  by destruct (slots_are_maps_child _ _ _ Ho Hc).
Qed.

Section slot_paths.
Context (lang filename : string).

Local Abbreviation slot := (merge_slot lang filename).

Lemma contribution_cons v st p :
  contribution lang v (st :: p) =
    match child v st with Some c => contribution lang c p | None => [] end.
Proof. unfold contribution. simpl. by destruct (child v st). Qed.

(** The keys of a map of the result: those it had, and those the incoming
    tree contributes at that path. *)
Lemma merge_slot_keys_at p : ∀ key v old x D k,
  doc_tree v → unique_keys v →
  match old with Some o => slots_are_maps o = true | None => True end →
  slot key v old = Ok x →
  lookup_path x p = Some (VDict D) →
  In k (keys D) ↔
  In k (keys_of (lookup_opt old p)) ∨ In k (contribution lang v p).
Proof.
  induction p as [|st p IH]; intros key v old x D k Hv Huniq Hold Hslot.
  - simpl. intros [= ->].
    destruct (merge_slot_top _ _ _ _ _ _ Hv Hslot) as (_ & _ & _ & Hkeys).
    rewrite (Hkeys _ eq_refl). unfold contribution. simpl.
    destruct old as [o|]; simpl; [|done]. done.
  - simpl. destruct (child x st) as [c|] eqn:Hc; [|discriminate].
    intros Hp. rewrite lookup_opt_cons, contribution_cons.
    pose proof (merge_slot_child _ _ _ _ _ _ st Hv Huniq Hold Hslot) as Hstep.
    destruct (child v st) as [v'|] eqn:Hv'.
    + destruct Hstep as (key' & x' & Hx' & Hslot'). simplify_eq.
      eapply IH; [by eapply doc_tree_child | by eapply unique_keys_child |
                  by apply slots_are_maps_child_opt | done | done].
    + destruct Hstep as [(Hstr & _ & Hx)|[_ Hx]]; simplify_eq.
      * by destruct (blocked_not_map p c D (blocked_str p c Hstr)).
      * rewrite <- Hx, Hc. simpl. rewrite Hp. simpl. tauto.
Qed.

(** What the incoming tree holds at a path, the result holds there in a
    map; a string, under the language tag. *)
Lemma merge_slot_lands p : ∀ key v old x v',
  doc_tree v → unique_keys v →
  match old with Some o => slots_are_maps o = true | None => True end →
  slot key v old = Ok x →
  lookup_path v p = Some v' → is_list v' = false →
  ∃ D, lookup_path x p = Some (VDict D) ∧
       (is_str v' = true → getitem D lang = Some v').
Proof.
  induction p as [|st p IH]; intros key v old x v' Hv Huniq Hold Hslot.
  - simpl. intros [= ->] Hlist.
    destruct (merge_slot_top _ _ _ _ _ _ Hv Hslot) as (_ & _ & Hmap & _).
    rewrite Hlist in Hmap. destruct x as [| | |D]; try discriminate.
    exists D. split; [done|]. intros Hstr.
    pose proof (merge_slot_child _ _ _ _ _ _ (Key lang) Hv Huniq Hold Hslot)
      as Hstep.
    destruct v'; try discriminate. simpl in Hstep.
    destruct Hstep as [(_ & _ & Hx)|[Hne _]]; [done|].
    exfalso. by apply Hne.
  - simpl. destruct (child v st) as [vc|] eqn:Hvc; [|discriminate].
    intros Hp Hlist.
    pose proof (merge_slot_child _ _ _ _ _ _ st Hv Huniq Hold Hslot) as Hstep.
    rewrite Hvc in Hstep. destruct Hstep as (key' & x' & -> & Hslot').
    eapply IH; [by eapply doc_tree_child | by eapply unique_keys_child |
                by apply slots_are_maps_child_opt | done | done | done].
Qed.

(** A string stays a string: a path that ran into one still does. *)
Lemma merge_slot_keeps_blocked p : ∀ key v old x,
  doc_tree v → unique_keys v →
  match old with Some o => slots_are_maps o = true | None => True end →
  slot key v old = Ok x →
  match old with Some o => blocked p o | None => False end →
  blocked p x.
Proof.
  induction p as [|st p IH]; intros key v old x Hv Huniq Hold Hslot;
    destruct old as [o|]; try done;
    destruct (merge_slot_top _ _ _ _ _ _ Hv Hslot) as (Hkind & _);
    destruct (Hkind _ eq_refl) as (_ & _ & Hstr); simpl.
  - congruence.
  - intros [?|Hc]; [congruence|]. right.
    destruct (child o st) as [c|] eqn:Ho; [|done].
    pose proof (merge_slot_child _ _ _ _ (Some o) _ st Hv Huniq Hold Hslot)
      as Hstep.
    destruct (child v st) as [v'|] eqn:Hv'.
    + destruct Hstep as (key' & x' & -> & Hslot'). simpl in Hslot'.
      rewrite Ho in Hslot'.
      eapply (IH _ _ (Some c));
        [by eapply doc_tree_child | by eapply unique_keys_child | |
         done | done].
      by destruct (slots_are_maps_child _ _ _ Hold Ho).
    + destruct Hstep as [(Hs & _ & ->)|[_ ->]].
      * by apply blocked_str.
      * simpl. by rewrite Ho.
Qed.

(** A map stays a map, unless a string was written above it. *)
Lemma merge_slot_keeps_map p : ∀ key v old x D,
  doc_tree v → unique_keys v →
  match old with Some o => slots_are_maps o = true | None => True end →
  slot key v old = Ok x →
  lookup_opt old p = Some (VDict D) →
  (∃ D', lookup_path x p = Some (VDict D')) ∨ blocked p x.
Proof.
  induction p as [|st p IH]; intros key v old x D Hv Huniq Hold Hslot;
    destruct old as [o|]; try done; simpl.
  - intros [= ->].
    destruct (merge_slot_top _ _ _ _ _ _ Hv Hslot) as (Hkind & _).
    destruct (Hkind _ eq_refl) as (Hmap & _ & _).
    destruct x; try discriminate. eauto.
  - destruct (child o st) as [c|] eqn:Ho; [|discriminate]. intros Hp.
    pose proof (merge_slot_child _ _ _ _ (Some o) _ st Hv Huniq Hold Hslot)
      as Hstep.
    destruct (child v st) as [v'|] eqn:Hv'.
    + destruct Hstep as (key' & x' & -> & Hslot'). simpl in Hslot'.
      rewrite Ho in Hslot'.
      destruct (IH _ _ (Some c) _ D
                  (doc_tree_child _ _ _ Hv Hv')
                  (unique_keys_child _ _ _ Huniq Hv')
                  (proj1 (slots_are_maps_child _ _ _ Hold Ho))
                  Hslot' Hp) as [Hmap|Hb]; auto.
    + destruct Hstep as [(Hs & _ & ->)|[_ ->]].
      * right. right. by apply blocked_str.
      * left. simpl. rewrite Ho. eauto.
Qed.
End slot_paths.

(** ** Structural union *)

Lemma merge_as_slot lang filename key base t acc :
  _merge_nested lang filename base t = Ok acc →
  merge_slot lang filename key t (Some (VDict base)) = Ok (VDict acc).
Proof.
  destruct t as [| | |kvs]; try discriminate. intros H.
  unfold merge_slot. cbn -[_merge_nested]. by rewrite H.
Qed.

Lemma union_at_snoc prev file payload p k :
  union_at (prev ++ [(file, payload)]) p k ↔
  union_at prev p k ∨ In k (contribution (stem file) payload p).
Proof.
  unfold union_at. split.
  - intros (f & t & [Hin|[[= <- <-]|[]]]%in_app_iff & Hk); eauto.
  - intros [(f & t & Hin & Hk)|Hk].
    + exists f, t. rewrite in_app_iff. auto.
    + exists file, payload. rewrite in_app_iff. simpl. auto.
Qed.

Lemma contribution_contributes lang t p k :
  In k (contribution lang t p) → contributes t p = true.
Proof.
  unfold contribution, contributes.
  by destruct (lookup_path t p) as [[]|].
Qed.

Lemma contributes_lookup t p :
  contributes t p = true →
  ∃ v, lookup_path t p = Some v ∧ is_list v = false.
Proof.
  unfold contributes.
  destruct (lookup_path t p) as [[]|]; try discriminate; eauto.
Qed.

(** One more file: each map of the accumulator has the keys the files so far
    contribute at its path, and the places the files contributed at are maps
    or lie below a string. *)
Lemma merge_file_union prev langs file payload acc0 acc1 :
  unique_keys payload →
  merged_tree langs (VDict acc0) = true →
  (∀ p D k, lookup_path (VDict acc0) p = Some (VDict D) →
            In k (keys D) ↔ union_at prev p k) →
  (∀ p f t, In (f, t) prev → contributes t p = true →
            (∃ D, lookup_path (VDict acc0) p = Some (VDict D)) ∨
            blocked p (VDict acc0)) →
  merge_file (file, payload) acc0 = Ok acc1 →
  (∀ p D k, lookup_path (VDict acc1) p = Some (VDict D) →
            In k (keys D) ↔ union_at (prev ++ [(file, payload)]) p k) ∧
  (∀ p f t, In (f, t) (prev ++ [(file, payload)]) → contributes t p = true →
            (∃ D, lookup_path (VDict acc1) p = Some (VDict D)) ∨
            blocked p (VDict acc1)).
Proof.
  intros Huniq Hshape Hkeys Hplaces [Htree Hm]%merge_file_Ok.
  pose proof (merge_as_slot _ _ "" _ _ _ Hm) as Hslot.
  pose proof (merged_tree_slots _ _ Hshape) as Hslots.
  split.
  - intros p D k Hp. rewrite union_at_snoc.
    rewrite (merge_slot_keys_at _ _ p _ _ (Some (VDict acc0)) _ D k
               Htree Huniq Hslots Hslot Hp).
    simpl lookup_opt.
    destruct (lookup_path (VDict acc0) p) as [[| | |D0]|] eqn:Hp0;
      try (by rewrite (Hkeys _ _ k Hp0));
      simpl; (split; [tauto|]); (intros [(f & t & Hin & Hk)|?]; [|tauto]);
      exfalso;
      (destruct (Hplaces p f t Hin (contribution_contributes _ _ _ _ Hk))
         as [[D' HD']|Hb]; [congruence|]);
      exact (blocked_not_map p (VDict acc1) D
               (merge_slot_keeps_blocked _ _ p _ _ (Some (VDict acc0)) _
                  Htree Huniq Hslots Hslot Hb) Hp).
  - intros p f t [Hin|[[= <- <-]|[]]]%in_app_iff Hc.
    + destruct (Hplaces p f t Hin Hc) as [[D HD]|Hb].
      * by apply (merge_slot_keeps_map _ _ p _ _ (Some (VDict acc0)) _ D
                    Htree Huniq Hslots Hslot).
      * right.
        by apply (merge_slot_keeps_blocked _ _ p _ _ (Some (VDict acc0)) _
                    Htree Huniq Hslots Hslot).
    + apply contributes_lookup in Hc as (v & Hv & Hlist). left.
      destruct (merge_slot_lands _ _ p _ _ (Some (VDict acc0)) _ v
                  Htree Huniq Hslots Hslot Hv Hlist) as (D & HD & _).
      eauto.
Qed.

Lemma merge_files_union files : ∀ prev langs acc0 acc,
  Forall (λ entry : Path * pyval, unique_keys (snd entry)) files →
  merged_tree langs (VDict acc0) = true →
  (∀ p D k, lookup_path (VDict acc0) p = Some (VDict D) →
            In k (keys D) ↔ union_at prev p k) →
  (∀ p f t, In (f, t) prev → contributes t p = true →
            (∃ D, lookup_path (VDict acc0) p = Some (VDict D)) ∨
            blocked p (VDict acc0)) →
  for_fold merge_file files acc0 = Ok acc →
  ∀ p D k, lookup_path (VDict acc) p = Some (VDict D) →
           In k (keys D) ↔ union_at (prev ++ files) p k.
Proof.
  induction files as [|[file payload] files IH];
    intros prev langs acc0 acc Huniq Hshape Hkeys Hplaces; cbn [for_fold].
  - intros [= <-]. by rewrite app_nil_r.
  - intros (acc1 & Hm & Hrest)%bind_Ok.
    apply Forall_cons in Huniq as [Hpayload Huniq].
    destruct (merge_file_union prev langs file payload acc0 acc1
                Hpayload Hshape Hkeys Hplaces Hm) as [Hkeys1 Hplaces1].
    rewrite cons_middle, (assoc_L (++) prev).
    apply (IH _ (langs ++ [stem file]) acc1); try done.
    apply merge_file_Ok in Hm as [Htree Hm].
    eapply (merge_nested_shape (stem file)); [..|exact Hm]; try done.
    + apply elem_of_app. right. by apply list_elem_of_singleton.
    + eapply merged_tree_mono; [|exact Hshape].
      intros k' Hk'. apply elem_of_app. by left.
Qed.

(** C5, as stated, fails: where one file has a string and another an object,
    the map of the merged tree at that path also has the language tag of the
    first file as a key, which is in no file's key set there. *)
Lemma C5_counterexample :
  JsonMerger_merge [(en_file, mixed_en); (ru_file, mixed_ru)] = Ok mixed_merged ∧
  ∃ D, lookup_path (VDict mixed_merged) [Key "a"] = Some (VDict D) ∧
       In "en" (keys D) ∧
       ¬ (In "en" (file_keys mixed_en [Key "a"]) ∨
          In "en" (file_keys mixed_ru [Key "a"])).
Proof.
  split; [reflexivity|]. eexists. split; [reflexivity|].
  split; [by left|]. simpl. intros [[]|[[=]|[]]].
Qed.

(** C5, amended: for every run of validated trees (maps with distinct keys,
    as Python dicts are) that merges into the initially empty accumulator,
    the key set of every map of the merged tree is the union, over the
    files, of what the file contributes at that path: the keys of its own map
    there, or its language tag if it has a string there. At top level that is
    the union of the files' top-level key sets. *)
Theorem C5_structural_union (files : list (Path * pyval)) (merged : dict) :
  JsonMerger_merge files = Ok merged →
  Forall (λ entry : Path * pyval, unique_keys (snd entry)) files →
  (∀ p D k,
     lookup_path (VDict merged) p = Some (VDict D) →
     In k (keys D) ↔
     ∃ file payload,
       In (file, payload) files ∧
       In k match lookup_path payload p with
            | Some (VDict kvs) => keys kvs
            | Some (VStr _) => [stem file]
            | _ => []
            end) ∧
  (∀ k, In k (keys merged) ↔
        ∃ file payload, In (file, payload) files ∧ In k (file_keys payload [])).
Proof.
  intros Hrun Huniq.
  assert (∀ p D k, lookup_path (VDict merged) p = Some (VDict D) →
                   In k (keys D) ↔ union_at files p k) as Hunion.
  { apply (merge_files_union files [] [] [] merged); try done.
    intros [|st p] D k; simpl.
    - intros [= <-]. split; [done|]. by intros (? & ? & [] & _).
    - destruct st; simpl; discriminate. }
  split; [exact Hunion|].
  intros k. rewrite (Hunion [] merged k eq_refl). unfold union_at.
  assert (∀ file payload, In (file, payload) files →
            contribution (stem file) payload [] = file_keys payload [])
    as Htop.
  { intros file payload Hin. unfold contribution, file_keys. simpl.
    destruct payload as [| | |kvs]; try done. exfalso.
    unfold JsonMerger_merge in Hrun. clear -Hrun Hin.
    revert Hrun. generalize (@nil (string * pyval)).
    induction files as [|e files IH]; [done|]. intros acc0. cbn [for_fold].
    intros (acc1 & Hm & Hrest)%bind_Ok. destruct Hin as [->|Hin].
    - apply merge_file_Ok in Hm as [_ Hm]. discriminate.
    - by apply (IH Hin acc1). }
  split; intros (file & payload & Hin & Hk); exists file, payload;
    (split; [done|]); by rewrite ?(Htop _ _ Hin) in *.
Qed.

Lemma C5_structural_union_witness :
  In "items" (keys en_ru_merged) ↔
  ∃ file payload,
    In (file, payload) [(en_file, en_json); (ru_file, ru_json)] ∧
    In "items" (file_keys payload []).
Proof.
  assert (Forall (λ entry : Path * pyval, unique_keys (snd entry))
            [(en_file, en_json); (ru_file, ru_json)]) as Huniq
    by solve_unique_keys.
  exact (proj2 (C5_structural_union [(en_file, en_json); (ru_file, ru_json)]
                  en_ru_merged eq_refl Huniq) "items").
Defined.

(** ** Processing order *)

Section processing_order.
Context (lang filename : string).

Local Abbreviation merge := (_merge_nested lang filename).
Local Abbreviation entry := (merge_entry lang filename merge).
Local Abbreviation items_loop := (merge_items lang filename merge).

(** New keys are appended in the order of the incoming map; the keys the
    accumulator had keep their place. *)
Lemma merge_keys_order kvs : ∀ base base',
  NoDup (keys kvs) → merge base (VDict kvs) = Ok base' →
  keys base' = keys base ++ new_keys base kvs.
Proof.
  intros base base' Hnd. rewrite merge_dict. revert base base' Hnd.
  unfold new_keys.
  induction kvs as [|[key value] kvs IH]; cbn [for_fold keys map fst];
    intros base base' Hnd.
  - intros [= <-]. simpl. by rewrite app_nil_r.
  - apply NoDup_cons in Hnd as [Hkey Hnd].
    intros (b & (x & Hx & ->)%merge_entry_Ok & Hrest)%bind_Ok.
    rewrite (IH _ _ Hnd Hrest), keys_setitem. cbn [List.filter].
    destruct (getitem base key) eqn:Hbase.
    + assert (key ∈ keys base) as Hin
        by (apply list_elem_of_In, getitem_is_Some; eauto).
      by rewrite (bool_decide_eq_true_2 _ Hin).
    + assert (key ∉ keys base) as Hin
        by (rewrite list_elem_of_In; by apply getitem_None).
      rewrite (bool_decide_eq_false_2 _ Hin). simpl.
      rewrite <- app_assoc. simpl. do 2 f_equal.
      apply filter_ext_in. intros k Hk. f_equal.
      apply bool_decide_ext. rewrite elem_of_app, list_elem_of_singleton.
      split; [|tauto]. intros [?|Heq]; [done|]. subst k.
      exfalso. apply Hkey. by apply list_elem_of_In.
Qed.

(** The elements of a sequence are taken by rising index: the first element
    that is neither a string nor a map is the one the error names. *)
Lemma merge_items_first_bad key pre bad post : ∀ i dst,
  Forall (λ item, is_str item = true) pre →
  is_str bad = false → is_mapping bad = false →
  (i + length (pre ++ bad :: post) ≤ length dst)%nat →
  items_loop key i (pre ++ bad :: post) dst =
    Raise (UnsupportedElementType filename bad key (i + length pre)).
Proof.
  induction pre as [|item pre IH]; intros i dst Hpre Hstr Hmap Hlen;
    cbn [app merge_items length]; rewrite merge_item_cell.
  - destruct (lookup_lt_is_Some_2 dst i) as [old ->];
      [simpl in Hlen; lia|].
    rewrite Nat.add_0_r. unfold merge_cell. by destruct bad.
  - apply Forall_cons in Hpre as [Hitem Hpre].
    destruct (lookup_lt_is_Some_2 dst i) as [old ->];
      [simpl in Hlen; lia|].
    destruct item; try discriminate. unfold merge_cell at 1. cbn [bind].
    rewrite IH; try done.
    + by rewrite Nat.add_succ_comm.
    + rewrite length_insert. simpl in Hlen. lia.
Qed.
End processing_order.

(** ** Last writer wins *)

Lemma lookup_path_app v p q :
  lookup_path v (p ++ q) =
    match lookup_path v p with Some c => lookup_path c q | None => None end.
Proof.
  revert v. induction p as [|st p IH]; intros v; simpl; [done|].
  destruct (child v st); [apply IH | done].
Qed.

(** After a merge, every string of the merged file sits at its place under
    the language tag. *)
Lemma merge_nested_lands lang filename langs base t acc p s :
  doc_tree t → unique_keys t → merged_tree langs (VDict base) = true →
  _merge_nested lang filename base t = Ok acc →
  lookup_path t p = Some (VStr s) →
  lookup_path (VDict acc) (p ++ [Key lang]) = Some (VStr s).
Proof.
  intros Htree Huniq Hshape Hm Hp.
  destruct (merge_slot_lands lang filename p "" t (Some (VDict base))
              (VDict acc) (VStr s) Htree Huniq
              (merged_tree_slots _ _ Hshape)
              (merge_as_slot _ _ _ _ _ _ Hm) Hp eq_refl) as (D & HD & Hs).
  rewrite lookup_path_app, HD. simpl. by rewrite (Hs eq_refl).
Qed.

(** C9: two merges under the same language tag. Where both trees have a
    string at the same place, the accumulator holds the first string under
    the tag after the first merge and the second one after the second merge.
    A second tree of the same shape as the first always merges, no error
    raised, and leaves what it would have left without the first. Keys are
    taken in the order of the incoming map (new keys are appended in that
    order), and sequence elements by rising index (the first unsupported
    element is the one reported). *)
Theorem C9_last_writer_wins (lang file1 file2 : string) (langs : list string)
    (t1 t2 : pyval) (base acc1 : dict) :
  doc_tree t1 → unique_keys t1 → doc_tree t2 → unique_keys t2 →
  merged_tree langs (VDict base) = true →
  _merge_nested lang file1 base t1 = Ok acc1 →
  (∀ acc2 p s1 s2,
     _merge_nested lang file2 acc1 t2 = Ok acc2 →
     lookup_path t1 p = Some (VStr s1) →
     lookup_path t2 p = Some (VStr s2) →
     lookup_path (VDict acc1) (p ++ [Key lang]) = Some (VStr s1) ∧
     lookup_path (VDict acc2) (p ++ [Key lang]) = Some (VStr s2)) ∧
  (same_shape t1 t2 →
   ∃ acc2, _merge_nested lang file2 acc1 t2 = Ok acc2 ∧
           _merge_nested lang file2 base t2 = Ok acc2) ∧
  (∀ kvs acc2,
     t2 = VDict kvs → _merge_nested lang file2 acc1 t2 = Ok acc2 →
     keys acc2 = keys acc1 ++ new_keys acc1 kvs) ∧
  (∀ key pre bad post,
     Forall (λ item, is_str item = true) pre →
     is_str bad = false → is_mapping bad = false →
     getitem acc1 key = None →
     _merge_nested lang file2 acc1 (one_key key (pre ++ bad :: post)) =
       Raise (UnsupportedElementType file2 bad key (length pre))).
Proof.
  intros Htree1 Huniq1 Htree2 Huniq2 Hshape Hm1.
  assert (merged_tree (lang :: langs) (VDict acc1) = true) as Hshape1.
  { eapply (merge_nested_shape lang file1); [| |eapply merged_tree_mono|];
      [by left |exact Htree1| |exact Hshape|exact Hm1].
    intros k Hk. by right. }
  split; [|split; [|split]].
  - intros acc2 p s1 s2 Hm2 Hp1 Hp2. split.
    + by apply (merge_nested_lands lang file1 langs base t1 acc1 p s1).
    + by apply (merge_nested_lands lang file2 (lang :: langs) acc1 t2 acc2
                  p s2).
  - intros Hsame.
    destruct (overwrite_nested lang file1 file2 t1 t2 Hsame Huniq1 base acc1
                Hm1) as (acc2 & H2 & H2').
    eauto.
  - intros kvs acc2 -> Hm2.
    apply (merge_keys_order lang file2 kvs); [|done].
    by apply unique_keys_NoDup.
  - intros key pre bad post Hpre Hstr Hmap Hkey.
    unfold one_key. rewrite merge_dict. cbn [for_fold].
    rewrite merge_entry_slot, Hkey. unfold merge_slot. cbn [default].
    rewrite merge_items_first_bad; try done.
    rewrite length_grow. simpl. lia.
Qed.

Lemma C9_last_writer_wins_witness :
  lookup_path
    (VDict [("greet", VDict [("en", VStr "Hello")]);
            ("items", VList [VDict [("en", VStr "A")];
                             VDict [("en", VStr "B")]])])
    ([Key "greet"] ++ [Key "en"])
  = Some (VStr "Hello").
Proof.
  assert (unique_keys en_json) as Huniq1 by solve_unique_keys.
  assert (unique_keys en_json_v2) as Huniq2 by solve_unique_keys.
  assert (doc_tree en_json) as Htree1 by (repeat constructor).
  assert (doc_tree en_json_v2) as Htree2 by (repeat constructor).
  destruct (C9_last_writer_wins "en" "en.json" "en.json" [] en_json en_json_v2
              [] _ Htree1 Huniq1 Htree2 Huniq2 eq_refl eq_refl)
    as (Hlast & _).
  exact (proj2 (Hlast _ [Key "greet"] "Hi" "Hello" eq_refl eq_refl eq_refl)).
Defined.

(** ** Where the nodes of the merged tree come from *)

Lemma origin_same_kind lang t q n n' :
  same_kind n n' → origin lang t q n → origin lang t q n'.
Proof.
  intros (Hs & Hm & Hl). by destruct n, n'; simpl in *; try discriminate.
Qed.

Lemma origin_cons lang v st q c n :
  child v st = Some c → origin lang c q n → origin lang v (st :: q) n.
Proof.
  intros Hc. destruct n as [s| |items|kvs]; simpl.
  - intros (p & s' & -> & Hp). exists (st :: p), s'. split; [done|].
    simpl. by rewrite Hc.
  - done.
  - intros [its Hq]. exists its. by rewrite Hc.
  - unfold contributes. simpl. by rewrite Hc.
Qed.

Section slot_origin.
Context (lang filename : string).

(** A node of a written slot was there before, or comes from the incoming
    tree. *)
Lemma merge_slot_origin q : ∀ key v old x n,
  doc_tree v → unique_keys v →
  match old with Some o => slots_are_maps o = true | None => True end →
  merge_slot lang filename key v old = Ok x →
  lookup_path x q = Some n →
  (∃ n', lookup_opt old q = Some n' ∧ same_kind n' n) ∨ origin lang v q n.
Proof.
  induction q as [|st q IH]; intros key v old x n Hv Huniq Hold Hslot.
  - simpl. intros [= <-].
    destruct (merge_slot_top _ _ _ _ _ _ Hv Hslot) as (Hkind & Hl & Hm & _).
    destruct old as [o|].
    + left. exists o. split; [done|].
      destruct (Hkind _ eq_refl) as (? & ? & ?).
      repeat split; try done. destruct x, v; simpl in *; congruence.
    + right. destruct Hv, x; simpl in *; try discriminate; eauto.
  - simpl. destruct (child x st) as [c|] eqn:Hc; [|discriminate]. intros Hq.
    pose proof (merge_slot_child _ _ _ _ _ _ st Hv Huniq Hold Hslot) as Hstep.
    destruct (child v st) as [v'|] eqn:Hv'.
    + destruct Hstep as (key' & x' & Hx' & Hslot'). simplify_eq.
      destruct (IH _ _ _ _ n (doc_tree_child _ _ _ Hv Hv')
                  (unique_keys_child _ _ _ Huniq Hv')
                  (slots_are_maps_child_opt _ st Hold) Hslot' Hq)
        as [(n' & Hn' & Hk)|Ho].
      * left. exists n'. by rewrite lookup_opt_cons.
      * right. by eapply origin_cons.
    + destruct Hstep as [(Hs & -> & Hx)|[_ Hx]]; simplify_eq.
      * right. destruct c; try discriminate.
        destruct q as [|[] q]; try discriminate. simpl in Hq.
        injection Hq as <-. simpl. by exists [], s.
      * left. exists n. rewrite lookup_opt_cons, <- Hx, Hc. simpl.
        by split.
Qed.
End slot_origin.

Lemma merge_files_origin files : ∀ prev langs acc0 acc,
  Forall (λ entry : Path * pyval, unique_keys (snd entry)) files →
  merged_tree langs (VDict acc0) = true →
  (∀ q n, lookup_path (VDict acc0) q = Some n →
          q = [] ∨ ∃ f t, In (f, t) prev ∧ origin (stem f) t q n) →
  for_fold merge_file files acc0 = Ok acc →
  ∀ q n, lookup_path (VDict acc) q = Some n →
         q = [] ∨ ∃ f t, In (f, t) (prev ++ files) ∧ origin (stem f) t q n.
Proof.
  induction files as [|[file payload] files IH];
    intros prev langs acc0 acc Huniq Hshape Horigin; cbn [for_fold].
  - intros [= <-]. by rewrite app_nil_r.
  - intros (acc1 & [Htree Hm]%merge_file_Ok & Hrest)%bind_Ok.
    apply Forall_cons in Huniq as [Hpayload Huniq].
    rewrite cons_middle, (assoc_L (++) prev).
    apply (IH _ (langs ++ [stem file]) acc1); try done.
    + eapply (merge_nested_shape (stem file)); [..|exact Hm]; try done.
      * apply elem_of_app. right. by apply list_elem_of_singleton.
      * eapply merged_tree_mono; [|exact Hshape].
        intros k' Hk'. apply elem_of_app. by left.
    + intros q n Hq.
      destruct (merge_slot_origin _ _ q "" payload (Some (VDict acc0)) _ n
                  Htree Hpayload (merged_tree_slots _ _ Hshape)
                  (merge_as_slot _ _ _ _ _ _ Hm) Hq)
        as [(n' & Hn' & Hk)|Ho].
      * destruct (Horigin _ _ Hn') as [->|(f & t & Hin & Ho)]; [by left|].
        right. exists f, t. rewrite in_app_iff. split; [by left|].
        by eapply origin_same_kind.
      * right. exists file, payload. rewrite in_app_iff. simpl. auto.
Qed.

(** ** Leaf typing *)

Lemma lookup_path_snoc v p k :
  lookup_path v (p ++ [Key k]) =
    match lookup_path v p with
    | Some (VDict D) => getitem D k
    | _ => None
    end.
Proof.
  rewrite lookup_path_app. destruct (lookup_path v p) as [c|]; [|done].
  simpl. destruct c; simpl; try done. by destruct (getitem kvs k).
Qed.

Lemma lookup_path_parent t p k n :
  lookup_path t (p ++ [Key k]) = Some n →
  ∃ kvs, lookup_path t p = Some (VDict kvs).
Proof.
  rewrite lookup_path_snoc.
  destruct (lookup_path t p) as [[]|]; try discriminate. eauto.
Qed.

(** C3, as stated, fails: when one file has a string where another has an
    object, the map in the merged tree that holds the string also holds a
    structural key, so it is not a map from language tag to string. *)
Lemma C3_counterexample :
  JsonMerger_merge [(en_file, mixed_en); (ru_file, mixed_ru)] = Ok mixed_merged ∧
  ¬ leaf_typing ["en"; "ru"] (VDict mixed_merged).
Proof.
  split; [reflexivity|]. intros Hleaf.
  destruct (Hleaf [Key "a"] _ "en" "x" eq_refl eq_refl "b" _ eq_refl)
    as [Hstr _].
  discriminate.
Qed.

(** C3, amended: for every run of validated input trees (maps with distinct
    keys, as Python dicts are) that merges into the initially empty
    accumulator, every string of the merged tree is held by a map under the
    language tag of one of the files, the slots of every sequence are maps,
    and no other scalar occurs: a raw string is never a sequence element or a
    top-level value. If moreover no path holds a string in one file and a map
    in another, every map that holds a string is a map from language tags to
    strings. *)
Theorem C3_leaf_typing (files : list (Path * pyval)) (merged : dict) :
  JsonMerger_merge files = Ok merged →
  Forall (λ entry : Path * pyval, unique_keys (snd entry)) files →
  merged_tree (run_langs files) (VDict merged) = true ∧
  (∀ p s, lookup_path (VDict merged) p = Some (VStr s) →
          ∃ q lang, p = q ++ [Key lang] ∧ lang ∈ run_langs files) ∧
  (consistent files → leaf_typing (run_langs files) (VDict merged)).
Proof.
  intros Hrun Huniq.
  assert (merged_tree (run_langs files) (VDict merged) = true) as Hshape
    by (by apply (merge_files_shape files [] [] merged)).
  assert (∀ p s, lookup_path (VDict merged) p = Some (VStr s) →
                 ∃ q lang, p = q ++ [Key lang] ∧ lang ∈ run_langs files)
    as Hstrings.
  { intros p s. by apply (proj1 (merged_tree_strings (run_langs files) p s)). }
  split; [done|]. split; [done|].
  intros Hcons p D k s HD Hk k' x Hk'.
  assert (∀ q n, lookup_path (VDict merged) q = Some n →
                 q = [] ∨ ∃ f t, In (f, t) files ∧ origin (stem f) t q n)
    as Horigin.
  { apply (merge_files_origin files [] [] [] merged); try done.
    intros [|st q] n; [by left|]. by destruct st. }
  assert (lookup_path (VDict merged) (p ++ [Key k]) = Some (VStr s)) as Hpk
    by (by rewrite lookup_path_snoc, HD).
  assert (lookup_path (VDict merged) (p ++ [Key k']) = Some x) as Hpk'
    by (by rewrite lookup_path_snoc, HD).
  destruct (Horigin _ _ Hpk) as [Hnil|(fa & ta & Hina & Ha)];
    [by destruct p|].
  destruct Ha as (pa & sa & [-> _]%app_inj_tail & Hta).
  destruct (Horigin _ _ Hpk') as [Hnil|(fb & tb & Hinb & Hb)];
    [by destruct pa|].
  destruct x as [s'| |items|kvs]; simpl in Hb.
  - split; [done|].
    destruct (Hstrings _ _ Hpk') as (q & lang & [-> [= ->]]%app_inj_tail & Hl).
    done.
  - done.
  - destruct Hb as [its Hb].
    apply lookup_path_parent in Hb as [kvs Hb].
    destruct (Hcons pa fa ta fb tb sa kvs Hina Hinb Hta Hb).
  - unfold contributes in Hb.
    destruct (lookup_path tb (pa ++ [Key k'])) as [n|] eqn:Hn; [|done].
    apply lookup_path_parent in Hn as [kvs' Hn].
    destruct (Hcons pa fa ta fb tb sa kvs' Hina Hinb Hta Hn).
Qed.

(** The two files of the end-to-end example agree on where strings are. *)
Lemma en_ru_consistent : consistent [(en_file, en_json); (ru_file, ru_json)].
Proof.
  intros p fa ta fb tb s kvs Ha Hb Hs Hd.
  assert (ta = en_json ∨ ta = ru_json) as Hta
    by (destruct Ha as [[= _ <-]|[[= _ <-]|[]]]; auto).
  assert (tb = en_json ∨ tb = ru_json) as Htb
    by (destruct Hb as [[= _ <-]|[[= _ <-]|[]]]; auto).
  clear Ha Hb.
  destruct p as [|[k|i] p]; [destruct Hta as [-> | ->]; discriminate| |
                             destruct Hta as [-> | ->]; discriminate].
  destruct Hta as [-> | ->], Htb as [-> | ->]; simpl in Hs, Hd;
    repeat (case_decide; simplify_eq; simpl in * );
    try discriminate;
    destruct p as [|[k'|i'] p]; simpl in *; try discriminate;
    repeat (destruct i' as [|i']; simpl in *; try discriminate);
    destruct p as [|[] p]; simpl in *; try discriminate.
Qed.

Lemma C3_leaf_typing_witness :
  merged_tree ["en"; "ru"] (VDict en_ru_merged) = true ∧
  leaf_typing ["en"; "ru"] (VDict en_ru_merged).
Proof.
  assert (Forall (λ entry : Path * pyval, unique_keys (snd entry))
            [(en_file, en_json); (ru_file, ru_json)]) as Huniq
    by solve_unique_keys.
  destruct (C3_leaf_typing [(en_file, en_json); (ru_file, ru_json)]
              en_ru_merged eq_refl Huniq) as (Hshape & _ & Hleaf).
  split; [exact Hshape | exact (Hleaf en_ru_consistent)].
Defined.

(** * Further properties *)

(** ** The accumulator is a well-formed dict *)

Lemma unique_keys_dict kvs :
  unique_keys (VDict kvs) ↔
  NoDup (keys kvs) ∧ ∀ k v, In (k, v) kvs → unique_keys v.
Proof.
  split.
  - intros H. split; [by apply unique_keys_NoDup|].
    intros k v. by apply unique_keys_value.
  - intros [Hnd Hall]. constructor; [done|].
    apply List.Forall_forall. intros [k v]. apply Hall.
Qed.

Lemma unique_keys_list items :
  unique_keys (VList items) ↔ ∀ i x, items !! i = Some x → unique_keys x.
Proof.
  split.
  - intros H i x Hi. eapply unique_keys_item; [done|].
    by eapply list_elem_of_In, list_elem_of_lookup_2.
  - intros H. constructor. by apply Forall_lookup.
Qed.

Lemma In_setitem (d : dict) key x k v :
  In (k, v) (setitem d key x) → (k = key ∧ v = x) ∨ In (k, v) d.
Proof.
  induction d as [|[k' v'] d IH]; simpl.
  - intros [[= <- <-]|[]]. by left.
  - case_decide; subst; simpl.
    + intros [[= <- <-]|?]; auto.
    + intros [?|?]; [auto|]. destruct IH; auto.
Qed.

Lemma NoDup_keys_setitem (d : dict) key x :
  NoDup (keys d) → NoDup (keys (setitem d key x)).
Proof.
  intros Hnd. rewrite keys_setitem.
  destruct (getitem d key) eqn:Hkey; [done|].
  apply NoDup_app. split; [done|]. split; [|apply NoDup_singleton].
  intros k Hk ->%list_elem_of_singleton.
  apply getitem_None in Hkey. by apply Hkey, list_elem_of_In.
Qed.

Lemma unique_keys_setitem (d : dict) key x :
  unique_keys (VDict d) → unique_keys x →
  unique_keys (VDict (setitem d key x)).
Proof.
  rewrite !unique_keys_dict. intros [Hnd Hall] Hx.
  split; [by apply NoDup_keys_setitem|].
  intros k v [[_ ->]|Hin]%In_setitem; [done | by eapply Hall].
Qed.

Lemma unique_keys_getitem (d : dict) key x :
  unique_keys (VDict d) → getitem d key = Some x → unique_keys x.
Proof. intros Hd Hx%getitem_Some_In. by eapply unique_keys_value. Qed.

Lemma unique_keys_empty : unique_keys (VDict []).
Proof. constructor; constructor. Qed.

Section merge_unique.
Context (lang filename : string).

Local Abbreviation merge := (_merge_nested lang filename).
Local Abbreviation entry := (merge_entry lang filename merge).

Lemma merge_cell_unique key i item old c :
  (∀ base acc, unique_keys (VDict base) → merge base item = Ok acc →
               unique_keys (VDict acc)) →
  unique_keys old →
  merge_cell lang filename key i item old = Ok c → unique_keys c.
Proof.
  intros IH Hold. unfold merge_cell.
  assert (unique_keys (VDict match old with VDict c0 => c0 | _ => [] end))
    as Hcell by (destruct old; auto using unique_keys_empty).
  destruct item as [s| |its|kvs]; try discriminate.
  - intros [= <-]. apply unique_keys_setitem; [done | constructor].
  - intros (c' & Hc' & [= <-])%bind_Ok. by eapply IH.
Qed.

(** [_merge_nested] never leaves a key twice in a map. *)
Lemma merge_nested_unique (incoming : pyval) : ∀ base acc,
  unique_keys (VDict base) → merge base incoming = Ok acc →
  unique_keys (VDict acc).
Proof.
  induction incoming as [s|c|items IH|kvs IH IHitems] using pyval_merge_ind;
    intros base acc; try discriminate.
  rewrite merge_dict. revert base acc.
  induction kvs as [|[key value] kvs IHkvs]; cbn [for_fold];
    intros base acc Hbase.
  - by intros [= <-].
  - intros (b & (x & Hx & ->)%merge_entry_Ok & Hrest)%bind_Ok.
    eapply IHkvs; [..|exact Hrest].
    + intros k v Hin. apply (IH k). by right.
    + intros k its it Hin. apply (IHitems k its). by right.
    + apply unique_keys_setitem; [done|].
      assert (∀ o, getitem base key = Some o → unique_keys o) as Hold
        by (intros o; by apply unique_keys_getitem).
      unfold merge_slot in Hx. destruct value as [s|c|items|kvs'].
      * destruct (getitem base key) as [[| | |leaf]|]; simpl in Hx;
          try discriminate; injection Hx as <-.
        -- apply unique_keys_setitem; [by apply Hold | constructor].
        -- apply (unique_keys_setitem []); [apply unique_keys_empty |
                                            constructor].
      * destruct (getitem base key) as [[| | |leaf]|]; simpl in Hx;
          try discriminate; injection Hx as <-.
        -- apply unique_keys_setitem; [by apply Hold | constructor].
        -- apply (unique_keys_setitem []); [apply unique_keys_empty |
                                            constructor].
      * assert (∃ dst, default (VList []) (getitem base key) = VList dst ∧
                       unique_keys (VList dst)) as (dst & Hdst & Hudst).
        { destruct (getitem base key) as [[| |dst|]|]; simpl in *;
            try discriminate.
          - exists dst. split; [done|]. by apply Hold.
          - exists []. split; [done|]. constructor. constructor. }
        rewrite Hdst in Hx.
        apply bind_Ok in Hx as (dst' & Hloop & [= <-]).
        apply merge_grown_lookup in Hloop as (_ & Hout & Hin).
        rewrite unique_keys_list in *. intros j c Hj.
        destruct (items !! j) as [item|] eqn:Hitem.
        -- destruct (Hin _ _ Hitem) as (c' & Hcell & Hc'). simplify_eq.
           eapply merge_cell_unique; [| |exact Hcell].
           ++ apply (IHitems key items); [by left|].
              by eapply list_elem_of_In, list_elem_of_lookup_2.
           ++ destruct (dst !! j) as [o|] eqn:Ho; simpl;
                [by eapply Hudst | apply unique_keys_empty].
        -- apply lookup_ge_None in Hitem. rewrite Hout in Hj by done. eauto.
      * assert (∃ sub, default (VDict []) (getitem base key) = VDict sub ∧
                       unique_keys (VDict sub)) as (sub & Hsub & Husub).
        { destruct (getitem base key) as [[| | |sub]|]; simpl in *;
            try discriminate.
          - exists sub. split; [done|]. by apply Hold.
          - exists []. split; [done|]. apply unique_keys_empty. }
        rewrite Hsub in Hx.
        apply bind_Ok in Hx as (sub' & Hm & [= <-]).
        eapply (IH key); [by left | exact Husub | exact Hm].
Qed.
End merge_unique.

Lemma merge_files_unique files : ∀ acc0 acc,
  unique_keys (VDict acc0) → for_fold merge_file files acc0 = Ok acc →
  unique_keys (VDict acc).
Proof.
  induction files as [|[file payload] files IH]; cbn [for_fold];
    intros acc0 acc Hacc0.
  - by intros [= <-].
  - intros (acc1 & [_ Hm]%merge_file_Ok & Hrest)%bind_Ok.
    eapply IH; [|exact Hrest]. by eapply merge_nested_unique.
Qed.

Lemma merge_files_top_keys files : ∀ acc0 acc,
  for_fold merge_file files acc0 = Ok acc →
  ∀ k, In k (keys acc) ↔ In k (keys acc0) ∨ In k (top_level_keys files).
Proof.
  induction files as [|[file payload] files IH]; cbn [for_fold];
    intros acc0 acc.
  - intros [= <-] k. unfold top_level_keys. simpl. tauto.
  - intros (acc1 & [_ Hm]%merge_file_Ok & Hrest)%bind_Ok k.
    rewrite (IH _ _ Hrest). unfold top_level_keys. cbn [map concat].
    rewrite in_app_iff. destruct payload as [| | |kvs]; try discriminate.
    rewrite (merge_keys _ _ _ _ _ Hm). unfold file_keys. simpl. tauto.
Qed.

(** X1: the merged document is a well-formed dict. After a run that merges,
    no map of the merged tree, at any depth, has a key twice, whatever the
    input files were; and the number of top-level keys, which is what
    [_write_output] reports as [len(tree)], is the number of distinct
    top-level keys of the files. *)
Theorem X1_merged_keys_distinct (files : list (Path * pyval)) (merged : dict) :
  JsonMerger_merge files = Ok merged →
  unique_keys (VDict merged) ∧
  length merged = length (remove_dups (top_level_keys files)).
Proof.
  intros Hrun.
  assert (unique_keys (VDict merged)) as Huniq
    by (by apply (merge_files_unique files [] merged unique_keys_empty)).
  split; [done|].
  rewrite <- (length_map fst merged). apply Permutation_length.
  apply NoDup_Permutation.
  - by apply unique_keys_NoDup.
  - apply NoDup_remove_dups.
  - intros k. rewrite elem_of_remove_dups, !list_elem_of_In.
    rewrite (merge_files_top_keys files [] merged Hrun). simpl. tauto.
Qed.

Lemma X1_merged_keys_distinct_witness :
  unique_keys (VDict en_ru_merged) ∧ length en_ru_merged = 2%nat.
Proof.
  exact (X1_merged_keys_distinct [(en_file, en_json); (ru_file, ru_json)]
           en_ru_merged eq_refl).
Defined.

(** ** The errors of a run *)




Lemma node_of_trans x y z : node_of x y → node_of y z → node_of x z.
Proof.
  intros Hxy Hyz. induction Hyz as [|items w Hin _ IH|kvs k w Hin _ IH].
  - done.
  - by eapply node_item.
  - by eapply node_value.
Qed.





Section merge_error_kinds.
Context (lang filename : string).

Local Abbreviation merge := (_merge_nested lang filename).
Local Abbreviation items_loop := (merge_items lang filename merge).
Local Abbreviation cell := (merge_cell lang filename).
Local Abbreviation slot := (merge_slot lang filename).


End merge_error_kinds.





(** ** What a merge keeps, and where its strings come from *)

Lemma grown_refl o : grown o o.
Proof. destruct o; simpl; eauto. Qed.

Lemma grown_trans a b c : grown a b → grown b c → grown a c.
Proof.
  destruct a as [s|x|items|kvs]; simpl.
  - by intros ->.
  - by intros ->.
  - intros (items' & -> & Hlen) (items'' & -> & Hlen'). simpl.
    eexists. split; [done | lia].
  - intros (kvs' & -> & Hk) (kvs'' & -> & Hk'). simpl.
    eexists. split; [done | auto].
Qed.

Lemma keys_avoid_path langs p : ∀ t v,
  keys_avoid langs t = true → lookup_path t p = Some v → avoids langs p.
Proof.
  induction p as [|st p IH]; intros t v Ht Hp l Hl.
  - apply not_elem_of_nil.
  - simpl in Hp. destruct (child t st) as [c|] eqn:Hc; [|discriminate].
    apply not_elem_of_cons.
    destruct st as [k|i], t as [| |items|kvs]; simpl in Hc; try discriminate.
    + apply getitem_Some_In in Hc. simpl in Ht. rewrite forallb_forall in Ht.
      apply Ht in Hc. simpl in Hc. apply andb_true_iff in Hc as [Hk Hc].
      split; [|by eapply IH].
      intros [= ->]. unfold is_lang in Hk.
      by rewrite bool_decide_eq_true_2 in Hk.
    + split; [done|]. simpl in Ht. rewrite forallb_lookup in Ht.
      eapply IH; [|done..]. by eapply Ht.
Qed.

Section slot_keeps.
Context (lang filename : string).

Local Abbreviation slot := (merge_slot lang filename).

(** Off the paths through the key [lang], what was in a slot is still there
    after the slot is written: strings unchanged, sequences no shorter, maps
    with no key less. *)
Lemma merge_slot_grows q : ∀ key v old x o,
  doc_tree v → unique_keys v →
  match old with Some o => slots_are_maps o = true | None => True end →
  slot key v old = Ok x →
  lookup_opt old q = Some o → Key lang ∉ q →
  ∃ n, lookup_path x q = Some n ∧ grown o n.
Proof.
  induction q as [|st q IH]; intros key v old x o Hv Huniq Hold Hslot;
    destruct old as [o0|]; try done; simpl.
  - intros [= ->] _. exists x. split; [done|].
    destruct (merge_slot_top _ _ _ _ _ _ Hv Hslot) as (Hkind & Hl & Hm & Hk).
    destruct (Hkind _ eq_refl) as (Hmap & Hlist & Hstr).
    destruct o as [s|c|dst|D]; simpl in *; try discriminate.
    + destruct (is_list v); simpl in *; congruence.
    + destruct v as [| |items|]; try (simpl in *; congruence).
      apply merge_slot_list in Hslot as (dst0 & dst' & [= <-] & -> & Hloop).
      apply merge_grown_lookup in Hloop as (Hlen & _).
      eexists. split; [done | lia].
    + destruct x as [| | |D']; try discriminate.
      eexists. split; [done|]. intros k Hin. apply (Hk _ eq_refl). by left.
  - destruct (child o0 st) as [c|] eqn:Ho; [|discriminate].
    intros Hp [Hst Hq]%not_elem_of_cons.
    pose proof (merge_slot_child _ _ _ _ (Some o0) _ st Hv Huniq Hold Hslot)
      as Hstep.
    destruct (child v st) as [v'|] eqn:Hv'.
    + destruct Hstep as (key' & x' & -> & Hslot'). simpl in Hslot'.
      rewrite Ho in Hslot'.
      eapply (IH _ _ (Some c)); [by eapply doc_tree_child |
                                 by eapply unique_keys_child | | done..].
      by destruct (slots_are_maps_child _ _ _ Hold Ho).
    + destruct Hstep as [(_ & -> & _)|[_ Hx]]; [done|].
      simpl in Hx. rewrite Hx, Ho. exists o. split; [done | apply grown_refl].
Qed.

(** A string of a written slot was there before, or is a string of the
    incoming tree, stored under the key [lang]. *)
Lemma merge_slot_string_origin q : ∀ key v old x s,
  doc_tree v → unique_keys v →
  match old with Some o => slots_are_maps o = true | None => True end →
  slot key v old = Ok x →
  lookup_path x q = Some (VStr s) →
  lookup_opt old q = Some (VStr s) ∨
  ∃ p, q = p ++ [Key lang] ∧ lookup_path v p = Some (VStr s).
Proof.
  induction q as [|st q IH]; intros key v old x s Hv Huniq Hold Hslot.
  - simpl. intros [= ->].
    destruct (merge_slot_top _ _ _ _ _ _ Hv Hslot) as (_ & Hl & Hm & _).
    simpl in *. by destruct (is_list v).
  - simpl. destruct (child x st) as [c|] eqn:Hc; [|discriminate]. intros Hq.
    rewrite lookup_opt_cons.
    pose proof (merge_slot_child _ _ _ _ _ _ st Hv Huniq Hold Hslot) as Hstep.
    destruct (child v st) as [v'|] eqn:Hv'.
    + destruct Hstep as (key' & x' & Hx' & Hslot'). simplify_eq.
      destruct (IH _ _ _ _ s (doc_tree_child _ _ _ Hv Hv')
                  (unique_keys_child _ _ _ Huniq Hv')
                  (slots_are_maps_child_opt _ st Hold) Hslot' Hq)
        as [Hold'|(p & -> & Hp)]; [by left|].
      right. exists (st :: p). split; [done|]. simpl. by rewrite Hv'.
    + destruct Hstep as [(Hstr & -> & Hx)|[_ Hx]]; simplify_eq.
      * right. exists []. destruct c as [s'| | |]; try discriminate.
        destruct q as [|[] q]; simpl in Hq; [|discriminate..].
        by simplify_eq.
      * left. by rewrite <- Hx, Hc.
Qed.
End slot_keeps.

Lemma merge_file_shape langs file payload acc0 acc1 :
  merged_tree langs (VDict acc0) = true →
  merge_file (file, payload) acc0 = Ok acc1 →
  merged_tree (langs ++ [stem file]) (VDict acc1) = true.
Proof.
  intros Hshape Hm.
  apply (merge_files_shape [(file, payload)] langs acc0 acc1 Hshape).
  cbn [for_fold]. by rewrite Hm.
Qed.

Lemma merge_files_grows files : ∀ langs acc0 acc q o,
  Forall (λ entry : Path * pyval, unique_keys (snd entry)) files →
  merged_tree langs (VDict acc0) = true →
  for_fold merge_file files acc0 = Ok acc →
  lookup_path (VDict acc0) q = Some o → avoids (run_langs files) q →
  ∃ n, lookup_path (VDict acc) q = Some n ∧ grown o n.
Proof.
  induction files as [|[file payload] files IH]; cbn [for_fold];
    intros langs acc0 acc q o Huniq Hshape.
  - intros [= <-] Hq _. exists o. split; [done | apply grown_refl].
  - apply Forall_cons in Huniq as [Huniq Huniqs]. simpl in Huniq.
    intros (acc1 & Hm & Hrest)%bind_Ok Hq Hoff.
    pose proof (merge_file_shape _ _ _ _ _ Hshape Hm) as Hshape1.
    apply merge_file_Ok in Hm as [Htree Hm].
    destruct (merge_slot_grows (stem file) (path_str file) q "" payload
                (Some (VDict acc0)) (VDict acc1) o Htree Huniq
                (merged_tree_slots _ _ Hshape)
                (merge_as_slot _ _ _ _ _ _ Hm) Hq) as (n1 & Hn1 & Hg1).
    { apply Hoff. simpl. apply list_elem_of_here. }
    destruct (IH _ _ _ q n1 Huniqs Hshape1 Hrest Hn1) as (n & Hn & Hg).
    { intros l Hl. apply Hoff. simpl. by apply list_elem_of_further. }
    exists n. split; [done|]. by eapply grown_trans.
Qed.

Lemma merge_files_string_origin files : ∀ langs acc0 acc q s,
  Forall (λ entry : Path * pyval, unique_keys (snd entry)) files →
  merged_tree langs (VDict acc0) = true →
  for_fold merge_file files acc0 = Ok acc →
  lookup_path (VDict acc) q = Some (VStr s) →
  lookup_path (VDict acc0) q = Some (VStr s) ∨
  ∃ file payload p,
    In (file, payload) files ∧ q = p ++ [Key (stem file)] ∧
    lookup_path payload p = Some (VStr s).
Proof.
  induction files as [|[file payload] files IH]; cbn [for_fold];
    intros langs acc0 acc q s Huniq Hshape.
  - intros [= <-] Hq. by left.
  - apply Forall_cons in Huniq as [Huniq Huniqs]. simpl in Huniq.
    intros (acc1 & Hm & Hrest)%bind_Ok Hq.
    pose proof (merge_file_shape _ _ _ _ _ Hshape Hm) as Hshape1.
    apply merge_file_Ok in Hm as [Htree Hm].
    destruct (IH _ _ _ q s Huniqs Hshape1 Hrest Hq)
      as [Hq1|(f & t & p & Hin & -> & Hp)].
    + destruct (merge_slot_string_origin (stem file) (path_str file) q ""
                  payload (Some (VDict acc0)) (VDict acc1) s Htree Huniq
                  (merged_tree_slots _ _ Hshape)
                  (merge_as_slot _ _ _ _ _ _ Hm) Hq1) as [Hq0|(p & -> & Hp)].
      * by left.
      * right. exists file, payload, p. split; [by left | done].
    + right. exists f, t, p. split; [by right | done].
Qed.

Lemma merge_files_split pre entry post merged :
  JsonMerger_merge (pre ++ entry :: post) = Ok merged →
  ∃ mid acc1,
    JsonMerger_merge pre = Ok mid ∧ merge_file entry mid = Ok acc1 ∧
    for_fold merge_file post acc1 = Ok merged.
Proof.
  unfold JsonMerger_merge. rewrite for_fold_app. cbn [for_fold].
  intros (mid & Hpre & (acc1 & Hm & Hpost)%bind_Ok)%bind_Ok. eauto.
Qed.

Lemma merge_files_strings_land pre file payload post merged p s :
  Forall (λ entry : Path * pyval, unique_keys (snd entry))
    (pre ++ (file, payload) :: post) →
  JsonMerger_merge (pre ++ (file, payload) :: post) = Ok merged →
  lookup_path payload p = Some (VStr s) →
  avoids (run_langs post) (p ++ [Key (stem file)]) →
  lookup_path (VDict merged) (p ++ [Key (stem file)]) = Some (VStr s).
Proof.
  intros [_ [Huniq Huniqs]%Forall_cons]%Forall_app
         (mid & acc1 & Hpre & Hm & Hpost)%merge_files_split Hp Hoff.
  simpl in Huniq.
  pose proof (merge_files_shape pre [] [] mid eq_refl Hpre) as Hshape.
  pose proof (merge_file_shape _ _ _ _ _ Hshape Hm) as Hshape1.
  apply merge_file_Ok in Hm as [Htree Hm].
  pose proof (merge_nested_lands _ _ _ _ _ _ _ _ Htree Huniq Hshape Hm Hp)
    as Hland.
  destruct (merge_files_grows post _ _ _ _ _ Huniqs Hshape1 Hpost Hland Hoff)
    as (n & Hn & Hg).
  simpl in Hg. by subst n.
Qed.

(** X3: more files only add to the document. Take a run that merges, and
    the document [mid] of the run stopped after some of its files. Whatever
    [mid] has at a path that goes through none of the language tags of the
    remaining files is still there in the final document: a string is the
    same string, a sequence is a sequence at least as long, a map is a map
    with at least the same keys. (The input maps have distinct keys, as
    Python dicts have.) *)
Theorem X3_later_files_only_add (pre post : list (Path * pyval))
    (mid merged : dict) (q : path) (o : pyval) :
  Forall (λ entry : Path * pyval, unique_keys (snd entry)) post →
  JsonMerger_merge pre = Ok mid →
  JsonMerger_merge (pre ++ post) = Ok merged →
  lookup_path (VDict mid) q = Some o →
  avoids (run_langs post) q →
  ∃ n, lookup_path (VDict merged) q = Some n ∧ grown o n.
Proof.
  intros Huniq Hpre Hrun Hq Hoff.
  unfold JsonMerger_merge in Hrun. rewrite for_fold_app in Hrun.
  unfold JsonMerger_merge in Hpre. rewrite Hpre in Hrun. simpl in Hrun.
  pose proof (merge_files_shape pre [] [] mid eq_refl Hpre) as Hshape.
  by eapply merge_files_grows.
Qed.

(** X4: every string of the merged document is a string of an input file.
    If a run merges and the merged document has the string [s] at a path,
    that path is a path [p] followed by the stem of one of the files, and
    that file has the same string [s] at [p]. (The input maps have distinct
    keys, as Python dicts have.) *)
Theorem X4_merged_strings_come_from_files (files : list (Path * pyval))
    (merged : dict) (q : path) (s : string) :
  Forall (λ entry : Path * pyval, unique_keys (snd entry)) files →
  JsonMerger_merge files = Ok merged →
  string_at (VDict merged) q s →
  ∃ file payload p,
    In (file, payload) files ∧ q = p ++ [Key (stem file)] ∧
    string_at payload p s.
Proof.
  intros Huniq Hrun Hq.
  destruct (merge_files_string_origin files [] [] merged q s Huniq eq_refl
              Hrun Hq) as [Hq0|H]; [|done].
  destruct q as [|[k|i] q]; discriminate.
Qed.

(** X5: every string of an input file is in the merged document, under the
    file's stem, unless a later file writes over it. If a run merges and one
    of its files has the string [s] at the path [p], the merged document has
    [s] at [p] followed by the stem of that file, provided that no later file
    has the same stem and no stem of a later file is one of the keys on
    [p]. *)
Theorem X5_file_strings_reach_the_document (pre post : list (Path * pyval))
    (file : Path) (payload : pyval) (merged : dict) (p : path) (s : string) :
  Forall (λ entry : Path * pyval, unique_keys (snd entry))
    (pre ++ (file, payload) :: post) →
  JsonMerger_merge (pre ++ (file, payload) :: post) = Ok merged →
  string_at payload p s →
  stem file ∉ run_langs post → avoids (run_langs post) p →
  string_at (VDict merged) (p ++ [Key (stem file)]) s.
Proof.
  intros Huniq Hrun Hp Hstem Hoff.
  eapply merge_files_strings_land; try done.
  intros l Hl [Hin|Hin%list_elem_of_singleton]%elem_of_app.
  - by apply (Hoff l).
  - by simplify_eq.
Qed.

Lemma avoidsb_avoids langs p : avoidsb langs p = true → avoids langs p.
Proof.
  unfold avoidsb. rewrite forallb_forall. intros H l Hl%list_elem_of_In.
  by apply H, bool_decide_eq_true in Hl.
Qed.

Lemma X3_later_files_only_add_witness :
  ∃ n, lookup_path (VDict en_ru_merged) [Key "items"] = Some n ∧
       grown (VList [VDict [("en", VStr "a")]; VDict [("en", VStr "b")]]) n.
Proof.
  assert (Forall (λ entry : Path * pyval, unique_keys (snd entry))
            [(ru_file, ru_json)]) as Huniq by solve_unique_keys.
  assert (avoids (run_langs [(ru_file, ru_json)]) [Key "items"]) as Hoff
    by (apply avoidsb_avoids; reflexivity).
  exact (X3_later_files_only_add [(en_file, en_json)] [(ru_file, ru_json)]
           _ en_ru_merged [Key "items"] _ Huniq eq_refl eq_refl eq_refl Hoff).
Defined.

Lemma X4_merged_strings_come_from_files_witness :
  ∃ file payload p,
    In (file, payload) [(en_file, en_json); (ru_file, ru_json)] ∧
    [Key "greet"; Key "en"] = p ++ [Key (stem file)] ∧
    string_at payload p "Hi".
Proof.
  assert (Forall (λ entry : Path * pyval, unique_keys (snd entry))
            [(en_file, en_json); (ru_file, ru_json)]) as Huniq
    by solve_unique_keys.
  exact (X4_merged_strings_come_from_files
           [(en_file, en_json); (ru_file, ru_json)] en_ru_merged
           [Key "greet"; Key "en"] "Hi" Huniq eq_refl eq_refl).
Defined.

Lemma X5_file_strings_reach_the_document_witness :
  string_at (VDict en_ru_merged) ([Key "greet"] ++ [Key "en"]) "Hi".
Proof.
  assert (Forall (λ entry : Path * pyval, unique_keys (snd entry))
            ([] ++ (en_file, en_json) :: [(ru_file, ru_json)])) as Huniq
    by solve_unique_keys.
  assert (avoids (run_langs [(ru_file, ru_json)]) [Key "greet"]) as Hoff
    by (apply avoidsb_avoids; reflexivity).
  assert (stem en_file ∉ run_langs [(ru_file, ru_json)]) as Hstem
    by (simpl; by intros [=]%list_elem_of_singleton).
  exact (X5_file_strings_reach_the_document [] [(ru_file, ru_json)] en_file
           en_json en_ru_merged [Key "greet"] "Hi" Huniq eq_refl eq_refl
           Hstem Hoff).
Defined.

(** ** The order of the files *)

Lemma merge_files_strings_transfer files files' langs merged merged' q s :
  (∀ entry, In entry files → In entry files') →
  NoDup (run_langs files') →
  (∀ l, l ∈ run_langs files' → l ∈ langs) →
  Forall (λ entry : Path * pyval, unique_keys (snd entry)) files →
  Forall (λ entry : Path * pyval, unique_keys (snd entry)) files' →
  Forall (λ entry : Path * pyval, keys_avoid langs (snd entry) = true) files →
  JsonMerger_merge files = Ok merged →
  JsonMerger_merge files' = Ok merged' →
  string_at (VDict merged) q s → string_at (VDict merged') q s.
Proof.
  intros Hsub Hnd Hlangs Huniq Huniq' Havoid Hrun Hrun' Hq.
  destruct (merge_files_string_origin files [] [] merged q s Huniq eq_refl
              Hrun Hq) as [Hq0|(file & payload & p & Hin & -> & Hp)].
  { destruct q as [|[k|i] q]; discriminate. }
  rewrite List.Forall_forall in Havoid.
  pose proof (Havoid _ Hin) as Hfree. simpl in Hfree.
  destruct (in_split _ _ (Hsub _ Hin)) as (pre & post & ->).
  unfold run_langs in Hnd, Hlangs. rewrite map_app in Hnd, Hlangs.
  cbn [map fst] in Hnd, Hlangs.
  apply NoDup_app in Hnd as (_ & _ & [Hstem _]%NoDup_cons).
  eapply merge_files_strings_land; try done.
  intros l Hl [Hon|Heq%list_elem_of_singleton]%elem_of_app.
  - eapply (keys_avoid_path langs p payload); [done | done | | done].
    apply Hlangs, elem_of_app. right. by apply list_elem_of_further.
  - by simplify_eq.
Qed.

(** X6: the order of the files does not change the strings. Take the same
    files in two orders, each file with its own stem, no stem being used as
    a key inside any file. If both runs merge, the two merged documents have
    the same strings at the same paths. (The input maps have distinct keys,
    as Python dicts have.) *)
Theorem X6_file_order_is_irrelevant (files files' : list (Path * pyval))
    (merged merged' : dict) :
  Permutation files files' →
  NoDup (run_langs files) →
  Forall (λ entry : Path * pyval,
            unique_keys (snd entry) ∧
            keys_avoid (run_langs files) (snd entry) = true) files →
  JsonMerger_merge files = Ok merged →
  JsonMerger_merge files' = Ok merged' →
  ∀ q s, string_at (VDict merged) q s ↔ string_at (VDict merged') q s.
Proof.
  intros Hperm Hnd Hall Hrun Hrun' q s.
  assert (Forall (λ entry : Path * pyval, unique_keys (snd entry)) files)
    as Huniq by (eapply Forall_impl; [exact Hall | by intros ? [? ?]]).
  assert (Forall (λ entry : Path * pyval,
                    keys_avoid (run_langs files) (snd entry) = true) files)
    as Havoid by (eapply Forall_impl; [exact Hall | by intros ? [? ?]]).
  assert (run_langs files ≡ₚ run_langs files') as Hlangs
    by (unfold run_langs; by rewrite Hperm).
  split.
  - eapply (merge_files_strings_transfer files files' (run_langs files));
      try done.
    + intros entry. by apply Permutation_in.
    + by rewrite <- Hlangs.
    + intros l. by rewrite Hlangs.
    + by rewrite <- Hperm.
  - eapply (merge_files_strings_transfer files' files (run_langs files));
      try done.
    + intros entry. apply Permutation_in. by symmetry.
    + by rewrite <- Hperm.
    + by rewrite <- Hperm.
Qed.

Lemma X6_file_order_is_irrelevant_witness :
  string_at (VDict en_ru_merged) [Key "greet"; Key "ru"] "Привет" ↔
  string_at (VDict ru_en_merged) [Key "greet"; Key "ru"] "Привет".
Proof.
  assert (Permutation [(en_file, en_json); (ru_file, ru_json)]
            [(ru_file, ru_json); (en_file, en_json)]) as Hperm
    by apply perm_swap.
  assert (NoDup (run_langs [(en_file, en_json); (ru_file, ru_json)])) as Hnd
    by (by apply NoDup_by_decide).
  assert (Forall (λ entry : Path * pyval,
                    unique_keys (snd entry) ∧
                    keys_avoid
                      (run_langs [(en_file, en_json); (ru_file, ru_json)])
                      (snd entry) = true)
            [(en_file, en_json); (ru_file, ru_json)]) as Hall
    by (repeat (apply List.Forall_cons;
                [split; [solve_unique_keys | reflexivity]|]);
        apply List.Forall_nil).
  exact (X6_file_order_is_irrelevant _ _ en_ru_merged ru_en_merged Hperm Hnd
           Hall eq_refl eq_refl [Key "greet"; Key "ru"] "Привет").
Defined.

(** ** Files of the same shape *)

Lemma Forall2_trans_In {A} (R : A → A → Prop) (l1 : list A) : ∀ l2 l3,
  (∀ x y z, In x l1 → R x y → R y z → R x z) →
  Forall2 R l1 l2 → Forall2 R l2 l3 → Forall2 R l1 l3.
Proof.
  induction l1 as [|x l1 IH]; intros l2 l3 Htrans H12 H23.
  - inversion H12; subst. inversion H23; subst. constructor.
  - inversion H12 as [|? y ? l2' Hxy H12']; subst.
    inversion H23 as [|? z ? l3' Hyz H23']; subst. constructor.
    + eapply Htrans; [by left | done..].
    + eapply IH; [|done..]. intros a b c Hin. apply Htrans. by right.
Qed.

Lemma same_shape_sym (t1 : pyval) : ∀ t2, same_shape t1 t2 → same_shape t2 t1.
Proof.
  induction t1 as [s|c|items IH|kvs IH] using pyval_nested_ind; intros t2;
    inversion 1 as [|? items' Hitems|? kvs' Hkvs]; subst; constructor.
  - apply Forall2_flip. eapply Forall2_In_impl; [exact Hitems|].
    rewrite List.Forall_forall in IH. intros x y Hin. by apply IH.
  - apply Forall2_flip. eapply Forall2_In_impl; [exact Hkvs|].
    rewrite List.Forall_forall in IH. intros x y Hin [Hk Hv]. simpl.
    split; [done|]. by apply (IH x).
Qed.

Lemma same_shape_trans (t1 : pyval) : ∀ t2 t3,
  same_shape t1 t2 → same_shape t2 t3 → same_shape t1 t3.
Proof.
  induction t1 as [s|c|items IH|kvs IH] using pyval_nested_ind;
    intros t2 t3;
    inversion 1 as [|? items2 Hitems|? kvs2 Hkvs]; subst;
    inversion 1 as [|? items3 Hitems'|? kvs3 Hkvs']; subst; constructor.
  - eapply Forall2_trans_In; [|done..].
    rewrite List.Forall_forall in IH. intros x y z Hin. by apply IH.
  - eapply Forall2_trans_In; [|done..].
    rewrite List.Forall_forall in IH.
    intros x y z Hin [Hk Hv] [Hk' Hv']. split; [congruence|].
    by eapply (IH x).
Qed.

Lemma same_shape_doc_tree (t1 : pyval) : ∀ t2, same_shape t1 t2 → doc_tree t2.
Proof.
  induction t1 as [s|c|items IH|kvs IH] using pyval_nested_ind; intros t2;
    inversion 1 as [|? items' Hitems|? kvs' Hkvs]; subst; constructor.
  - rewrite List.Forall_forall in IH. clear -IH Hitems.
    induction Hitems as [|x y l k Hxy _ IHl]; constructor.
    + apply (IH x); [by left | done].
    + apply IHl. intros a Ha. apply IH. by right.
  - rewrite List.Forall_forall in IH. clear -IH Hkvs.
    induction Hkvs as [|x y l k [_ Hxy] _ IHl]; constructor.
    + apply (IH x); [by left | done].
    + apply IHl. intros a Ha. apply IH. by right.
Qed.

Lemma same_shape_keys kvs1 kvs2 :
  Forall2 (λ kv kv' : string * pyval,
             fst kv = fst kv' ∧ same_shape (snd kv) (snd kv')) kvs1 kvs2 →
  keys kvs1 = keys kvs2.
Proof.
  induction 1 as [|x y l k [Hk _] _ IH]; [done|]. unfold keys in *. simpl.
  by rewrite Hk, IH.
Qed.

Lemma same_shape_entry kvs1 kvs2 k v2 :
  Forall2 (λ kv kv' : string * pyval,
             fst kv = fst kv' ∧ same_shape (snd kv) (snd kv')) kvs1 kvs2 →
  In (k, v2) kvs2 → ∃ v1, In (k, v1) kvs1 ∧ same_shape v1 v2.
Proof.
  induction 1 as [|[k1 v1] [k2 v2'] l l' [Hk Hv] _ IH]; [done|].
  simpl in *. intros [[= -> ->]|Hin].
  - exists v1. subst. auto.
  - destruct (IH Hin) as (v & ? & ?). eauto.
Qed.

Lemma getitem_In_NoDup (d : dict) k v :
  NoDup (keys d) → In (k, v) d → getitem d k = Some v.
Proof.
  induction d as [|[k' v'] d IH]; [done|]. simpl.
  intros [Hk Hnd]%NoDup_cons [[= -> ->]|Hin].
  - by rewrite decide_True.
  - rewrite decide_False; [by apply IH|].
    intros ->. apply Hk, list_elem_of_In, in_map_iff. by exists (k, v).
Qed.

Section entries_succeed.
Context (lang filename : string).

(** The loop over the entries of a map succeeds if every entry can be
    written over what the accumulator holds at its key. *)
Lemma merge_entries_Ok kvs : ∀ base,
  NoDup (keys kvs) →
  (∀ k v, In (k, v) kvs →
     ∃ x, merge_slot lang filename k v (getitem base k) = Ok x) →
  ∃ base', _merge_nested lang filename base (VDict kvs) = Ok base'.
Proof.
  intros base. rewrite merge_dict. revert base.
  induction kvs as [|[key value] kvs IH]; cbn [for_fold keys map fst];
    intros base Hnd Hslots; [eauto|].
  apply NoDup_cons in Hnd as [Hkey Hnd].
  rewrite merge_entry_slot.
  destruct (Hslots key value) as [x ->]; [by left|]. cbn [bind].
  apply IH; [done|]. intros k v Hin.
  rewrite getitem_setitem_ne; [apply Hslots; by right|].
  intros ->. apply Hkey, list_elem_of_In, in_map_iff. by exists (k, v).
Qed.
End entries_succeed.

Section shape_accepted.
Context (lang1 file1 lang2 file2 : string).

Local Abbreviation merge1 := (_merge_nested lang1 file1).
Local Abbreviation merge2 := (_merge_nested lang2 file2).

(** After a tree has merged, every tree of the same shape merges, under
    whatever tag. *)
Lemma merge_same_shape_Ok (t1 : pyval) : ∀ t2 base acc1,
  same_shape t1 t2 → unique_keys t1 →
  merge1 base t1 = Ok acc1 → ∃ acc2, merge2 acc1 t2 = Ok acc2.
Proof.
  induction t1 as [s|c|items IH|kvs IH IHitems] using pyval_merge_ind;
    intros t2 base acc1 Hshape Huniq; try discriminate.
  inversion Hshape as [| |? kvs2 Hkvs]; subst. intros Hm.
  pose proof (unique_keys_NoDup _ Huniq) as Hnd.
  apply merge_entries_Ok; [by rewrite <- (same_shape_keys _ _ Hkvs)|].
  intros k v2 Hin2.
  destruct (same_shape_entry _ _ _ _ Hkvs Hin2) as (v1 & Hin1 & Hv).
  pose proof (merge_getitem _ _ _ _ _ k Hnd Hm) as Hk.
  rewrite (getitem_In_NoDup _ _ _ Hnd Hin1) in Hk.
  destruct Hk as (x1 & Hx1 & ->).
  pose proof (unique_keys_value _ _ _ Huniq Hin1) as Huv.
  unfold merge_slot in *.
  destruct Hv as [s s'|items1 items2 Hitems|kvs1 kvs2' Hkvs'].
  - destruct (default (VDict []) (getitem base k)); try discriminate.
    injection Hx1 as <-. simpl. eauto.
  - destruct (default (VList []) (getitem base k)) as [| |dst|];
      try discriminate.
    apply bind_Ok in Hx1 as (dst1 & Hloop & [= <-]). simpl (default _ _).
    pose proof (merge_grown_lookup _ _ _ _ _ _ Hloop) as (Hlen & _ & Hcells).
    pose proof (Forall2_length _ _ _ Hitems) as Hlen2.
    rewrite grow_id by lia.
    destruct (merge_items_Ok lang2 file2 k items2 0 dst1) as [dst2 ->];
      [simpl; lia| |simpl; eauto].
    intros j item2 old Hitem2 Hold. simpl in *.
    destruct (Forall2_lookup_r _ _ _ _ _ Hitems Hitem2)
      as (item1 & Hitem1 & Hs).
    destruct (Hcells _ _ Hitem1) as (c1 & Hc1 & Hj). simplify_eq.
    assert (In item1 items1) as Hin
      by (by eapply list_elem_of_In, list_elem_of_lookup_2).
    unfold merge_cell in *.
    destruct Hs as [s s'|its its' _|kvs1 kvs2' Hkvs']; [eauto|discriminate|].
    apply bind_Ok in Hc1 as (d1 & Hd1 & [= <-]).
    destruct (IHitems k items1 (VDict kvs1) Hin1 Hin (VDict kvs2') _ _
                (ss_dict _ _ Hkvs') (unique_keys_item _ _ Huv Hin) Hd1)
      as [d2 ->].
    simpl. eauto.
  - destruct (default (VDict []) (getitem base k)) as [| | |sub];
      try discriminate.
    apply bind_Ok in Hx1 as (sub1 & Hsub & [= <-]). simpl (default _ _).
    destruct (IH k (VDict kvs1) Hin1 (VDict kvs2') _ _
                (ss_dict _ _ Hkvs') Huv Hsub) as [sub2 ->].
    simpl. eauto.
Qed.
End shape_accepted.

Lemma merge_files_same_shape t0 rest : ∀ lang file tprev base acc0,
  Forall (λ entry : Path * pyval,
            same_shape t0 (snd entry) ∧ unique_keys (snd entry)) rest →
  same_shape t0 tprev → unique_keys tprev →
  _merge_nested lang file base tprev = Ok acc0 →
  ∃ merged, for_fold merge_file rest acc0 = Ok merged.
Proof.
  induction rest as [|[f t1] rest IH]; cbn [for_fold];
    intros lang file tprev base acc0 Hall Hprev Huniq Hm; [eauto|].
  apply Forall_cons in Hall as [[Hshape Huniq1] Hall].
  simpl in Hshape, Huniq1.
  assert (same_shape tprev t1) as Hstep
    by (eapply same_shape_trans; [by apply same_shape_sym | done]).
  destruct (merge_same_shape_Ok lang file (stem f) (path_str f) tprev t1
              base acc0 Hstep Huniq Hm) as [acc1 Hm1].
  assert (merge_file (f, t1) acc0 = Ok acc1) as ->.
  { apply merge_file_Ok. split; [by eapply same_shape_doc_tree | done]. }
  cbn [bind]. by eapply (IH (stem f) (path_str f) t1 acc0).
Qed.

(** X7: files of one shape always merge. If the first file of a run merges
    on its own, and every other file has the same shape as the first (the
    same keys in the same order, sequences of the same lengths, strings at
    the same places), then the whole run merges, whatever the stems and the
    strings of the files are. (The input maps have distinct keys, as Python
    dicts have.) *)
Theorem X7_same_shape_files_merge (first : Path) (t0 : pyval)
    (rest : list (Path * pyval)) (acc0 : dict) :
  unique_keys t0 →
  Forall (λ entry : Path * pyval,
            same_shape t0 (snd entry) ∧ unique_keys (snd entry)) rest →
  JsonMerger_merge [(first, t0)] = Ok acc0 →
  ∃ merged, JsonMerger_merge ((first, t0) :: rest) = Ok merged.
Proof.
  intros Huniq Hall Hfirst. unfold JsonMerger_merge in *.
  cbn [for_fold] in *. apply bind_Ok in Hfirst as (acc & Hm & [= ->]).
  rewrite Hm. cbn [bind]. apply merge_file_Ok in Hm as [Htree Hm].
  eapply (merge_files_same_shape t0 rest); [done | | done | done].
  by apply same_shape_refl.
Qed.

Lemma X7_same_shape_files_merge_witness :
  ∃ merged,
    JsonMerger_merge [(en_file, en_json); (ru_file, en_json_v2)] = Ok merged.
Proof.
  assert (unique_keys en_json) as Huniq by solve_unique_keys.
  assert (Forall (λ entry : Path * pyval,
                    same_shape en_json (snd entry) ∧ unique_keys (snd entry))
            [(ru_file, en_json_v2)]) as Hall.
  { apply List.Forall_cons; [|apply List.Forall_nil].
    split; [repeat constructor | solve_unique_keys]. }
  exact (X7_same_shape_files_merge en_file en_json [(ru_file, en_json_v2)] _
           Huniq Hall eq_refl).
Defined.

(** X8: a file that is followed by a file with the same stem and the same
    shape leaves no trace. Such pairs arise with [en.yaml] beside [en.yml],
    which the YAML glob both matches. If the run merges up to and including
    the first of the two, the run gives what it gives without that file: the
    same document or the same error. (The input maps have distinct keys, as
    Python dicts have.) *)
Theorem X8_superseded_file_leaves_no_trace (pre post : list (Path * pyval))
    (file1 file2 : Path) (t1 t2 : pyval) (acc1 : dict) :
  stem file1 = stem file2 → same_shape t1 t2 → unique_keys t1 →
  JsonMerger_merge (pre ++ [(file1, t1)]) = Ok acc1 →
  JsonMerger_merge (pre ++ (file1, t1) :: (file2, t2) :: post) =
  JsonMerger_merge (pre ++ (file2, t2) :: post).
Proof.
  intros Hstem Hshape Huniq. unfold JsonMerger_merge.
  rewrite !for_fold_app. cbn [for_fold].
  intros (mid & -> & (acc & [Htree Hm]%merge_file_Ok & [= ->])%bind_Ok)%bind_Ok.
  cbn [bind].
  destruct (overwrite_nested (stem file1) (path_str file1) (path_str file2)
              t1 t2 Hshape Huniq mid acc1 Hm) as (acc2 & Halone & Hafter).
  assert (doc_tree t2) as Htree2 by (by eapply same_shape_doc_tree).
  assert (merge_file (file1, t1) mid = Ok acc1) as ->
    by (by apply merge_file_Ok).
  cbn [bind].
  assert (merge_file (file2, t2) acc1 = Ok acc2) as ->
    by (apply merge_file_Ok; by rewrite <- Hstem).
  assert (merge_file (file2, t2) mid = Ok acc2) as ->
    by (apply merge_file_Ok; by rewrite <- Hstem).
  done.
Qed.

Lemma X8_superseded_file_leaves_no_trace_witness :
  JsonMerger_merge
    ([] ++ (en_file, en_json) :: (en_file, en_json_v2) :: [(ru_file, ru_json)])
  = JsonMerger_merge ([] ++ (en_file, en_json_v2) :: [(ru_file, ru_json)]).
Proof.
  assert (unique_keys en_json) as Huniq by solve_unique_keys.
  assert (same_shape en_json en_json_v2) as Hshape by (repeat constructor).
  exact (X8_superseded_file_leaves_no_trace [] [(ru_file, ru_json)]
           en_file en_file en_json en_json_v2 _ eq_refl Hshape Huniq eq_refl).
Defined.

(** ** Kinds that do not fit *)

(** X14: every branch of [_merge_nested] checks what the accumulator holds.
    When the keys before [key] merge and the accumulator holds [old] at
    [key], the merge fails with the StructureMismatch error naming [key] and
    the file if the incoming value is a sequence and [old] is not, or if the
    incoming value is a map or a leaf and [old] is not a map. So a sequence
    never meets anything but a sequence, in either order. *)
Theorem X14_kind_mismatch_is_reported (lang filename key : string)
    (value old : pyval) (pre post base acc : dict) :
  ¬ In key (keys pre) →
  _merge_nested lang filename base (VDict pre) = Ok acc →
  getitem base key = Some old →
  (if is_list value then is_list old else is_mapping old) = false →
  _merge_nested lang filename base (VDict (pre ++ (key, value) :: post)) =
    Raise (StructureMismatch key filename).
Proof.
  intros Hkey Hpre Hold Hfit. rewrite !merge_dict in *.
  rewrite for_fold_app, Hpre.
  pose proof (for_fold_entry_notin _ _ _ _ _ _ Hpre Hkey) as Hacc.
  rewrite Hold in Hacc. cbn [bind for_fold].
  rewrite merge_entry_slot, Hacc. unfold merge_slot.
  by destruct value, old.
Qed.

Lemma X14_kind_mismatch_is_reported_witness :
  _merge_nested "ru" "ru.json" [("items", VDict [("en", VStr "a")])]
    (VDict ([] ++ ("items", VList [VStr "b"]) :: [])) =
    Raise (StructureMismatch "items" "ru.json").
Proof.
  refine (X14_kind_mismatch_is_reported "ru" "ru.json" "items"
            (VList [VStr "b"]) (VDict [("en", VStr "a")]) [] []
            [("items", VDict [("en", VStr "a")])]
            [("items", VDict [("en", VStr "a")])] _ eq_refl eq_refl eq_refl).
  simpl. tauto.
Defined.

(** ** [YamlMerger.merge] *)

Lemma yaml_merge_file_truthy float_is_zero file loaded merged :
  truthy float_is_zero loaded = true →
  yaml_merge_file float_is_zero (file, loaded) merged =
    merge_file (file, loaded) merged.
Proof. unfold yaml_merge_file, merge_file, or_empty. by intros ->. Qed.

Lemma yaml_merge_file_falsy float_is_zero file loaded merged :
  truthy float_is_zero loaded = false →
  yaml_merge_file float_is_zero (file, loaded) merged = Ok merged.
Proof. unfold yaml_merge_file, or_empty. by intros ->. Qed.

Lemma yaml_merge_files float_is_zero files : ∀ acc0,
  for_fold (yaml_merge_file float_is_zero) files acc0 =
  for_fold merge_file
    (List.filter (λ entry : Path * pyval, truthy float_is_zero (snd entry))
       files) acc0.
Proof.
  induction files as [|[file loaded] files IH]; intros acc0;
    cbn [for_fold List.filter snd]; [done|].
  destruct (truthy float_is_zero loaded) eqn:Ht.
  - rewrite yaml_merge_file_truthy by done. cbn [for_fold].
    destruct (merge_file (file, loaded) acc0); simpl; [apply IH | done].
  - rewrite yaml_merge_file_falsy by done. simpl. apply IH.
Qed.

(** X9: the YAML merger is the JSON merger run on the documents that are
    not empty. A YAML file whose document is false in Python's sense (an
    empty file or [null], [false], [0], the empty string, the empty sequence,
    the empty map) is replaced by [{}] and so changes nothing and raises
    nothing; every other file goes through the same validation and merge as
    a JSON file. So a file holding only [null] or [0] is skipped by the YAML
    merger, where the JSON merger raises InvalidStructure for it, and a file
    holding only an empty sequence is skipped, where the JSON merger stops
    with [AttributeError]. *)
Theorem X9_yaml_skips_empty_documents (float_is_zero : string → bool)
    (files : list (Path * pyval)) :
  YamlMerger_merge float_is_zero files =
    JsonMerger_merge
      (List.filter (λ entry : Path * pyval, truthy float_is_zero (snd entry))
         files) ∧
  (∀ file loaded,
     In loaded [VScalar SNone; VScalar (SInt 0); VScalar (SBool false);
                VStr EmptyString; VList []; VDict []] →
     YamlMerger_merge float_is_zero [(file, loaded)] = Ok []) ∧
  (∀ file n,
     JsonMerger_merge [(file, VScalar SNone)] =
       Raise (InvalidStructure (path_str file) (VScalar SNone)) ∧
     JsonMerger_merge [(file, VScalar (SInt n))] =
       Raise (InvalidStructure (path_str file) (VScalar (SInt n))) ∧
     JsonMerger_merge [(file, VList [])] =
       Raise (AttributeError (no_items_message (VList [])))).
Proof.
  split; [apply yaml_merge_files|]. split.
  - intros file loaded Hin. simpl in Hin.
    by repeat destruct Hin as [<-|Hin].
  - done.
Qed.

(** ** [JsMerger._strip_template_literals] *)

Lemma append_nil_l (s : string) : EmptyString +:+ s = s.
Proof. reflexivity. Qed.

Lemma append_cons c (s1 s2 : string) :
  String c s1 +:+ s2 = String c (s1 +:+ s2).
Proof. reflexivity. Qed.

Lemma append_nil_r (s : string) : s +:+ EmptyString = s.
Proof. induction s as [|c s IH]; [done|]. by rewrite append_cons, IH. Qed.

Lemma append_assoc (s1 s2 s3 : string) :
  (s1 +:+ s2) +:+ s3 = s1 +:+ (s2 +:+ s3).
Proof.
  induction s1 as [|c s1 IH]; [done|]. by rewrite !append_cons, IH.
Qed.

Lemma length_append (s1 s2 : string) :
  String.length (s1 +:+ s2) = (String.length s1 + String.length s2)%nat.
Proof.
  induction s1 as [|c s1 IH]; [done|]. rewrite append_cons. simpl.
  by rewrite IH.
Qed.

Lemma string_length_ind (P : string → Prop) :
  (∀ s, (∀ t, (String.length t < String.length s)%nat → P t) → P s) →
  ∀ s, P s.
Proof.
  intros H s. remember (String.length s) as n eqn:Hn. revert s Hn.
  induction n as [n IH] using lt_wf_ind. intros s ->. apply H.
  intros t Ht. by eapply IH.
Qed.

Lemma plain_true c : plain c = true ↔ c ≠ backtick ∧ c ≠ backslash.
Proof.
  unfold plain. rewrite andb_true_iff, !negb_true_iff.
  by rewrite <- !not_true_iff_false, !Ascii.eqb_eq.
Qed.

Lemma match_body_plain c rest :
  plain c = true →
  match_body (String c rest) =
    match match_body rest with
    | Some (body, after) => Some (String c body, after)
    | None => None
    end.
Proof.
  intros [Hbt Hbs]%plain_true. simpl.
  apply Ascii.eqb_neq in Hbt, Hbs. by rewrite Hbt, Hbs.
Qed.

Lemma match_body_plain_run run s :
  plain_run run →
  match_body (run +:+ s) =
    match match_body s with
    | Some (body, after) => Some (run +:+ body, after)
    | None => None
    end.
Proof.
  induction 1 as [|c run Hc _ IH].
  - rewrite append_nil_l. by destruct (match_body s) as [[]|].
  - rewrite append_cons, match_body_plain, IH by done.
    by destruct (match_body s) as [[]|].
Qed.

Lemma match_body_escapes rest after :
  escapes rest → match_body (rest +:+ String backtick after) = Some (rest, after).
Proof.
  induction 1 as [|d run rest Hrun _ IH]; [done|].
  rewrite !append_cons. cbn [match_body].
  change (Ascii.eqb backslash backtick) with false.
  change (Ascii.eqb backslash backslash) with true. cbn match.
  by rewrite append_assoc, match_body_plain_run, IH.
Qed.

Lemma match_body_pattern body after :
  body_pattern body →
  match_body (body +:+ String backtick after) = Some (body, after).
Proof.
  intros (run & rest & -> & Hrun & Hrest).
  by rewrite append_assoc, match_body_plain_run, match_body_escapes.
Qed.

Lemma body_pattern_nil : body_pattern EmptyString.
Proof. exists EmptyString, EmptyString. repeat split; constructor. Qed.

Lemma body_pattern_plain c body :
  plain c = true → body_pattern body → body_pattern (String c body).
Proof.
  intros Hc (run & rest & -> & Hrun & Hrest).
  exists (String c run), rest. repeat split; [by constructor | done].
Qed.

Lemma body_pattern_escape d body :
  body_pattern body → body_pattern (String backslash (String d body)).
Proof.
  intros (run & rest & -> & Hrun & Hrest).
  exists EmptyString, (String backslash (String d (run +:+ rest))).
  repeat split; by constructor.
Qed.

Lemma match_body_Some s : ∀ body after,
  match_body s = Some (body, after) →
  s = body +:+ String backtick after ∧ body_pattern body.
Proof.
  induction s as [s IH] using string_length_ind.
  destruct s as [|c rest]; [done|]. intros body after. simpl.
  destruct (Ascii.eqb_spec c backtick) as [->|Hbt].
  { intros [= <- <-]. split; [done | apply body_pattern_nil]. }
  destruct (Ascii.eqb_spec c backslash) as [->|Hbs].
  - destruct rest as [|d rest']; [done|].
    destruct (match_body rest') as [[b a]|] eqn:Hm; [|done].
    intros [= <- <-]. destruct (IH rest') with b a as [-> Hb];
      [simpl; lia | done|].
    split; [done | by apply body_pattern_escape].
  - destruct (match_body rest) as [[b a]|] eqn:Hm; [|done].
    intros [= <- <-]. destruct (IH rest) with b a as [-> Hb];
      [simpl; lia | done|].
    split; [done|]. apply body_pattern_plain; [|done]. by apply plain_true.
Qed.

Lemma match_body_spec s body after :
  match_body s = Some (body, after) ↔
  s = body +:+ String backtick after ∧ body_pattern body.
Proof.
  split; [apply match_body_Some|]. intros [-> Hb]. by apply match_body_pattern.
Qed.

Lemma match_body_None rest : match_body rest = None ↔ unclosed rest.
Proof.
  split.
  - intros Hnone body after Hb ->. by rewrite match_body_pattern in Hnone.
  - intros Hun. destruct (match_body rest) as [[b a]|] eqn:Hm; [|done].
    apply match_body_Some in Hm as [-> Hb]. by destruct (Hun b a Hb).
Qed.

Lemma match_body_length s body after :
  match_body s = Some (body, after) →
  String.length s = (String.length body + 1 + String.length after)%nat.
Proof.
  intros [-> _]%match_body_Some. rewrite length_append. simpl. lia.
Qed.

Lemma sub_backtick_fuel : ∀ fuel1 fuel2 src,
  (String.length src ≤ fuel1)%nat → (String.length src ≤ fuel2)%nat →
  sub_backtick fuel1 src = sub_backtick fuel2 src.
Proof.
  induction fuel1 as [|fuel1 IH]; intros fuel2 src H1 H2.
  - destruct src; simpl in H1; [|lia]. by destruct fuel2.
  - destruct src as [|c rest]; [by destruct fuel2|].
    destruct fuel2 as [|fuel2]; [simpl in H2; lia|]. simpl in *.
    destruct (Ascii.eqb c backtick).
    + destruct (match_body rest) as [[body after]|] eqn:Hm.
      * apply match_body_length in Hm. f_equal. apply IH; lia.
      * f_equal. apply IH; lia.
    + f_equal. apply IH; lia.
Qed.

(** The search of [_re_backtick.sub], step by step. *)
Lemma strip_cons c rest :
  _strip_template_literals (String c rest) =
    if Ascii.eqb c backtick then
      match match_body rest with
      | Some (body, after) => repl body +:+ _strip_template_literals after
      | None => String c (_strip_template_literals rest)
      end
    else String c (_strip_template_literals rest).
Proof.
  unfold _strip_template_literals. simpl.
  destruct (Ascii.eqb c backtick).
  - destruct (match_body rest) as [[body after]|] eqn:Hm.
    + apply match_body_length in Hm. f_equal. apply sub_backtick_fuel; lia.
    + done.
  - done.
Qed.

Lemma strip_no_backtick_app pre s :
  no_backtick pre = true →
  _strip_template_literals (pre +:+ s) = pre +:+ _strip_template_literals s.
Proof.
  induction pre as [|c pre IH]; [done|]. cbn [no_backtick].
  intros [Hc Hpre]%andb_true_iff. apply negb_true_iff in Hc.
  by rewrite append_cons, strip_cons, Hc, IH.
Qed.

(** Where an attempt fails, no later attempt succeeds. *)
Lemma strip_unmatched s :
  match_body s = None → _strip_template_literals s = s.
Proof.
  induction s as [s IH] using string_length_ind.
  destruct s as [|c rest]; [done|]. simpl match_body.
  destruct (Ascii.eqb c backtick) eqn:Hbt; [done|].
  rewrite strip_cons, Hbt.
  destruct (Ascii.eqb c backslash).
  - destruct rest as [|d rest']; [done|].
    destruct (match_body rest') as [[b a]|] eqn:Hm; [done|]. intros _.
    rewrite strip_cons, Hm. rewrite (IH rest') by (simpl; lia || done).
    by destruct (Ascii.eqb d backtick).
  - destruct (match_body rest) as [[b a]|] eqn:Hm; [done|]. intros _.
    by rewrite (IH rest) by (simpl; lia || done).
Qed.

Lemma escape_ordinary body : all_ordinary body = true → escape body = body.
Proof.
  induction body as [|c body IH]; [done|]. cbn [all_ordinary escape].
  intros [Hc Hbody]%andb_true_iff. rewrite (IH Hbody).
  unfold ordinary in Hc.
  apply andb_true_iff in Hc as [[Hplain Hdq]%andb_true_iff Hctl].
  apply plain_true in Hplain as [_ Hbs].
  apply negb_true_iff in Hdq, Hctl. apply Ascii.eqb_neq in Hbs.
  unfold escape_char. rewrite Hdq, Hbs, Hctl. apply Nat.ltb_ge in Hctl.
  rewrite (proj2 (Nat.eqb_neq _ 8)), (proj2 (Nat.eqb_neq _ 12)),
    (proj2 (Nat.eqb_neq _ 10)), (proj2 (Nat.eqb_neq _ 13)),
    (proj2 (Nat.eqb_neq _ 9)) by lia.
  done.
Qed.

Lemma all_ordinary_pattern body : all_ordinary body = true → body_pattern body.
Proof.
  intros Hbody. exists body, EmptyString. rewrite append_nil_r.
  split; [done|]. split; [|constructor].
  induction body as [|c body IH]; [constructor|]. cbn [all_ordinary] in Hbody.
  apply andb_true_iff in Hbody as [Hc Hbody]. constructor; [|by apply IH].
  unfold ordinary in Hc. by apply andb_true_iff in Hc as [[? _]%andb_true_iff _].
Qed.

Lemma strip_literal pre body post :
  no_backtick pre = true → body_pattern body →
  _strip_template_literals
    (pre +:+ String backtick (body +:+ String backtick post)) =
  pre +:+ repl body +:+ _strip_template_literals post.
Proof.
  intros Hpre Hbody.
  rewrite strip_no_backtick_app, strip_cons by done.
  change (Ascii.eqb backtick backtick) with true. cbn match.
  by rewrite match_body_pattern.
Qed.

(** X10: what the template-literal pattern matches. From the character
    after an opening backtick, [_re_backtick] matches exactly if the text is
    a body, a backtick and the rest, where the body is a run of characters
    other than backtick and backslash followed by any number of groups of a
    backslash, any character and such a run. There is at most one such
    split, so the match does not depend on how the pattern is tried: the
    literal ends at the first backtick that no backslash takes. *)
Theorem X10_template_literal_match (s : string) :
  (∀ body after,
     match_body s = Some (body, after) ↔
     s = body +:+ String backtick after ∧ body_pattern body) ∧
  (∀ body1 after1 body2 after2,
     body_pattern body1 → body_pattern body2 →
     s = body1 +:+ String backtick after1 →
     s = body2 +:+ String backtick after2 →
     body1 = body2 ∧ after1 = after2).
Proof.
  split; [intros; apply match_body_spec|].
  intros body1 after1 body2 after2 H1 H2 E1 E2.
  pose proof (match_body_pattern body1 after1 H1) as M1.
  pose proof (match_body_pattern body2 after2 H2) as M2.
  rewrite <- E1 in M1. rewrite <- E2 in M2. split; congruence.
Qed.

(** X11: text outside template literals is copied. A source without any
    backtick is returned as it is, and the text before the first backtick of
    a source is copied unchanged in front of what is made of the rest. *)
Theorem X11_text_before_a_backtick_is_copied (pre s : string) :
  no_backtick pre = true →
  _strip_template_literals pre = pre ∧
  _strip_template_literals (pre +:+ s) = pre +:+ _strip_template_literals s.
Proof.
  intros Hpre. split; [|by apply strip_no_backtick_app].
  rewrite <- (append_nil_r pre) at 1.
  by rewrite strip_no_backtick_app, append_nil_r.
Qed.

Lemma X11_text_before_a_backtick_is_copied_witness :
  _strip_template_literals "export default { a: 1 }" =
    "export default { a: 1 }" ∧
  _strip_template_literals ("({ a: " +:+ "`b` })") =
    "({ a: " +:+ _strip_template_literals "`b` })".
Proof.
  split.
  - exact (proj1 (X11_text_before_a_backtick_is_copied
                    "export default { a: 1 }" EmptyString eq_refl)).
  - exact (proj2 (X11_text_before_a_backtick_is_copied
                    "({ a: " "`b` })" eq_refl)).
Defined.

(** X12: a backtick that is never closed changes nothing. If, after a
    backtick, the text has no backtick that closes a literal (none at all,
    or only backticks taken by a backslash, or the text ends in the middle of
    a backslash pair), then that backtick and all the text after it are
    returned unchanged: no later backtick opens a literal either. *)
Theorem X12_unclosed_backtick_is_kept (pre rest : string) :
  no_backtick pre = true → unclosed rest →
  _strip_template_literals (pre +:+ String backtick rest) =
    pre +:+ String backtick rest.
Proof.
  intros Hpre Hrest%match_body_None.
  rewrite strip_no_backtick_app, strip_cons by done.
  change (Ascii.eqb backtick backtick) with true. cbn match.
  by rewrite Hrest, strip_unmatched.
Qed.

Lemma X12_unclosed_backtick_is_kept_witness :
  _strip_template_literals
    ("a: " +:+ String backtick ("it" +:+ String backslash (String backtick "s")))
  = "a: " +:+ String backtick ("it" +:+ String backslash (String backtick "s")).
Proof.
  apply (X12_unclosed_backtick_is_kept "a: "
           ("it" +:+ String backslash (String backtick "s")) eq_refl).
  by apply match_body_None.
Defined.

(** X13: a template literal is replaced, and the search goes on behind it.
    For a source made of text without backtick, a literal (backtick, body,
    backtick) and more text, the result is the text, what [repl] makes of the
    body, and the result for the rest. A body with an interpolation mark is
    kept as it is, backticks included; any other body is written by
    [json.dumps]; and a body of ordinary characters only (no quote, no
    backslash, no control character) becomes the same text between double
    quotes. *)
Theorem X13_template_literal_is_replaced (pre body post : string) :
  no_backtick pre = true → body_pattern body →
  _strip_template_literals
    (pre +:+ String backtick (body +:+ String backtick post)) =
    pre +:+ repl body +:+ _strip_template_literals post ∧
  (mentions "${" body = true →
   _strip_template_literals
     (pre +:+ String backtick (body +:+ String backtick post)) =
     pre +:+ String backtick (body +:+ String backtick EmptyString) +:+
     _strip_template_literals post) ∧
  (mentions "${" body = false → all_ordinary body = true →
   _strip_template_literals
     (pre +:+ String backtick (body +:+ String backtick post)) =
     pre +:+ String dquote (body +:+ String dquote EmptyString) +:+
     _strip_template_literals post).
Proof.
  intros Hpre Hbody. rewrite strip_literal by done. unfold repl.
  split; [done|]. split.
  - by intros ->.
  - intros -> Hord. unfold json_dumps_str. by rewrite escape_ordinary.
Qed.

Lemma X13_template_literal_is_replaced_witness :
  _strip_template_literals
    ("({ hi: " +:+ String backtick ("Hello" +:+ String backtick " })")) =
    "({ hi: " +:+ String dquote ("Hello" +:+ String dquote EmptyString) +:+
    _strip_template_literals " })".
Proof.
  assert (body_pattern "Hello") as Hbody
    by (by apply all_ordinary_pattern).
  exact (proj2 (proj2 (X13_template_literal_is_replaced "({ hi: " "Hello"
                         " })" eq_refl Hbody)) eq_refl eq_refl).
Defined.

(** ** When a run merges *)

Lemma fits_empty v : is_list v = false → fits (Some (VDict [])) v.
Proof.
  intros Hv p o y. destruct p as [|[k|i] p]; simpl; try discriminate.
  intros [= <-] [= <-]. by rewrite Hv.
Qed.

Lemma fits_none v : fits None v.
Proof. by intros p o y. Qed.

Lemma fits_child old v st c :
  fits old v → child v st = Some c → fits (child_opt old st) c.
Proof.
  intros Hfit Hc p o y Ho Hy. apply (Hfit (st :: p)).
  - by rewrite lookup_opt_cons.
  - simpl. by rewrite Hc.
Qed.

Section slot_fits.
Context (lang filename : string).

Local Abbreviation merge := (_merge_nested lang filename).
Local Abbreviation slot := (merge_slot lang filename).
Local Abbreviation cell := (merge_cell lang filename).

(** After a slot is written, it has a node wherever the incoming value has
    one: a sequence for a sequence, a map for anything else. *)
Lemma merge_slot_lands_kind p : ∀ key v old x v',
  doc_tree v → unique_keys v →
  match old with Some o => slots_are_maps o = true | None => True end →
  slot key v old = Ok x →
  lookup_path v p = Some v' →
  ∃ n, lookup_path x p = Some n ∧
       is_list n = is_list v' ∧ is_mapping n = negb (is_list v').
Proof.
  induction p as [|st p IH]; intros key v old x v' Hv Huniq Hold Hslot.
  - simpl. intros [= ->]. exists x. split; [done|].
    by destruct (merge_slot_top _ _ _ _ _ _ Hv Hslot) as (_ & Hl & Hm & _).
  - simpl. destruct (child v st) as [vc|] eqn:Hvc; [|discriminate].
    intros Hp.
    pose proof (merge_slot_child _ _ _ _ _ _ st Hv Huniq Hold Hslot) as Hstep.
    rewrite Hvc in Hstep. destruct Hstep as (key' & x' & -> & Hslot').
    eapply IH; [by eapply doc_tree_child | by eapply unique_keys_child |
                by apply slots_are_maps_child_opt | done | done].
Qed.

(** A slot can only be written over what fits the incoming value. *)
Lemma merge_slot_fits key v old x :
  doc_tree v → unique_keys v →
  match old with Some o => slots_are_maps o = true | None => True end →
  slot key v old = Ok x → fits old v.
Proof.
  intros Hv Huniq Hold Hslot p. revert key v old x Hv Huniq Hold Hslot.
  induction p as [|st p IH]; intros key v old x Hv Huniq Hold Hslot o y;
    destruct old as [o0|]; try done; simpl.
  - intros [= ->] [= ->].
    destruct (merge_slot_top _ _ _ _ _ _ Hv Hslot) as (Hkind & Hl & Hm & _).
    destruct (Hkind _ eq_refl) as (Hmap & Hlist & _). split; congruence.
  - destruct (child o0 st) as [oc|] eqn:Ho; [|discriminate].
    destruct (child v st) as [vc|] eqn:Hvc; [|discriminate].
    intros Hop Hvp.
    pose proof (merge_slot_child _ _ _ _ (Some o0) _ st Hv Huniq Hold Hslot)
      as Hstep.
    rewrite Hvc in Hstep. destruct Hstep as (key' & x' & _ & Hslot').
    simpl in Hslot'. rewrite Ho in Hslot'.
    eapply (IH key' vc (Some oc) x'); [by eapply doc_tree_child |
                                       by eapply unique_keys_child | |
                                       done | done | done].
    by destruct (slots_are_maps_child _ _ _ Hold Ho).
Qed.

(** A valid tree of a shape the merge accepts merges into whatever fits
    it. *)
Lemma merge_fits_Ok (t : pyval) : ∀ base,
  doc_tree t → mergeable t = true → unique_keys t →
  fits (Some (VDict base)) t →
  ∃ acc, merge base t = Ok acc.
Proof.
  induction t as [s|c|items IH|kvs IH IHitems] using pyval_merge_ind;
    intros base Htree Hm Huniq Hfit; try discriminate.
  pose proof (unique_keys_NoDup _ Huniq) as Hnd.
  apply merge_entries_Ok; [done|]. intros k v Hin.
  simpl in Hm. rewrite forallb_forall in Hm.
  specialize (Hm _ Hin); simpl in Hm.
  pose proof (unique_keys_value _ _ _ Huniq Hin) as Huv.
  pose proof (doc_tree_value _ _ _ Htree Hin) as Htv.
  assert (fits (getitem base k) v) as Hfitv.
  { apply (fits_child (Some (VDict base)) (VDict kvs) (Key k)); [done|].
    simpl. by apply getitem_In_NoDup. }
  assert (∀ o, getitem base k = Some o →
               is_list o = is_list v ∧ is_mapping o = negb (is_list v))
    as Hkind.
  { intros o Ho. apply (Hfitv [] o v); [by rewrite Ho | done]. }
  unfold merge_slot.
  destruct v as [s|c|items|kvs'].
  - destruct (getitem base k) as [o|]; simpl; [|eauto].
    destruct (Hkind o eq_refl) as [_ Ho]. destruct o; try discriminate. eauto.
  - inversion Htv.
  - assert (∃ dst, default (VList []) (getitem base k) = VList dst ∧
                   fits (Some (VList dst)) (VList items))
      as (dst & -> & Hfitl).
    { destruct (getitem base k) as [o|]; simpl.
      - destruct (Hkind o eq_refl) as [Ho _].
        destruct o; try discriminate. eauto.
      - exists []. split; [done|].
        intros [|[k'|i] p] o y; simpl; rewrite ?lookup_nil;
          try discriminate.
        by intros [= <-] [= <-]. }
    destruct (merge_items_Ok lang filename k items 0
                (grow dst (length items))) as [dst' ->]; [| |simpl; eauto].
    { rewrite length_grow. simpl. lia. }
    intros j item old Hitem Hold. simpl in *.
    assert (In item items) as Hinitem
      by (by eapply list_elem_of_In, list_elem_of_lookup_2).
    rewrite forallb_forall in Hm. specialize (Hm _ Hinitem).
    unfold merge_cell.
    destruct item as [s|c|its|kvs'']; try discriminate; [eauto|].
    destruct (IHitems k items (VDict kvs'') Hin Hinitem
                match old with VDict c0 => c0 | _ => [] end) as [d ->];
      [by eapply doc_tree_item | done | by eapply unique_keys_item | |
       simpl; eauto].
    rewrite lookup_grow in Hold.
    destruct old as [| | |c0]; try (by apply fits_empty).
    case_decide; [|case_decide; simplify_eq; by apply fits_empty].
    pose proof (fits_child (Some (VList dst)) (VList items) (Index j) _
                  Hfitl Hitem) as Hfitc.
    simpl in Hfitc. by rewrite Hold in Hfitc.
  - assert (∃ sub, default (VDict []) (getitem base k) = VDict sub ∧
                   fits (Some (VDict sub)) (VDict kvs'))
      as (sub & -> & Hfits).
    { destruct (getitem base k) as [o|]; simpl.
      - destruct (Hkind o eq_refl) as [_ Ho].
        destruct o; try discriminate. eauto.
      - exists []. split; [done|]. by apply fits_empty. }
    destruct (IH k (VDict kvs') Hin sub Htv Hm Huv Hfits) as [d ->].
    simpl. eauto.
Qed.
End slot_fits.

(** What fits a tree still fits it after another tree that does not clash
    with it has been merged. *)
Lemma merge_keeps_fits lang filename langs langs0 base t acc u :
  doc_tree t → unique_keys t → merged_tree langs (VDict base) = true →
  _merge_nested lang filename base t = Ok acc →
  lang ∈ langs0 → keys_avoid langs0 u = true → ¬ clash t u →
  fits (Some (VDict base)) u → fits (Some (VDict acc)) u.
Proof.
  intros Htree Huniq Hshape Hm Hlang Havoid Hclash Hfit p n y Hn Hy.
  simpl in Hn.
  destruct (merge_slot_origin lang filename p "" t (Some (VDict base))
              (VDict acc) n Htree Huniq (merged_tree_slots _ _ Hshape)
              (merge_as_slot _ _ _ _ _ _ Hm) Hn)
    as [(n' & Hn' & Hs & Hmap & Hlist)|Horigin].
  - destruct (Hfit p n' y Hn' Hy). split; congruence.
  - assert (∀ x, lookup_path t p = Some x → is_list x = is_list y) as Hsame.
    { intros x Hx. destruct (bool_decide (is_list x = is_list y)) eqn:Hd;
        [by apply bool_decide_eq_true in Hd|].
      apply bool_decide_eq_false in Hd. destruct Hclash. by exists p, x, y. }
    destruct n as [s|c|items|kvs]; simpl in Horigin.
    + destruct Horigin as (q & s' & -> & _).
      destruct (keys_avoid_path langs0 _ u y Havoid Hy lang Hlang).
      apply elem_of_app. right. apply list_elem_of_here.
    + done.
    + destruct Horigin as [its Hits]. rewrite <- (Hsame _ Hits). done.
    + unfold contributes in Horigin.
      destruct (lookup_path t p) as [[s| | |kvs']|] eqn:Ht; try discriminate;
        rewrite <- (Hsame _ eq_refl); done.
Qed.

Lemma merge_files_Ok_of_fits langs0 files : ∀ langs acc0,
  merged_tree langs (VDict acc0) = true →
  (∀ l, l ∈ run_langs files → l ∈ langs0) →
  (∀ f t, In (f, t) files →
     doc_tree t ∧ mergeable t = true ∧ unique_keys t ∧
     keys_avoid langs0 t = true ∧ fits (Some (VDict acc0)) t) →
  (∀ f t g u, In (f, t) files → In (g, u) files → ¬ clash t u) →
  ∃ merged, for_fold merge_file files acc0 = Ok merged.
Proof.
  induction files as [|[f t] files IH]; cbn [for_fold];
    intros langs acc0 Hshape Hlangs Hall Hclash; [eauto|].
  destruct (Hall f t) as (Htree & Hm & Huniq & Havoid & Hfit); [by left|].
  destruct (merge_fits_Ok (stem f) (path_str f) t acc0 Htree Hm Huniq Hfit)
    as [acc1 Hacc1].
  assert (merge_file (f, t) acc0 = Ok acc1) as Hfile
    by (by apply merge_file_Ok).
  rewrite Hfile. cbn [bind].
  apply (IH (langs ++ [stem f])).
  - by eapply merge_file_shape.
  - intros l Hl. apply Hlangs. simpl. by apply list_elem_of_further.
  - intros g u Hin.
    destruct (Hall g u) as (Htu & Hmu & Huu & Hau & Hfu); [by right|].
    split; [done|]. split; [done|]. split; [done|]. split; [done|].
    eapply (merge_keeps_fits (stem f) (path_str f) langs langs0 acc0 t);
      try done.
    + apply Hlangs. simpl. apply list_elem_of_here.
    + apply (Hclash f t g u); [by left | by right].
  - intros g u g' u' Hin Hin'. apply (Hclash g u g' u'); by right.
Qed.

Lemma grown_kind o n :
  grown o n → is_list n = is_list o ∧ is_mapping n = is_mapping o.
Proof.
  destruct o; simpl.
  - by intros ->.
  - by intros ->.
  - by intros (? & -> & _).
  - by intros (? & -> & _).
Qed.

(** In a run that merges, a file and a later file never clash. *)
Lemma merge_files_agree langs0 l1 f t l2 g u l3 merged p x y :
  Forall (λ entry : Path * pyval, unique_keys (snd entry))
    (l1 ++ (f, t) :: l2 ++ (g, u) :: l3) →
  (∀ l, l ∈ run_langs l2 → l ∈ langs0) →
  keys_avoid langs0 t = true →
  JsonMerger_merge (l1 ++ (f, t) :: l2 ++ (g, u) :: l3) = Ok merged →
  lookup_path t p = Some x → lookup_path u p = Some y →
  is_list x = is_list y.
Proof.
  intros [_ [Hut [Hu2 [Huu _]%Forall_cons]%Forall_app]%Forall_cons]%Forall_app
         Hlangs Havoid (mid & acc1 & Hpre & Hft & Hrest)%merge_files_split
         Hx Hy.
  simpl in Hut, Huu. rewrite for_fold_app in Hrest. cbn [for_fold] in Hrest.
  apply bind_Ok in Hrest as (acc2 & Hl2 & (acc3 & Hgu & _)%bind_Ok).
  pose proof (merge_files_shape l1 [] [] mid eq_refl Hpre) as Hshape0.
  pose proof (merge_file_shape _ _ _ _ _ Hshape0 Hft) as Hshape1.
  pose proof (merge_files_shape l2 _ _ _ Hshape1 Hl2) as Hshape2.
  apply merge_file_Ok in Hft as [Htt Hft].
  apply merge_file_Ok in Hgu as [Htu Hgu].
  destruct (merge_slot_lands_kind (stem f) (path_str f) p "" t
              (Some (VDict mid)) (VDict acc1) x Htt Hut
              (merged_tree_slots _ _ Hshape0)
              (merge_as_slot _ _ _ _ _ _ Hft) Hx) as (n1 & Hn1 & Hl1 & Hm1).
  destruct (merge_files_grows l2 _ _ _ p n1 Hu2 Hshape1 Hl2 Hn1)
    as (n2 & Hn2 & Hg).
  { intros l Hl. eapply (keys_avoid_path langs0 p t x); eauto. }
  apply grown_kind in Hg as [Hgl Hgm].
  destruct (merge_slot_fits (stem g) (path_str g) "" u (Some (VDict acc2))
              (VDict acc3) Htu Huu (merged_tree_slots _ _ Hshape2)
              (merge_as_slot _ _ _ _ _ _ Hgu) p n2 y Hn2 Hy) as [Hly _].
  congruence.
Qed.

Lemma in_two_split {A} (a b : A) (l : list A) :
  In a l → In b l →
  a = b ∨ (∃ l1 l2 l3, l = l1 ++ a :: l2 ++ b :: l3) ∨
  (∃ l1 l2 l3, l = l1 ++ b :: l2 ++ a :: l3).
Proof.
  intros (l1 & l2 & ->)%in_split [Hb|[Hb|Hb]]%in_app_or.
  - apply in_split in Hb as (m1 & m2 & ->). right. right.
    exists m1, m2, l2. by rewrite <- app_assoc.
  - by left.
  - apply in_split in Hb as (m1 & m2 & ->). right. left.
    by exists l1, m1, m2.
Qed.

Lemma merge_files_Ok_iff langs0 files :
  (∀ l, l ∈ run_langs files → l ∈ langs0) →
  Forall (λ entry : Path * pyval,
            unique_keys (snd entry) ∧ keys_avoid langs0 (snd entry) = true)
    files →
  (∃ merged, JsonMerger_merge files = Ok merged) ↔
  Forall (λ entry : Path * pyval,
            doc_tree (snd entry) ∧ mergeable (snd entry) = true) files ∧
  (∀ f t g u, In (f, t) files → In (g, u) files → ¬ clash t u).
Proof.
  intros Hlangs Hall.
  assert (Forall (λ entry : Path * pyval, unique_keys (snd entry)) files)
    as Huniq by (eapply Forall_impl; [exact Hall | by intros ? [? ?]]).
  rewrite List.Forall_forall in Hall. split.
  - intros [merged Hrun]. split.
    + apply List.Forall_forall. intros [f t] Hin.
      destruct (for_fold_Ok_each _ _ _ _ Hrun _ Hin) as (s & s' & Hft).
      apply merge_file_Ok in Hft as [Htree Hm]. simpl.
      split; [done | by eapply merge_Ok_mergeable].
    + assert (∀ l1 f t l2 g u l3 p x y,
                files = l1 ++ (f, t) :: l2 ++ (g, u) :: l3 →
                lookup_path t p = Some x → lookup_path u p = Some y →
                is_list x = is_list y) as Hagree.
      { intros l1 f t l2 g u l3 p x y -> Hx Hy.
        eapply (merge_files_agree langs0 l1 f t l2 g u l3); try done.
        - intros l Hl. apply Hlangs. unfold run_langs in *.
          rewrite map_app, elem_of_app. right. cbn [map].
          apply list_elem_of_further. rewrite map_app, elem_of_app. by left.
        - apply (Hall (f, t)). apply in_app_iff. right. by left. }
      intros f t g u Hin Hin' (p & x & y & Hx & Hy & Hne).
      destruct (in_two_split _ _ _ Hin Hin')
        as [[= <- <-]|[(l1 & l2 & l3 & E)|(l1 & l2 & l3 & E)]].
      * congruence.
      * apply Hne. by apply (Hagree _ _ _ _ _ _ _ p x y E).
      * apply Hne. symmetry. by apply (Hagree _ _ _ _ _ _ _ p y x E).
  - intros [Hvalid Hclash]. rewrite List.Forall_forall in Hvalid.
    apply (merge_files_Ok_of_fits langs0 files []); try done.
    intros f t Hin. destruct (Hall _ Hin) as [Hu Ha].
    destruct (Hvalid _ Hin) as [Ht Hm]. simpl in *.
    split; [done|]. split; [done|]. split; [done|]. split; [done|].
    apply fits_empty. by destruct t.
Qed.

(** X15: exactly when a run merges. Take files whose stems are not used as
    keys inside any of them. The run returns a document if and only if every
    file is a valid tree of a shape the merge accepts (a map at top level,
    strings and maps only as elements of sequences) and no two files clash,
    that is, there is no path at which one file has a sequence and another
    has a map or a string. A string in one file where another has a map is
    no obstacle. (The input maps have distinct keys, as Python dicts
    have.) *)
Theorem X15_when_a_run_merges (files : list (Path * pyval)) :
  Forall (λ entry : Path * pyval,
            unique_keys (snd entry) ∧
            keys_avoid (run_langs files) (snd entry) = true) files →
  (∃ merged, JsonMerger_merge files = Ok merged) ↔
  Forall (λ entry : Path * pyval,
            doc_tree (snd entry) ∧ mergeable (snd entry) = true) files ∧
  (∀ f t g u, In (f, t) files → In (g, u) files → ¬ clash t u).
Proof. intros Hall. by apply (merge_files_Ok_iff (run_langs files)). Qed.

Lemma X15_when_a_run_merges_witness :
  (∃ merged,
     JsonMerger_merge [(en_file, en_json); (ru_file, ru_json)] = Ok merged) ↔
  Forall (λ entry : Path * pyval,
            doc_tree (snd entry) ∧ mergeable (snd entry) = true)
    [(en_file, en_json); (ru_file, ru_json)] ∧
  (∀ f t g u,
     In (f, t) [(en_file, en_json); (ru_file, ru_json)] →
     In (g, u) [(en_file, en_json); (ru_file, ru_json)] → ¬ clash t u).
Proof.
  apply (X15_when_a_run_merges [(en_file, en_json); (ru_file, ru_json)]).
  repeat (apply List.Forall_cons;
          [split; [solve_unique_keys | reflexivity]|]).
  apply List.Forall_nil.
Defined.

(** X16: whether a run merges does not depend on the order of the files.
    For the same files in two orders, no stem being used as a key inside any
    file, the one run returns a document if and only if the other does.
    (The input maps have distinct keys, as Python dicts have.) *)
Theorem X16_success_is_order_independent (files files' : list (Path * pyval)) :
  Permutation files files' →
  Forall (λ entry : Path * pyval,
            unique_keys (snd entry) ∧
            keys_avoid (run_langs files) (snd entry) = true) files →
  (∃ merged, JsonMerger_merge files = Ok merged) ↔
  (∃ merged', JsonMerger_merge files' = Ok merged').
Proof.
  intros Hperm Hall.
  assert (run_langs files ≡ₚ run_langs files') as Hlangs
    by (unfold run_langs; by rewrite Hperm).
  rewrite (merge_files_Ok_iff (run_langs files) files) by done.
  rewrite (merge_files_Ok_iff (run_langs files) files');
    [|intros l; by rewrite Hlangs | by rewrite <- Hperm].
  split; intros [Hvalid Hclash]; (split; [by rewrite Hperm in * |]);
    intros f t g u Hin Hin'; apply (Hclash f t g u);
    (eapply Permutation_in; [|done]); done || by symmetry.
Qed.

Lemma X16_success_is_order_independent_witness :
  (∃ merged,
     JsonMerger_merge [(en_file, en_json); (ru_file, ru_json)] = Ok merged) ↔
  (∃ merged',
     JsonMerger_merge [(ru_file, ru_json); (en_file, en_json)] = Ok merged').
Proof.
  apply X16_success_is_order_independent; [apply perm_swap|].
  repeat (apply List.Forall_cons;
          [split; [solve_unique_keys | reflexivity]|]).
  apply List.Forall_nil.
Defined.
